(** * Polymarket live CLI dashboard: feed client, strategy simulator, ledger

    A shallow embedding of the TypeScript sources

      - [src/types.ts]                       (messages, [Trade], [OrderBook])
      - [src/websocket/client.ts]            ([PolymarketWebSocketClient])
      - [src/portfolio/portfolio.ts]         ([PortfolioTracker])
      - [src/strategy/base.ts], [src/strategy/poll-buy-strategy.ts]
      - [src/simulator/simulator.ts]         ([StrategySimulator])
      - the feed callback of [src/index.ts]

    followed by the properties of the specification that concern them.

    Conventions.
    - A JavaScript [number] is a type [F] with the operations of the class
      [JSNumber].  The program runs on [float], the binary64 numbers of the
      kernel: a numeral is converted with one rounding of its exact value,
      and the operations are those of IEEE 754.  The properties of the
      feed, of fills and of the execution price are proved for every [F]
      that satisfies the laws [JSNumberLaws], as binary64 does, and their
      examples are run in binary64.  The second instance, [xnum], is exact
      rational arithmetic extended with [Infinity], [-Infinity] and [NaN];
      it abstracts the rounding, the overflow and the sign of zero, and a
      property stated on it says so.
    - A string is the sequence of the bytes of its UTF-8 form.
      [toUpperCase] and [toLowerCase] map the ASCII letters; a property
      that depends on the case of other letters asks for ASCII names.
    - [Date.now()] is an integer number of milliseconds, passed explicitly.
    - Objects that the code mutates in place and hands out to callers
      (positions, the order book, the trade array) live in an explicit store
      of cells; a reference is the index of a cell. *)

From Stdlib Require Import ZArith QArith Qcanon Lqa Floats String Ascii.
From stdpp Require Import base decidable option numbers list sorting strings gmap.

Set Default Proof Using "Type".
Local Open Scope Z_scope.

(** ** JavaScript numbers *)

Class JSNumber (F : Type) := {
  num_of_Z : Z → F;
  (* the value of a decimal numeral: [-m * 10^k] when [neg], [m * 10^k]
     otherwise, for [0 <= m]; the sign is kept apart for the numeral [-0] *)
  num_of_decimal : bool → Z → Z → F;
  nadd : F → F → F;
  nsub : F → F → F;
  nmul : F → F → F;
  ndiv : F → F → F;
  nlt : F → F → bool;   (* [a < b]   *)
  nle : F → F → bool;   (* [a <= b]  *)
  neq : F → F → bool    (* [a === b] *)
}.

Declare Scope js_scope.
Delimit Scope js_scope with js.
Infix "+" := nadd : js_scope.
Infix "-" := nsub : js_scope.
Infix "*" := nmul : js_scope.
Infix "/" := ndiv : js_scope.
Infix "<?" := nlt : js_scope.
Infix "<=?" := nle : js_scope.
Infix "=?" := neq : js_scope.
Notation "a >? b" := (nlt b a) (at level 70, no associativity) : js_scope.
Notation "a >=? b" := (nle b a) (at level 70, no associativity) : js_scope.

Section JSValues.
Context {F : Type} `{JSNumber F}.
Local Open Scope js_scope.

Definition zero : F := num_of_Z 0.
Definition one : F := num_of_Z 1.
(** [NaN], as the value of [0/0]. *)
Definition NaN : F := zero / zero.
(** [Infinity], as the value of [1/0]. *)
Definition Infinity : F := one / zero.
(** A decimal literal [m / 10^k], e.g. [decimal 45 2] for [0.45]. *)
Definition decimal (m : Z) (k : nat) : F := num_of_Z m / num_of_Z (10 ^ Z.of_nat k).

Definition is_nan (x : F) : bool := negb (x =? x).
(** [ToBoolean] on a number: false for [0] and [NaN]. *)
Definition truthy (x : F) : bool := negb (x =? zero) && negb (is_nan x).
(** [a || b] on numbers. *)
Definition or_else (a b : F) : F := if truthy a then a else b.
(** [a?.x || b], where the left operand may be [undefined]. *)
Definition or_default (a : option F) (b : F) : F :=
  match a with Some x => or_else x b | None => b end.
(** [Math.min(a, b)]. *)
Definition Math_min (a b : F) : F :=
  if is_nan a then a else if is_nan b then b else if b <? a then b else a.
End JSValues.

(** *** Binary64 numbers *)

(** The double nearest to the integer [z], ties to the even mantissa, and
    an infinity beyond the range: the one rounding of the exact value
    that the conversion of a numeral to a Number performs. *)
Definition float_of_Z (z : Z) : float :=
  SF2Prim (binary_normalize prec emax z 0 false).

(** The double nearest to [m * 10^k], with the sign [neg].  For a negative
    [k] the exact quotient of the two integers is rounded once, by the
    division of the specification run on the integers themselves. *)
Definition float_of_decimal (neg : bool) (m k : Z) : float :=
  match m with
  | Zpos p =>
      if (0 <=? k)%Z then
        float_of_Z (if neg then (- (m * 10 ^ k))%Z else (m * 10 ^ k)%Z)
      else
        SF2Prim (SFdiv prec emax (S754_finite neg p 0)
                       (S754_finite false (Z.to_pos (10 ^ (- k))) 0))
  | _ => if neg then PrimFloat.neg_zero else PrimFloat.zero
  end.

Global Instance float_number : JSNumber float := {|
  num_of_Z := float_of_Z;
  num_of_decimal := float_of_decimal;
  nadd := PrimFloat.add; nsub := PrimFloat.sub;
  nmul := PrimFloat.mul; ndiv := PrimFloat.div;
  nlt := PrimFloat.ltb; nle := PrimFloat.leb; neq := PrimFloat.eqb
|}.

(** *** Exact numbers *)

Inductive xnum : Type :=
  | Fin (q : Qc)
  | PInf
  | NInf
  | XNaN.

Global Instance xnum_eq_dec : EqDecision xnum.
Proof. solve_decision. Defined.

Definition sign_inf (c : comparison) : xnum :=
  match c with Gt => PInf | Lt => NInf | Eq => XNaN end.

Definition xneg (a : xnum) : xnum :=
  match a with Fin p => Fin (- p)%Qc | PInf => NInf | NInf => PInf | XNaN => XNaN end.

Definition xadd (a b : xnum) : xnum :=
  match a, b with
  | Fin p, Fin q => Fin (p + q)%Qc
  | XNaN, _ | _, XNaN => XNaN
  | PInf, NInf | NInf, PInf => XNaN
  | PInf, _ | _, PInf => PInf
  | NInf, _ | _, NInf => NInf
  end.

Definition xsub (a b : xnum) : xnum :=
  match a, b with
  | Fin p, Fin q => Fin (p - q)%Qc
  | _, _ => xadd a (xneg b)
  end.

Definition xmul (a b : xnum) : xnum :=
  match a, b with
  | Fin p, Fin q => Fin (p * q)%Qc
  | XNaN, _ | _, XNaN => XNaN
  | Fin p, PInf | PInf, Fin p => sign_inf (p ?= 0)%Qc
  | Fin p, NInf | NInf, Fin p => sign_inf (0 ?= p)%Qc
  | PInf, PInf | NInf, NInf => PInf
  | PInf, NInf | NInf, PInf => NInf
  end.

Definition xdiv (a b : xnum) : xnum :=
  match a, b with
  | Fin p, Fin q =>
      if decide (q = 0%Qc) then sign_inf (p ?= 0)%Qc else Fin (p / q)%Qc
  | XNaN, _ | _, XNaN => XNaN
  | Fin _, (PInf | NInf) => Fin 0%Qc
  | PInf, Fin q => if decide (q < 0)%Qc then NInf else PInf
  | NInf, Fin q => if decide (q < 0)%Qc then PInf else NInf
  | (PInf | NInf), (PInf | NInf) => XNaN
  end.

Definition xlt (a b : xnum) : bool :=
  match a, b with
  | Fin p, Fin q => bool_decide (p < q)%Qc
  | XNaN, _ | _, XNaN => false
  | _, NInf | PInf, _ => false
  | NInf, _ | _, PInf => true
  end.

Definition xle (a b : xnum) : bool :=
  match a, b with
  | Fin p, Fin q => bool_decide (p ≤ q)%Qc
  | XNaN, _ | _, XNaN => false
  | NInf, _ | _, PInf => true
  | _, NInf | PInf, _ => false
  end.

Definition xeq (a b : xnum) : bool :=
  match a, b with
  | Fin p, Fin q => bool_decide (p = q)
  | PInf, PInf | NInf, NInf => true
  | _, _ => false
  end.

Definition xnum_of_decimal (neg : bool) (m k : Z) : xnum :=
  let z := if neg then (- m)%Z else m in
  if (0 <=? k)%Z then Fin (Qc_of_Z (z * 10 ^ k))
  else xdiv (Fin (Qc_of_Z z)) (Fin (Qc_of_Z (10 ^ (- k)))).

Global Instance xnum_number : JSNumber xnum := {|
  num_of_Z z := Fin (Qc_of_Z z);
  num_of_decimal := xnum_of_decimal;
  nadd := xadd; nsub := xsub; nmul := xmul; ndiv := xdiv;
  nlt := xlt; nle := xle; neq := xeq
|}.

(** *** The laws of the comparisons

    What the properties of the order book use of the numbers, whatever
    their model: the three comparisons are the faces of one comparison
    [ncompare] that is undefined on [NaN] and a total order on the other
    numbers (in which [0] and [-0] are equal), and the sign of a difference
    [a - b] of two numbers tells whether [b < a].  Both models satisfy
    them; for binary64 they are derived from the specification of the
    operations of the kernel. *)
Class JSNumberLaws (F : Type) `{JSNumber F} := {
  ncompare : F → F → option comparison;
  nlt_compare a b :
    nlt a b = match ncompare a b with Some Lt => true | _ => false end;
  nle_compare a b :
    nle a b = match ncompare a b with Some (Lt | Eq) => true | _ => false end;
  neq_compare a b :
    neq a b = match ncompare a b with Some Eq => true | _ => false end;
  ncompare_None a b :
    ncompare a b = None ↔ ncompare a a = None ∨ ncompare b b = None;
  ncompare_refl a : ncompare a a ≠ None → ncompare a a = Some Eq;
  ncompare_opp a b : ncompare b a = CompOpp <$> ncompare a b;
  ncompare_trans a b c o :
    ncompare a b = Some o → ncompare b c = Some o → ncompare a c = Some o;
  ncompare_Eq_l a b c : ncompare a b = Some Eq → ncompare a c = ncompare b c;
  nsub_sign a b :
    ncompare a a ≠ None → ncompare b b ≠ None →
    nlt (num_of_Z 0) (nsub a b) = nlt b a;
  NaN_unordered :
    ncompare (ndiv (num_of_Z 0) (num_of_Z 0)) (ndiv (num_of_Z 0) (num_of_Z 0)) = None;
  zero_ordered : ncompare (num_of_Z 0) (num_of_Z 0) = Some Eq;
  nsub_zero : nsub (num_of_Z 0) (num_of_Z 0) = num_of_Z 0
}.

(** ** Library functions of JavaScript used by the sources *)

Section JSLibrary.
Context {F : Type} `{JSNumber F}.
Local Open Scope js_scope.

Definition code (c : ascii) : Z := Z.of_nat (nat_of_ascii c).

(** White space and line terminators skipped by [parseFloat] and
    [parseInt].  A string is the sequence of the bytes of its UTF-8
    form.  One byte: TAB, LF, VT, FF, CR and the space. *)
Definition is_space (c : ascii) : bool :=
  (code c =? 32)%Z || ((9 <=? code c)%Z && (code c <=? 13)%Z).

(** Two bytes: U+00A0. *)
Definition is_space2 (c c1 : ascii) : bool :=
  (code c =? 194)%Z && (code c1 =? 160)%Z.

(** Three bytes: U+1680, U+2000 to U+200A, U+2028, U+2029, U+202F,
    U+205F, U+3000 and U+FEFF. *)
Definition is_space3 (c c1 c2 : ascii) : bool :=
  ((code c =? 225)%Z && (code c1 =? 154)%Z && (code c2 =? 128)%Z)
  || ((code c =? 226)%Z && (code c1 =? 128)%Z
      && (((128 <=? code c2)%Z && (code c2 <=? 138)%Z)
          || (code c2 =? 168)%Z || (code c2 =? 169)%Z || (code c2 =? 175)%Z))
  || ((code c =? 226)%Z && (code c1 =? 129)%Z && (code c2 =? 159)%Z)
  || ((code c =? 227)%Z && (code c1 =? 128)%Z && (code c2 =? 128)%Z)
  || ((code c =? 239)%Z && (code c1 =? 187)%Z && (code c2 =? 191)%Z).

Fixpoint trimStart (s : string) : string :=
  match s with
  | String c s1 =>
      if is_space c then trimStart s1
      else
        match s1 with
        | String c1 s2 =>
            if is_space2 c c1 then trimStart s2
            else
              match s2 with
              | String c2 s3 => if is_space3 c c1 c2 then trimStart s3 else s
              | EmptyString => s
              end
        | EmptyString => s
        end
  | EmptyString => s
  end.

Definition digit_of (c : ascii) : option Z :=
  if (48 <=? code c)%Z && (code c <=? 57)%Z then Some (code c - 48)%Z else None.

Definition hex_digit_of (c : ascii) : option Z :=
  if (48 <=? code c)%Z && (code c <=? 57)%Z then Some (code c - 48)%Z
  else if (65 <=? code c)%Z && (code c <=? 70)%Z then Some (code c - 55)%Z
  else if (97 <=? code c)%Z && (code c <=? 102)%Z then Some (code c - 87)%Z
  else None.

(** The longest run of digits at the head of [s]: its value in the given
    radix, its length and the rest of the string. *)
Fixpoint read_digits (dig : ascii → option Z) (radix : Z)
    (s : string) (acc : Z) (n : nat) : Z * nat * string :=
  match s with
  | String c s' =>
      match dig c with
      | Some d => read_digits dig radix s' (radix * acc + d)%Z (S n)
      | None => (acc, n, s)
      end
  | EmptyString => (acc, n, s)
  end.

(** A leading sign: [true] for [-]. *)
Definition read_sign (s : string) : bool * string :=
  match s with
  | String "-" s' => (true, s')
  | String "+" s' => (false, s')
  | _ => (false, s)
  end.

(** The exponent part [e±ddd] at the head of [s], [0] when there is none. *)
Definition read_exponent (s : string) : Z :=
  match s with
  | String c s' =>
      if (code c =? 101)%Z || (code c =? 69)%Z then
        let '(neg, s'') := read_sign s' in
        let '(e, n, _) := read_digits digit_of 10 s'' 0 0%nat in
        if (n =? 0)%nat then 0%Z else if neg then (- e)%Z else e
      else 0%Z
  | EmptyString => 0%Z
  end.

(** [parseFloat(s)]: the value of the longest prefix of the trimmed string
    that is a decimal literal, [NaN] when there is none. *)
Definition parseFloat (s : string) : F :=
  let '(neg, s1) := read_sign (trimStart s) in
  if String.prefix "Infinity" s1 then
    (if neg then num_of_Z (-1) * Infinity else Infinity)
  else
    let '(ip, ni, s2) := read_digits digit_of 10 s1 0 0%nat in
    let '(fp, nf, s3) :=
      match s2 with
      | String "." s' => read_digits digit_of 10 s' 0 0%nat
      | _ => (0%Z, 0%nat, s2)
      end in
    if (ni + nf =? 0)%nat then NaN
    else
      let mant := (ip * 10 ^ Z.of_nat nf + fp)%Z in
      num_of_decimal neg mant (read_exponent s3 - Z.of_nat nf)%Z.

(** [parseInt(s)] with no radix argument: decimal, or hexadecimal after
    [0x]; [NaN] when no digit can be read. *)
Definition parseInt (s : string) : F :=
  let '(neg, s1) := read_sign (trimStart s) in
  let '(v, n, _) :=
    match s1 with
    | String "0" (String c s') =>
        if (code c =? 120)%Z || (code c =? 88)%Z
        then read_digits hex_digit_of 16 s' 0 0%nat
        else read_digits digit_of 10 s1 0 0%nat
    | _ => read_digits digit_of 10 s1 0 0%nat
    end in
  if (n =? 0)%nat then NaN else num_of_decimal neg v 0.

(** [String.prototype.toUpperCase] on ASCII letters. *)
Definition upper (c : ascii) : ascii :=
  if (97 <=? code c)%Z && (code c <=? 122)%Z
  then ascii_of_nat (nat_of_ascii c - 32) else c.

Fixpoint toUpperCase (s : string) : string :=
  match s with
  | String c s' => String (upper c) (toUpperCase s')
  | EmptyString => EmptyString
  end.

(** [Array.prototype.sort(cmp)].  The comparator returns a number; a
    negative result puts its first argument first, a positive one its
    second, and [0] or [NaN] leaves the two in their present order.  The
    sort is stable; for a consistent comparator this fixes its result, and
    the model is the stable insertion sort.  With an inconsistent
    comparator (one that sees a [NaN] key) engines may order the result
    differently: only facts that hold of every permutation are stated
    about such inputs. *)
Section Sort.
Context {A : Type} (cmp : A → A → F).

Fixpoint sort_insert (x : A) (l : list A) : list A :=
  match l with
  | [] => [x]
  | y :: l' => if cmp x y >? zero then y :: sort_insert x l' else x :: l
  end.

Definition js_sort (l : list A) : list A := foldr sort_insert [] l.
End Sort.

(** [Array.prototype.findIndex]. *)
Fixpoint findIndex {A : Type} (p : A → bool) (l : list A) : option nat :=
  match l with
  | [] => None
  | x :: l' => if p x then Some 0%nat else S <$> findIndex p l'
  end.
End JSLibrary.

(** ** [src/types.ts] *)

Inductive Side : Type := BUY | SELL.

Global Instance Side_eq_dec : EqDecision Side.
Proof. solve_decision. Defined.

Record OrderSummary : Type := {
  os_price : string;
  os_size : string
}.

(** The handler of [book] frames also accepts the sides under the names
    [buys] and [sells]; an absent field is [None]. *)
Record BookMessage : Type := {
  bm_asset_id : string;
  bm_market : string;
  bm_timestamp : string;
  bm_hash : string;
  bm_bids : option (list OrderSummary);
  bm_buys : option (list OrderSummary);
  bm_asks : option (list OrderSummary);
  bm_sells : option (list OrderSummary)
}.

Record LastTradeMessage : Type := {
  lt_asset_id : string;
  lt_market : string;
  lt_price : string;
  lt_side : Side;
  lt_size : string;
  lt_timestamp : string;
  lt_fee_rate_bps : string
}.

Record PriceChange : Type := {
  pc_asset_id : string;
  pc_price : string;
  pc_size : string;
  pc_side : Side;
  pc_hash : string;
  pc_best_bid : string;
  pc_best_ask : string
}.

Record PriceChangeMessage : Type := {
  pcm_market : string;
  pcm_price_changes : list PriceChange;
  pcm_timestamp : string
}.

Inductive WebSocketMessage : Type :=
  | MsgBook (m : BookMessage)
  | MsgLastTrade (m : LastTradeMessage)
  | MsgPriceChange (m : PriceChangeMessage)
  | MsgTickSizeChange.

(** A text frame as [onMessage] sees it: a keepalive echo, a text that
    [JSON.parse] rejects, or a parsed message. *)
Inductive Frame : Type :=
  | FramePong
  | FrameMalformed
  | FrameJSON (m : WebSocketMessage).

Section Types.
Context {F : Type} `{JSNumber F}.

Record Trade : Type := {
  tr_timestamp : F;
  tr_side : Side;
  tr_price : F;
  tr_size : F;
  tr_notional : F
}.

Record OrderBookLevel : Type := {
  price : F;
  size : F
}.

Record OrderBook : Type := {
  bids : list OrderBookLevel;
  asks : list OrderBookLevel;
  lastUpdate : F
}.
End Types.

Arguments Trade F : clear implicits.
Arguments OrderBookLevel F : clear implicits.
Arguments OrderBook F : clear implicits.

(** ** [src/websocket/client.ts] *)

Section Client.
Context {F : Type} `{JSNumber F}.
Local Open Scope js_scope.

(** The arguments of one call of the message handler: the trade array and
    the order book are passed by reference. *)
Record Update : Type := {
  u_trades : nat;
  u_orderBook : nat;
  u_connected : bool
}.

(** The data of a [PolymarketWebSocketClient].  [tradeArrays] and
    [bookObjects] are the cells of the arrays and of the book objects the
    client has created; [trades_ref] and [orderBook_ref] are the fields
    [this.trades] and [this.orderBook].  The arrays and level objects of a
    book are reached through the book object only, so a book cell holds
    them by value. *)
Record Client : Type := {
  tokenId : string;
  tradeArrays : gmap nat (list (Trade F));
  bookObjects : gmap nat (OrderBook F);
  nextRef : nat;
  trades_ref : nat;
  orderBook_ref : nat
}.

Global Instance OrderBook_inhabited : Inhabited (OrderBook F) :=
  populate {| bids := []; asks := []; lastUpdate := zero |}.

(** Reading through a reference. *)
Definition trades_at (c : Client) (r : nat) : list (Trade F) :=
  default [] (tradeArrays c !! r).
Definition book_at (c : Client) (r : nat) : OrderBook F :=
  bookObjects c !!! r.
Definition trades (c : Client) : list (Trade F) := trades_at c (trades_ref c).
Definition orderBook (c : Client) : OrderBook F := book_at c (orderBook_ref c).

(** [new PolymarketWebSocketClient(tokenId, handler)]. *)
Definition newClient (tokenId : string) : Client :=
  {| tokenId := tokenId;
     tradeArrays := {[ 0%nat := [] ]};
     bookObjects := {[ 1%nat := {| bids := []; asks := []; lastUpdate := zero |} ]};
     nextRef := 2;
     trades_ref := 0;
     orderBook_ref := 1 |}.

Definition notifyUpdate (c : Client) (connected : bool) : Update :=
  {| u_trades := trades_ref c; u_orderBook := orderBook_ref c;
     u_connected := connected |}.

Definition parseLevel (o : OrderSummary) : OrderBookLevel F :=
  {| price := parseFloat (os_price o); size := parseFloat (os_size o) |}.

(** The two comparators: [(a, b) => b.price - a.price] for bids and
    [(a, b) => a.price - b.price] for asks. *)
Definition cmp_desc (a b : OrderBookLevel F) : F := price b - price a.
Definition cmp_asc (a b : OrderBookLevel F) : F := price a - price b.

(** [x || y || []] on optional arrays (an array, even empty, is truthy). *)
Definition first_present {A} (x y : option (list A)) : list A :=
  match x with Some l => l | None => default [] y end.

Definition handleBookMessage (message : BookMessage) (c : Client)
    : Client * list Update :=
  if bool_decide (bm_asset_id message ≠ tokenId c) then (c, [])
  else
    let bidData := first_present (bm_bids message) (bm_buys message) in
    let askData := first_present (bm_asks message) (bm_sells message) in
    let bids := js_sort cmp_desc (parseLevel <$> bidData) in
    let asks := js_sort cmp_asc (parseLevel <$> askData) in
    let r := nextRef c in
    let c' :=
      {| tokenId := tokenId c;
         tradeArrays := tradeArrays c;
         bookObjects :=
           <[ r := {| bids := bids; asks := asks;
                      lastUpdate := parseInt (bm_timestamp message) |} ]>
             (bookObjects c);
         nextRef := S r;
         trades_ref := trades_ref c;
         orderBook_ref := r |} in
    (c', [notifyUpdate c' true]).

Definition handleTradeMessage (message : LastTradeMessage) (c : Client)
    : Client * list Update :=
  let price := parseFloat (lt_price message) in
  let size := parseFloat (lt_size message) in
  let trade :=
    {| tr_timestamp := parseInt (lt_timestamp message);
       tr_side := lt_side message;
       tr_price := price;
       tr_size := size;
       tr_notional := price * size |} in
  (* this.trades.unshift(trade) *)
  let arr := trade :: trades c in
  let cells := <[ trades_ref c := arr ]> (tradeArrays c) in
  let c' :=
    if (100 <? length arr)%nat then
      (* this.trades = this.trades.slice(0, 100) *)
      {| tokenId := tokenId c;
         tradeArrays := <[ nextRef c := take 100 arr ]> cells;
         bookObjects := bookObjects c;
         nextRef := S (nextRef c);
         trades_ref := nextRef c;
         orderBook_ref := orderBook_ref c |}
    else
      {| tokenId := tokenId c;
         tradeArrays := cells;
         bookObjects := bookObjects c;
         nextRef := nextRef c;
         trades_ref := trades_ref c;
         orderBook_ref := orderBook_ref c |} in
  (c', [notifyUpdate c' true]).

Definition set_size (size : F) (l : OrderBookLevel F) : OrderBookLevel F :=
  {| price := price l; size := size |}.

(** [updateLevel(levels, price, size, isBid)], as a function of the
    contents of the array it updates in place. *)
Definition updateLevel (levels : list (OrderBookLevel F))
    (price0 size0 : F) (isBid : bool) : list (OrderBookLevel F) :=
  let index := findIndex (λ l, price l =? price0) levels in
  let levels1 :=
    if size0 =? zero then
      match index with
      | Some i => delete i levels
      | None => levels
      end
    else
      match index with
      | Some i => alter (set_size size0) i levels
      | None => levels ++ [ {| price := price0; size := size0 |} ]
      end in
  if isBid then js_sort cmp_desc levels1 else js_sort cmp_asc levels1.

(** The body of the loop of [handlePriceChange], on the book object. *)
Definition applyChange (tokenId : string) (book : OrderBook F)
    (change : PriceChange) : OrderBook F :=
  if bool_decide (pc_asset_id change ≠ tokenId) then book
  else
    let price := parseFloat (pc_price change) in
    let size := parseFloat (pc_size change) in
    match pc_side change with
    | BUY =>
        {| bids := updateLevel (bids book) price size true;
           asks := asks book; lastUpdate := lastUpdate book |}
    | SELL =>
        {| bids := bids book;
           asks := updateLevel (asks book) price size false;
           lastUpdate := lastUpdate book |}
    end.

Definition handlePriceChange (message : PriceChangeMessage) (c : Client)
    : Client * list Update :=
  let book := foldl (applyChange (tokenId c)) (orderBook c)
                    (pcm_price_changes message) in
  let book' :=
    {| bids := bids book; asks := asks book;
       lastUpdate := parseInt (pcm_timestamp message) |} in
  let c' :=
    {| tokenId := tokenId c;
       tradeArrays := tradeArrays c;
       bookObjects := <[ orderBook_ref c := book' ]> (bookObjects c);
       nextRef := nextRef c;
       trades_ref := trades_ref c;
       orderBook_ref := orderBook_ref c |} in
  (c', [notifyUpdate c' true]).

(** [onOpen] and [onClose], as far as the data goes: the handler is told
    that the client is connected, or that it no longer is.  The transport,
    the subscribe frame and the keepalive and reconnect timers are not
    part of the model. *)
Definition onOpen (c : Client) : Client * list Update :=
  (c, [notifyUpdate c true]).

Definition onClose (c : Client) : Client * list Update :=
  (c, [notifyUpdate c false]).

(** [onMessage]: keepalive echoes and frames that fail to parse change
    nothing; [tick_size_change] has no case in the switch. *)
Definition onMessage (data : Frame) (c : Client) : Client * list Update :=
  match data with
  | FramePong | FrameMalformed => (c, [])
  | FrameJSON (MsgBook m) => handleBookMessage m c
  | FrameJSON (MsgLastTrade m) => handleTradeMessage m c
  | FrameJSON (MsgPriceChange m) => handlePriceChange m c
  | FrameJSON MsgTickSizeChange => (c, [])
  end.
End Client.

Arguments Client F : clear implicits.

(** ** [Map<string, V>]: an association list in insertion order *)

Section JSMap.
Context {V : Type}.

Fixpoint Map_get (k : string) (m : list (string * V)) : option V :=
  match m with
  | [] => None
  | (k', v) :: m' => if decide (k' = k) then Some v else Map_get k m'
  end.

(** [set] keeps the place of a key that is present and appends a new one. *)
Fixpoint Map_set (k : string) (v : V) (m : list (string * V)) : list (string * V) :=
  match m with
  | [] => [(k, v)]
  | (k', v') :: m' =>
      if decide (k' = k) then (k, v) :: m' else (k', v') :: Map_set k v m'
  end.

Fixpoint Map_delete (k : string) (m : list (string * V)) : list (string * V) :=
  match m with
  | [] => []
  | (k', v') :: m' =>
      if decide (k' = k) then m' else (k', v') :: Map_delete k m'
  end.
End JSMap.

(** ** [src/portfolio/types.ts] and [src/portfolio/portfolio.ts] *)

Section Portfolio.
Context {F : Type} `{JSNumber F}.
Local Open Scope js_scope.

Record Position : Type := {
  pos_tokenId : string;
  pos_outcome : string;
  pos_side : string;
  shares : F;
  averagePrice : F;
  pos_totalCost : F;
  firstPurchaseTime : Z;
  lastPurchaseTime : Z
}.

Global Instance Position_inhabited : Inhabited Position :=
  populate {| pos_tokenId := ""; pos_outcome := ""; pos_side := "";
              shares := zero; averagePrice := zero; pos_totalCost := zero;
              firstPurchaseTime := 0; lastPurchaseTime := 0 |}.

(** [PortfolioSnapshot]: [snap_positions] is a fresh array whose elements
    are the position objects of the tracker themselves. *)
Record PortfolioSnapshot : Type := {
  snap_positions : list nat;
  snap_totalCost : F;
  snap_currentValue : F;
  snap_unrealizedPnL : F;
  snap_realizedPnL : F;
  snap_timestamp : Z
}.

(** A [PortfolioTracker]: the fields of [this.portfolio], the map
    [this.currentPrices], and the cells of the [Position] objects created
    so far ([positions] maps a token to the reference of its object). *)
Record PortfolioTracker : Type := {
  objects : gmap nat Position;
  nextObject : nat;
  positions : list (string * nat);
  totalCost : F;
  currentValue : F;
  unrealizedPnL : F;
  realizedPnL : F;
  currentPrices : gmap string F
}.

Definition position_at (t : PortfolioTracker) (r : nat) : Position :=
  objects t !!! r.

Definition newTracker : PortfolioTracker :=
  {| objects := ∅; nextObject := 0; positions := [];
     totalCost := zero; currentValue := zero;
     unrealizedPnL := zero; realizedPnL := zero;
     currentPrices := ∅ |}.

Definition recalculateValue (t : PortfolioTracker) : PortfolioTracker :=
  let currentValue' :=
    foldl (λ acc e,
             let position := position_at t e.2 in
             let currentPrice := or_default (currentPrices t !! e.1) zero in
             acc + currentPrice * shares position)
          zero (positions t) in
  {| objects := objects t; nextObject := nextObject t;
     positions := positions t;
     totalCost := totalCost t;
     currentValue := currentValue';
     unrealizedPnL := currentValue' - totalCost t;
     realizedPnL := realizedPnL t;
     currentPrices := currentPrices t |}.

Definition set_currentPrice (tokenId : string) (p : F) (t : PortfolioTracker)
    : PortfolioTracker :=
  {| objects := objects t; nextObject := nextObject t;
     positions := positions t;
     totalCost := totalCost t; currentValue := currentValue t;
     unrealizedPnL := unrealizedPnL t; realizedPnL := realizedPnL t;
     currentPrices := <[ tokenId := p ]> (currentPrices t) |}.

Definition head_price (l : list (OrderBookLevel F)) : option F :=
  price <$> head l.

Definition updatePrices (tokenId : string) (orderBook : OrderBook F)
    (t : PortfolioTracker) : PortfolioTracker :=
  let p :=
    match bids orderBook, asks orderBook with
    | _ :: _, _ :: _ =>
        let bestBid := or_default (head_price (bids orderBook)) zero in
        let bestAsk := or_default (head_price (asks orderBook)) one in
        (bestBid + bestAsk) / num_of_Z 2
    | _, a :: _ => price a
    | b :: _, [] => price b
    | [], [] => decimal 5 1
    end in
  recalculateValue (set_currentPrice tokenId p t).

Definition setPrice (tokenId : string) (p : F) (t : PortfolioTracker)
    : PortfolioTracker :=
  recalculateValue (set_currentPrice tokenId p t).

(** [addTrade] up to its last statement, the call of
    [recalculateValue]. *)
Definition postTrade (tokenId outcome : string) (side : Side)
    (price size : F) (timestamp : Z) (t : PortfolioTracker)
    : PortfolioTracker :=
  let key := tokenId in
    match side with
    | BUY =>
        let t0 :=
          match Map_get key (positions t) with
          | Some r =>
              let existing := position_at t r in
              let totalCost' := pos_totalCost existing + price * size in
              let totalShares := shares existing + size in
              let existing' :=
                {| pos_tokenId := pos_tokenId existing;
                   pos_outcome := pos_outcome existing;
                   pos_side := pos_side existing;
                   shares := totalShares;
                   averagePrice := totalCost' / totalShares;
                   pos_totalCost := totalCost';
                   firstPurchaseTime := firstPurchaseTime existing;
                   lastPurchaseTime := timestamp |} in
              {| objects := <[ r := existing' ]> (objects t);
                 nextObject := nextObject t;
                 positions := positions t;
                 totalCost := totalCost t; currentValue := currentValue t;
                 unrealizedPnL := unrealizedPnL t;
                 realizedPnL := realizedPnL t;
                 currentPrices := currentPrices t |}
          | None =>
              let position :=
                {| pos_tokenId := tokenId;
                   pos_outcome := outcome;
                   pos_side := toUpperCase outcome;
                   shares := size;
                   averagePrice := price;
                   pos_totalCost := price * size;
                   firstPurchaseTime := timestamp;
                   lastPurchaseTime := timestamp |} in
              {| objects := <[ nextObject t := position ]> (objects t);
                 nextObject := S (nextObject t);
                 positions := Map_set key (nextObject t) (positions t);
                 totalCost := totalCost t; currentValue := currentValue t;
                 unrealizedPnL := unrealizedPnL t;
                 realizedPnL := realizedPnL t;
                 currentPrices := currentPrices t |}
          end in
        {| objects := objects t0; nextObject := nextObject t0;
           positions := positions t0;
           totalCost := totalCost t0 + price * size;
           currentValue := currentValue t0;
           unrealizedPnL := unrealizedPnL t0;
           realizedPnL := realizedPnL t0;
           currentPrices := currentPrices t0 |}
    | SELL =>
        match Map_get key (positions t) with
        | Some r =>
            let existing := position_at t r in
            if shares existing >=? size then
              let saleValue := price * size in
              let costBasis := averagePrice existing * size in
              let realized := saleValue - costBasis in
              let existing' :=
                {| pos_tokenId := pos_tokenId existing;
                   pos_outcome := pos_outcome existing;
                   pos_side := pos_side existing;
                   shares := shares existing - size;
                   averagePrice := averagePrice existing;
                   pos_totalCost := pos_totalCost existing - costBasis;
                   firstPurchaseTime := firstPurchaseTime existing;
                   lastPurchaseTime := lastPurchaseTime existing |} in
              {| objects := <[ r := existing' ]> (objects t);
                 nextObject := nextObject t;
                 positions :=
                   if shares existing' =? zero
                   then Map_delete key (positions t) else positions t;
                 totalCost := totalCost t - costBasis;
                 currentValue := currentValue t;
                 unrealizedPnL := unrealizedPnL t;
                 realizedPnL := realizedPnL t + realized;
                 currentPrices := currentPrices t |}
            else t
        | None => t
        end
    end.

Definition addTrade (tokenId outcome : string) (side : Side)
    (price size : F) (timestamp : Z) (t : PortfolioTracker)
    : PortfolioTracker :=
  recalculateValue (postTrade tokenId outcome side price size timestamp t).

Definition getSnapshot (now : Z) (t : PortfolioTracker) : PortfolioSnapshot :=
  {| snap_positions := (λ e, e.2) <$> positions t;
     snap_totalCost := totalCost t;
     snap_currentValue := currentValue t;
     snap_unrealizedPnL := unrealizedPnL t;
     snap_realizedPnL := realizedPnL t;
     snap_timestamp := now |}.

Definition getPosition (tokenId : string) (t : PortfolioTracker) : option nat :=
  Map_get tokenId (positions t).

Definition clear (t : PortfolioTracker) : PortfolioTracker :=
  {| objects := objects t; nextObject := nextObject t;
     positions := [];
     totalCost := zero; currentValue := zero;
     unrealizedPnL := zero; realizedPnL := zero;
     currentPrices := currentPrices t |}.

(** The live positions, read through their references. *)
Definition live_positions (t : PortfolioTracker) : list Position :=
  (λ e, position_at t e.2) <$> positions t.

(** The sum the loop of [recalculateValue] would compute over a field of
    the live positions, in the iteration order of the map. *)
Definition sum_live (f : Position → F) (t : PortfolioTracker) : F :=
  foldl (λ acc p, acc + f p) zero (live_positions t).
End Portfolio.

Arguments Position F : clear implicits.
Arguments PortfolioSnapshot F : clear implicits.
Arguments PortfolioTracker F : clear implicits.

(** *** The second draft of [src/portfolio/portfolio.ts]

    The repository holds a second draft of the tracker.  Apart from its
    logging it differs from the first in two methods: [updatePrices] marks
    at the best bid, and [recalculateValue] also recomputes
    [portfolio.totalCost] from the positions. *)

Module Revised.
Section Revised.
Context {F : Type} `{JSNumber F}.
Local Open Scope js_scope.

Definition recalculateValue (t : PortfolioTracker F) : PortfolioTracker F :=
let '(currentValue', recalculatedTotalCost) :=
  foldl (λ '(cv, tc) e,
           let position := position_at t e.2 in
           let currentPrice := or_default (currentPrices t !! e.1) zero in
           let positionValue := currentPrice * shares position in
           (cv + positionValue, tc + pos_totalCost position))
        (zero, zero) (positions t) in
{| objects := objects t; nextObject := nextObject t;
   positions := positions t;
   totalCost := recalculatedTotalCost;
   currentValue := currentValue';
   unrealizedPnL := currentValue' - recalculatedTotalCost;
   realizedPnL := realizedPnL t;
   currentPrices := currentPrices t |}.

Definition updatePrices (tokenId : string) (orderBook : OrderBook F)
  (t : PortfolioTracker F) : PortfolioTracker F :=
let p :=
  match bids orderBook, asks orderBook with
  | _ :: _, _ => or_default (head_price (bids orderBook)) zero
  | [], a :: _ => price a
  | [], [] => zero
  end in
recalculateValue (set_currentPrice tokenId p t).

Definition setPrice (tokenId : string) (p : F) (t : PortfolioTracker F)
  : PortfolioTracker F :=
recalculateValue (set_currentPrice tokenId p t).

Definition addTrade (tokenId outcome : string) (side : Side)
  (price size : F) (timestamp : Z) (t : PortfolioTracker F)
  : PortfolioTracker F :=
recalculateValue (postTrade tokenId outcome side price size timestamp t).
End Revised.
End Revised.

(** ** [src/strategy/types.ts], [src/strategy/base.ts] *)

(** [s || undefined] on an optional string: the empty string is falsy. *)
Definition truthy_string (s : option string) : option string :=
  match s with
  | Some s' => if decide (s' = "") then None else Some s'
  | None => None
  end.

Section StrategyTypes.
Context {F : Type} `{JSNumber F}.

(** [StrategyContext]; the optional [history] is not read by the sources
    embedded here and is left out. *)
Record StrategyContext : Type := {
  ctx_tokenId : string;
  ctx_marketName : string;
  ctx_outcome : string;
  ctx_currentPrice : F;
  ctx_bestBid : F;
  ctx_bestAsk : F;
  ctx_timestamp : Z
}.

(** The [trade] of a [StrategyResult]. *)
Record TradeIntent : Type := {
  ti_side : Side;
  ti_size : F;
  ti_price : option F;
  ti_tokenId : option string
}.

Record StrategyResult : Type := {
  shouldExecute : bool;
  trade : option TradeIntent
}.

(** The argument of [onTradeExecuted]. *)
Record Fill : Type := {
  fill_side : Side;
  fill_price : F;
  fill_size : F;
  fill_timestamp : Z
}.

(** [SimulatedTrade]; the field [id], a label built from the clock and a
    random number, is left out. *)
Record SimulatedTrade : Type := {
  st_timestamp : Z;
  st_tokenId : string;
  st_side : Side;
  st_price : F;
  st_size : F;
  st_notional : F;
  st_strategyName : string
}.

(** The interface of [BaseStrategy], over the type [S] of the strategy
    objects.  The clock read by a method is its argument [now];
    [evaluate] returns [None] for its result when it throws. *)
Class BaseStrategy (S : Type) := {
  getName : S → string;
  isEnabled : S → bool;
  initialize : StrategyContext → Z → S → S;
  evaluate : StrategyContext → Z → S → S * option StrategyResult;
  onTradeExecuted : Fill → S → S;
  cleanup : S → S
}.
End StrategyTypes.

Arguments StrategyContext F : clear implicits.
Arguments TradeIntent F : clear implicits.
Arguments StrategyResult F : clear implicits.
Arguments Fill F : clear implicits.
Arguments SimulatedTrade F : clear implicits.
Arguments BaseStrategy F S : clear implicits.

(** ** [src/strategy/poll-buy-strategy.ts] *)

Section PollBuy.
Context {F : Type} `{JSNumber F}.
Local Open Scope js_scope.

Record PollBuyStrategyConfig : Type := {
  cfg_name : string;
  cfg_enabled : bool;
  intervalSeconds : option F;
  buySize : option F;
  cfg_targetTokenId : option string;
  targetOutcome : option string
}.

Record PollBuyStrategy : Type := {
  config : PollBuyStrategyConfig;
  lastExecutionTime : Z;
  executionCount : Z;
  targetTokenId : option string
}.

(** [new PollBuyStrategy(config)]. *)
Definition newPollBuy (config : PollBuyStrategyConfig) : PollBuyStrategy :=
  {| config := config;
     lastExecutionTime := 0;
     executionCount := 0;
     targetTokenId := truthy_string (cfg_targetTokenId config) |}.

Definition PollBuy_initialize (context : StrategyContext F) (now : Z)
    (s : PollBuyStrategy) : PollBuyStrategy :=
  {| config := config s;
     lastExecutionTime := now;
     executionCount := 0;
     targetTokenId :=
       match truthy_string (targetTokenId s) with
       | Some tid => Some tid
       | None => Some (ctx_tokenId context)
       end |}.

Definition PollBuy_evaluate (context : StrategyContext F) (now : Z)
    (s : PollBuyStrategy) : PollBuyStrategy * option (StrategyResult F) :=
  if negb (cfg_enabled (config s)) then
    (s, Some {| shouldExecute := false; trade := None |})
  else
    let intervalMs :=
      or_default (intervalSeconds (config s)) (num_of_Z 15) * num_of_Z 1000 in
    let timeSinceLastExecution := num_of_Z now - num_of_Z (lastExecutionTime s) in
    if timeSinceLastExecution >=? intervalMs then
      ({| config := config s;
          lastExecutionTime := now;
          executionCount := executionCount s + 1;
          targetTokenId := targetTokenId s |},
       Some {| shouldExecute := true;
               trade := Some {| ti_side := BUY;
                                ti_size := or_default (buySize (config s)) one;
                                ti_price := None;
                                ti_tokenId := truthy_string (targetTokenId s) |} |})
    else
      (s, Some {| shouldExecute := false; trade := None |}).

Global Instance PollBuy_strategy : BaseStrategy F PollBuyStrategy := {|
  getName s := cfg_name (config s);
  isEnabled s := cfg_enabled (config s);
  initialize := PollBuy_initialize;
  evaluate := PollBuy_evaluate;
  onTradeExecuted _ s := s;
  cleanup s := s
|}.
End PollBuy.

Arguments PollBuyStrategyConfig F : clear implicits.
Arguments PollBuyStrategy F : clear implicits.

(** ** [src/simulator/simulator.ts] *)

Section Simulator.
Context {F : Type} `{JSNumber F} {S : Type} `{!BaseStrategy F S}.
Local Open Scope js_scope.

(** A [StrategySimulator].  [evaluationInterval] is the period of the
    armed timer, [None] when no timer is armed.  The registered trade
    callbacks are not part of the state: what they are called with is the
    head of [simulatedTrades].  [currentOrderBook] holds the book that
    [updateMarket] was last given; the feed callback gives it the client's
    book object after every change of that object. *)
Record StrategySimulator : Type := {
  strategies : list S;
  portfolio : PortfolioTracker F;
  simulatedTrades : list (SimulatedTrade F);
  evaluationInterval : option F;
  evaluationIntervalMs : F;
  currentContext : option (StrategyContext F);
  currentOrderBook : option (OrderBook F)
}.

(** [new StrategySimulator(config)], [config.evaluationIntervalMs]
    defaulting to 1000. *)
Definition newSimulator (evaluationIntervalMs : option F) : StrategySimulator :=
  {| strategies := [];
     portfolio := newTracker;
     simulatedTrades := [];
     evaluationInterval := None;
     evaluationIntervalMs := default (num_of_Z 1000) evaluationIntervalMs;
     currentContext := None;
     currentOrderBook := None |}.

Definition set_strategies (l : list S) (sim : StrategySimulator) : StrategySimulator :=
  {| strategies := l;
     portfolio := portfolio sim;
     simulatedTrades := simulatedTrades sim;
     evaluationInterval := evaluationInterval sim;
     evaluationIntervalMs := evaluationIntervalMs sim;
     currentContext := currentContext sim;
     currentOrderBook := currentOrderBook sim |}.

Definition addStrategy (strategy : S) (sim : StrategySimulator) : StrategySimulator :=
  set_strategies (strategies sim ++ [strategy]) sim.

Definition removeStrategy (strategyName : string) (sim : StrategySimulator)
    : StrategySimulator :=
  set_strategies
    (filter (λ s, getName s ≠ strategyName) (strategies sim)) sim.

Definition start (context : StrategyContext F) (now : Z)
    (sim : StrategySimulator) : StrategySimulator :=
  {| strategies :=
       (λ strategy,
          if isEnabled strategy then initialize context now strategy
          else strategy) <$> strategies sim;
     portfolio := portfolio sim;
     simulatedTrades := simulatedTrades sim;
     evaluationInterval := Some (evaluationIntervalMs sim);
     evaluationIntervalMs := evaluationIntervalMs sim;
     currentContext := Some context;
     currentOrderBook := currentOrderBook sim |}.

Definition stop (sim : StrategySimulator) : StrategySimulator :=
  {| strategies := cleanup <$> strategies sim;
     portfolio := portfolio sim;
     simulatedTrades := simulatedTrades sim;
     evaluationInterval := None;
     evaluationIntervalMs := evaluationIntervalMs sim;
     currentContext := currentContext sim;
     currentOrderBook := currentOrderBook sim |}.

Definition updateMarket (tokenId : string) (orderBook : OrderBook F)
    (now : Z) (sim : StrategySimulator) : StrategySimulator :=
  let bestBid := or_default (head_price (bids orderBook)) zero in
  let bestAsk := or_default (head_price (asks orderBook)) one in
  let currentPrice :=
    match bids orderBook, asks orderBook with
    | _ :: _, _ :: _ => (bestBid + bestAsk) / num_of_Z 2
    | _, _ :: _ => bestAsk
    | _ :: _, [] => bestBid
    | [], [] => decimal 5 1
    end in
  {| strategies := strategies sim;
     portfolio := setPrice tokenId currentPrice (portfolio sim);
     simulatedTrades := simulatedTrades sim;
     evaluationInterval := evaluationInterval sim;
     evaluationIntervalMs := evaluationIntervalMs sim;
     currentContext :=
       match currentContext sim with
       | Some ctx =>
           Some {| ctx_tokenId := ctx_tokenId ctx;
                   ctx_marketName := ctx_marketName ctx;
                   ctx_outcome := ctx_outcome ctx;
                   ctx_currentPrice := bestAsk;
                   ctx_bestBid := bestBid;
                   ctx_bestAsk := bestAsk;
                   ctx_timestamp := now |}
       | None => None
       end;
     currentOrderBook := Some orderBook |}.

(** The two loops of [calculateExecutionPrice] over the sorted levels:
    the remaining size and the accumulated cost when the loop ends. *)
Fixpoint walk (levels : list (OrderBookLevel F)) (remainingSize totalCost : F)
    : F * F :=
  match levels with
  | [] => (remainingSize, totalCost)
  | level :: rest =>
      if remainingSize <=? zero then (remainingSize, totalCost)
      else
        let fillSize := Math_min remainingSize (size level) in
        walk rest (remainingSize - fillSize) (totalCost + fillSize * price level)
  end.

Record Execution : Type := {
  exec_averagePrice : F;
  canFill : bool
}.

Definition calculateExecutionPrice (side : Side) (size : F)
    (sim : StrategySimulator) : Execution :=
  match currentOrderBook sim with
  | None =>
      match currentContext sim with
      | Some ctx =>
          let price :=
            match side with
            | BUY => or_else (ctx_bestAsk ctx) (ctx_currentPrice ctx)
            | SELL => or_else (ctx_bestBid ctx) (ctx_currentPrice ctx)
            end in
          {| exec_averagePrice := price; canFill := true |}
      | None => {| exec_averagePrice := decimal 5 1; canFill := false |}
      end
  | Some book =>
      let levels := match side with BUY => asks book | SELL => bids book end in
      let sorted :=
        match side with
        | BUY => js_sort cmp_asc levels
        | SELL => js_sort cmp_desc levels
        end in
      let '(remainingSize, totalCost) := walk sorted size zero in
      let totalCost' :=
        if remainingSize >? zero then
          let bestPrice :=
            match side with
            | BUY => or_default (head_price (asks book)) one
            | SELL => or_default (head_price (bids book)) zero
            end in
          totalCost + remainingSize * bestPrice
        else totalCost in
      {| exec_averagePrice := if size >? zero then totalCost' / size else zero;
         canFill := (remainingSize =? zero) || (0 <? length levels)%nat |}
  end.

(** [onTradeExecuted] reaches the first strategy of that name. *)
Fixpoint notify_strategy (strategyName : string) (fill : Fill F)
    (l : list S) : list S :=
  match l with
  | [] => []
  | strategy :: l' =>
      if decide (getName strategy = strategyName)
      then onTradeExecuted fill strategy :: l'
      else strategy :: notify_strategy strategyName fill l'
  end.

Definition executeTrade (strategyName : string) (trade : TradeIntent F)
    (now : Z) (sim : StrategySimulator) : StrategySimulator :=
  match currentContext sim with
  | None => sim
  | Some ctx =>
      let tradeTokenId :=
        default (ctx_tokenId ctx) (truthy_string (ti_tokenId trade)) in
      let executionPrice :=
        match ti_price trade with
        | Some p => p
        | None =>
            exec_averagePrice
              (calculateExecutionPrice (ti_side trade) (ti_size trade) sim)
        end in
      let simulatedTrade :=
        {| st_timestamp := now;
           st_tokenId := tradeTokenId;
           st_side := ti_side trade;
           st_price := executionPrice;
           st_size := ti_size trade;
           st_notional := executionPrice * ti_size trade;
           st_strategyName := strategyName |} in
      let fill :=
        {| fill_side := ti_side trade; fill_price := executionPrice;
           fill_size := ti_size trade; fill_timestamp := now |} in
      {| strategies := notify_strategy strategyName fill (strategies sim);
         portfolio :=
           addTrade tradeTokenId (ctx_outcome ctx) (ti_side trade)
                    executionPrice (ti_size trade) now (portfolio sim);
         simulatedTrades := take 1000 (simulatedTrade :: simulatedTrades sim);
         evaluationInterval := evaluationInterval sim;
         evaluationIntervalMs := evaluationIntervalMs sim;
         currentContext := currentContext sim;
         currentOrderBook := currentOrderBook sim |}
  end.

(** One round of the loop of [evaluateStrategies], on the strategy at
    index [i]. *)
Definition evaluate_at (now : Z) (sim : StrategySimulator) (i : nat)
    : StrategySimulator :=
  match currentContext sim, strategies sim !! i with
  | Some ctx, Some strategy =>
      if negb (isEnabled strategy) then sim
      else
        let '(strategy', result) := evaluate ctx now strategy in
        let sim' := set_strategies (<[ i := strategy' ]> (strategies sim)) sim in
        match result with
        | Some r =>
            match shouldExecute r, trade r with
            | true, Some tr => executeTrade (getName strategy') tr now sim'
            | _, _ => sim'
            end
        | None => sim'
        end
  | _, _ => sim
  end.

Definition evaluateStrategies (now : Z) (sim : StrategySimulator)
    : StrategySimulator :=
  match currentContext sim with
  | None => sim
  | Some _ =>
      foldl (evaluate_at now) sim (seq 0 (length (strategies sim)))
  end.

Definition getTrades (sim : StrategySimulator) : list (SimulatedTrade F) :=
  simulatedTrades sim.
End Simulator.

Arguments StrategySimulator F S : clear implicits.
Arguments Execution F : clear implicits.

(** ** The wiring of [src/index.ts] *)

Section Main.
Context {F : Type} `{JSNumber F} {S : Type} `{!BaseStrategy F S}.

(** The variables of [main] that its feed callback closes over. *)
Record App : Type := {
  wsClient : Client F;
  simulator : StrategySimulator F S;
  initialContextCreated : bool;
  app_marketName : string;
  app_outcome : string
}.

(** The handler given to the client, called with the update [u] at time
    [now]; the rendering of the user interface is left out. *)
Definition feedCallback (u : Update) (now : Z) (app : App) : App :=
  let tokenId := tokenId (wsClient app) in
  let orderBook := book_at (wsClient app) (u_orderBook u) in
  let sim := updateMarket tokenId orderBook now (simulator app) in
  if negb (initialContextCreated app)
     && (0 <? length (bids orderBook))%nat
     && (0 <? length (asks orderBook))%nat
  then
    let bestBid := or_default (head_price (bids orderBook)) zero in
    let bestAsk := or_default (head_price (asks orderBook)) one in
    {| wsClient := wsClient app;
       simulator :=
         start {| ctx_tokenId := tokenId;
                  ctx_marketName := app_marketName app;
                  ctx_outcome := app_outcome app;
                  ctx_currentPrice := bestAsk;
                  ctx_bestBid := bestBid;
                  ctx_bestAsk := bestAsk;
                  ctx_timestamp := now |} now sim;
       initialContextCreated := true;
       app_marketName := app_marketName app;
       app_outcome := app_outcome app |}
  else
    {| wsClient := wsClient app;
       simulator := sim;
       initialContextCreated := initialContextCreated app;
       app_marketName := app_marketName app;
       app_outcome := app_outcome app |}.

Inductive Event : Type :=
  | EvOpen (now : Z)                   (* the connection opens *)
  | EvFrame (data : Frame) (now : Z)   (* a frame arrives *)
  | EvClose (now : Z)                  (* the connection closes *)
  | EvTick (now : Z).                  (* the evaluation period elapses *)

(** What the client does on an event of the connection. *)
Definition client_event (ev : Event) (c : Client F) : Client F * list Update :=
  match ev with
  | EvOpen _ => onOpen c
  | EvFrame data _ => onMessage data c
  | EvClose _ => onClose c
  | EvTick _ => (c, [])
  end.

Definition event_time (ev : Event) : Z :=
  match ev with
  | EvOpen now | EvFrame _ now | EvClose now | EvTick now => now
  end.

Definition step (app : App) (ev : Event) : App :=
  match ev with
  | EvTick now =>
      match evaluationInterval (simulator app) with
      | Some _ =>
          {| wsClient := wsClient app;
             simulator := evaluateStrategies now (simulator app);
             initialContextCreated := initialContextCreated app;
             app_marketName := app_marketName app;
             app_outcome := app_outcome app |}
      | None => app
      end
  | _ =>
      let '(c, updates) := client_event ev (wsClient app) in
      foldl (λ a u, feedCallback u (event_time ev) a)
            {| wsClient := c;
               simulator := simulator app;
               initialContextCreated := initialContextCreated app;
               app_marketName := app_marketName app;
               app_outcome := app_outcome app |}
            updates
  end.

(** [main] after its set-up: the client, and a simulator holding the
    given strategies. *)
Definition newApp (tokenId marketName outcome : string) (strats : list S) : App :=
  {| wsClient := newClient tokenId;
     simulator := foldl (λ sim s, addStrategy s sim)
                        (newSimulator (Some (num_of_Z 1000))) strats;
     initialContextCreated := false;
     app_marketName := marketName;
     app_outcome := outcome |}.
End Main.

Arguments App F S : clear implicits.

(** ** Decidable equality of the data *)

Section Equality.
Context {F : Type} `{EqDecision F}.

Global Instance OrderSummary_eq_dec : EqDecision OrderSummary.
Proof using Type*. solve_decision. Defined.
Global Instance Trade_eq_dec : EqDecision (Trade F).
Proof using Type*. solve_decision. Defined.
Global Instance OrderBookLevel_eq_dec : EqDecision (OrderBookLevel F).
Proof using Type*. solve_decision. Defined.
Global Instance OrderBook_eq_dec : EqDecision (OrderBook F).
Proof using Type*. solve_decision. Defined.
Global Instance Update_eq_dec : EqDecision Update.
Proof using Type*. solve_decision. Defined.
Global Instance Client_eq_dec : EqDecision (Client F).
Proof using Type*. solve_decision. Defined.
Global Instance Position_eq_dec : EqDecision (Position F).
Proof using Type*. solve_decision. Defined.
Global Instance PortfolioSnapshot_eq_dec : EqDecision (PortfolioSnapshot F).
Proof using Type*. solve_decision. Defined.
Global Instance PortfolioTracker_eq_dec : EqDecision (PortfolioTracker F).
Proof using Type*. solve_decision. Defined.
Global Instance StrategyContext_eq_dec : EqDecision (StrategyContext F).
Proof using Type*. solve_decision. Defined.
Global Instance TradeIntent_eq_dec : EqDecision (TradeIntent F).
Proof using Type*. solve_decision. Defined.
Global Instance StrategyResult_eq_dec : EqDecision (StrategyResult F).
Proof using Type*. solve_decision. Defined.
Global Instance SimulatedTrade_eq_dec : EqDecision (SimulatedTrade F).
Proof using Type*. solve_decision. Defined.
Global Instance PollBuyStrategyConfig_eq_dec : EqDecision (PollBuyStrategyConfig F).
Proof using Type*. solve_decision. Defined.
Global Instance PollBuyStrategy_eq_dec : EqDecision (PollBuyStrategy F).
Proof using Type*. solve_decision. Defined.
Global Instance StrategySimulator_eq_dec {S} `{EqDecision S} :
  EqDecision (StrategySimulator F S).
Proof using Type*. solve_decision. Defined.
Global Instance App_eq_dec {S} `{EqDecision S} : EqDecision (App F S).
Proof using Type*. solve_decision. Defined.
End Equality.

(** * Properties *)

Example parseFloat_ex1 : parseFloat "0.45" = (decimal 45 2 : float).
Proof. reflexivity. Qed.
Example parseFloat_ex2 : parseFloat "  -12.5e-1xyz" = (num_of_Z (-5) / num_of_Z 4 : float)%js.
Proof. reflexivity. Qed.
Example parseFloat_ex3 : is_nan (parseFloat "abc" : xnum) = true.
Proof. reflexivity. Qed.
Example parseFloat_ex4 : xeq (parseFloat ".5") (decimal 1 1 * num_of_Z 5)%js = true.
Proof. vm_compute. reflexivity. Qed.
Example parseInt_ex1 : (parseInt "1700000000123" : xnum) = num_of_Z 1700000000123.
Proof. reflexivity. Qed.
Example parseInt_ex2 : (parseInt "0x1F" : xnum) = num_of_Z 31.
Proof. reflexivity. Qed.

(** ** Arithmetic of the exact numbers *)

Lemma Qc_neq_this (p q : Qc) : p ≠ q → ¬ (this p == this q)%Q.
Proof. intros Hne E. apply Hne. by apply Qc_is_canon. Qed.

Lemma Qc_eq_this (p q : Qc) : p = q → (this p == this q)%Q.
Proof. by intros ->. Qed.

(** Goals of linear arithmetic over [Qc] are sent to [lra] over [Q]. *)
Ltac qc_to_q :=
  repeat match goal with
  | H : @eq Qc _ _ |- _ => apply Qc_eq_this in H
  | H : ¬ @eq Qc _ _ |- _ => apply Qc_neq_this in H
  | H : ¬ Qcle _ _ |- _ => apply Qcnot_le_lt in H
  | H : ¬ Qclt _ _ |- _ => apply Qcnot_lt_le in H
  | |- ¬ _ => intro
  end;
  try apply Qc_is_canon;
  unfold Qcle, Qclt, Qcminus, Qcopp, Qcplus, Qcmult, Q2Qc, Qc_of_Z in *;
  cbn [this] in *;
  repeat rewrite Qred_correct in *;
  unfold inject_Z in *.

Ltac qc_lra := qc_to_q; lra.

(** Closed equations between exact numbers, by evaluation. *)
Ltac qc_compute := apply (bool_decide_unpack _); vm_compute; exact I.

Definition is_number (x : xnum) : Prop := x ≠ XNaN.
Definition is_finite (x : xnum) : Prop := ∃ q, x = Fin q.

Global Instance is_number_dec x : Decision (is_number x).
Proof. unfold is_number. apply _. Defined.

Lemma is_finite_number x : is_finite x → is_number x.
Proof. by intros [q ->]. Qed.

Lemma is_nan_xnum (x : xnum) : is_nan x = true ↔ x = XNaN.
Proof.
  unfold is_nan; destruct x; cbn; try done.
  rewrite bool_decide_eq_true_2; done.
Qed.

Lemma xeq_eq (x y : xnum) : is_number x → (x =? y)%js = true ↔ x = y.
Proof.
  intros Hx. destruct x, y; cbn; try done.
  rewrite bool_decide_eq_true. split; [by intros -> | by intros [= ->]].
Qed.

Lemma xeq_neq (x y : xnum) : is_number x → (x =? y)%js = false ↔ x ≠ y.
Proof.
  intros Hx. rewrite <- (xeq_eq x y Hx). by destruct (x =? y)%js.
Qed.

Lemma xle_refl (x : xnum) : is_number x → xle x x = true.
Proof. destruct x; cbn; try done. intros _. by apply bool_decide_eq_true_2. Qed.

Lemma xle_trans (x y z : xnum) : xle x y = true → xle y z = true → xle x z = true.
Proof.
  destruct x, y, z; cbn; try done.
  rewrite !bool_decide_eq_true. apply Qcle_trans.
Qed.

Lemma xlt_trans (x y z : xnum) : xlt x y = true → xlt y z = true → xlt x z = true.
Proof.
  destruct x, y, z; cbn; try done.
  rewrite !bool_decide_eq_true. apply Qclt_trans.
Qed.

Lemma xle_antisym (x y : xnum) : xle x y = true → xle y x = true → x = y.
Proof.
  destruct x, y; cbn; try done.
  rewrite !bool_decide_eq_true. intros. f_equal. by apply Qcle_antisym.
Qed.

Lemma xlt_xle (x y : xnum) : xlt x y = true → xle x y = true.
Proof.
  destruct x, y; cbn; try done.
  rewrite !bool_decide_eq_true. apply Qclt_le_weak.
Qed.

Lemma xle_total (x y : xnum) :
  is_number x → is_number y → xlt y x = negb (xle x y).
Proof.
  intros Hx Hy. destruct x, y; cbn; try done.
  destruct (decide (q ≤ q0)%Qc) as [Hle|Hnle].
  - rewrite (bool_decide_eq_true_2 _ Hle), bool_decide_eq_false_2; [done|].
    by apply Qcle_not_lt.
  - rewrite (bool_decide_eq_false_2 _ Hnle), bool_decide_eq_true_2; [done|].
    by apply Qcnot_le_lt.
Qed.

Lemma xle_lt_or_eq (x y : xnum) : xle x y = true → x ≠ y → xlt x y = true.
Proof.
  destruct x, y; cbn; try done.
  rewrite !bool_decide_eq_true. intros Hle Hne.
  apply Qcle_lt_or_eq in Hle as [?| ->]; done.
Qed.

Lemma xlt_irrefl (x : xnum) : xlt x x = false.
Proof.
  destruct x; cbn; try done. apply bool_decide_eq_false_2.
  intros Hlt. by apply Qclt_not_eq in Hlt.
Qed.

(** The sign test of the comparators: on numbers, [a - b > 0] is [b < a]. *)
Lemma xsub_pos (a b : xnum) :
  is_number a → is_number b → (a - b >? zero)%js = (b <? a)%js.
Proof.
  intros Ha Hb. destruct a as [p| | |], b as [q| | |]; cbn; try done.
  apply bool_decide_ext. split; intros; qc_lra.
Qed.

(** ** [Array.prototype.sort] *)

Section SortPermutation.
Context {F : Type} `{JSNumber F} {A : Type} (cmp : A → A → F).

Lemma sort_insert_perm x l : sort_insert cmp x l ≡ₚ x :: l.
Proof.
  induction l as [|y l IH]; cbn [sort_insert]; [done|].
  destruct (nlt zero (cmp x y)); [|done].
  rewrite IH. apply Permutation_swap.
Qed.

Lemma js_sort_cons x l : js_sort cmp (x :: l) = sort_insert cmp x (js_sort cmp l).
Proof. done. Qed.

(** Whatever the comparator, the result has the elements of the array. *)
Lemma js_sort_perm l : js_sort cmp l ≡ₚ l.
Proof.
  induction l as [|x l IH]; [done|].
  by rewrite js_sort_cons, sort_insert_perm, IH.
Qed.

Lemma js_sort_elem_of x l : x ∈ js_sort cmp l ↔ x ∈ l.
Proof. by rewrite js_sort_perm. Qed.

Lemma js_sort_length l : length (js_sort cmp l) = length l.
Proof. by rewrite js_sort_perm. Qed.
End SortPermutation.

(** A comparator is consistent with a transitive relation [R] on the
    elements satisfying [P] when its sign decides [R]. *)
Section SortSorted.
Context {F : Type} `{JSNumber F}
        {A : Type} (cmp : A → A → F) (R : relation A) (P : A → Prop).
Hypothesis R_trans : Transitive R.
Hypothesis cmp_pos : ∀ a b, P a → P b → (cmp a b >? zero)%js = true → R b a.
Hypothesis cmp_npos : ∀ a b, P a → P b → (cmp a b >? zero)%js = false → R a b.

Lemma sort_insert_sorted x l :
  P x → Forall P l → StronglySorted R l → StronglySorted R (sort_insert cmp x l).
Proof using R_trans cmp_pos cmp_npos.
  intros Hx Hl Hs. induction Hs as [|y l Hs IH Hy]; cbn [sort_insert].
  { repeat constructor. }
  apply Forall_cons in Hl as [HPy Hl].
  destruct (cmp x y >? zero)%js eqn:Hc.
  - constructor; [by apply IH|].
    rewrite (sort_insert_perm cmp x l). constructor; [by apply cmp_pos|done].
  - assert (R x y) by by apply cmp_npos.
    constructor; [by constructor|].
    constructor; [done|].
    eapply Forall_impl; [exact Hy|]. intros z Hz. by trans y.
Qed.

Lemma js_sort_sorted l : Forall P l → StronglySorted R (js_sort cmp l).
Proof using R_trans cmp_pos cmp_npos.
  induction 1 as [|x l Hx Hl IH]; [constructor|].
  rewrite js_sort_cons. apply sort_insert_sorted; [done| |done].
  by rewrite (js_sort_perm cmp l).
Qed.

End SortSorted.

(** ** The sides of the order book *)

Abbreviation Level := (OrderBookLevel xnum).

(** The order of a side: bids by descending price, asks by ascending. *)
Definition before (isBid : bool) (a b : Level) : Prop :=
  if isBid then xle (price b) (price a) = true
  else xle (price a) (price b) = true.

Definition strictly_before (isBid : bool) (a b : Level) : Prop :=
  if isBid then xlt (price b) (price a) = true
  else xlt (price a) (price b) = true.

Definition side_cmp (isBid : bool) : Level → Level → xnum :=
  if isBid then cmp_desc else cmp_asc.

Definition numeric_price (l : Level) : Prop := is_number (price l).

Global Instance before_dec isBid a b : Decision (before isBid a b).
Proof. unfold before. destruct isBid; apply _. Defined.
Global Instance strictly_before_dec isBid a b : Decision (strictly_before isBid a b).
Proof. unfold strictly_before. destruct isBid; apply _. Defined.
Global Instance numeric_price_dec l : Decision (numeric_price l).
Proof. unfold numeric_price. apply _. Defined.

Global Instance before_trans isBid : Transitive (before isBid).
Proof. intros a b c. destruct isBid; cbn; eauto using xle_trans. Qed.

Global Instance strictly_before_trans isBid : Transitive (strictly_before isBid).
Proof. intros a b c. destruct isBid; cbn; eauto using xlt_trans. Qed.

Lemma side_cmp_pos isBid a b :
  numeric_price a → numeric_price b →
  (side_cmp isBid a b >? zero)%js = true → before isBid b a.
Proof.
  intros Ha Hb. destruct isBid; unfold side_cmp, before, cmp_desc, cmp_asc;
    rewrite xsub_pos by done; apply xlt_xle.
Qed.

Lemma side_cmp_npos isBid a b :
  numeric_price a → numeric_price b →
  (side_cmp isBid a b >? zero)%js = false → before isBid a b.
Proof.
  intros Ha Hb. destruct isBid; unfold side_cmp, before, cmp_desc, cmp_asc;
    rewrite xsub_pos by done; cbn [nlt xnum_number];
    rewrite xle_total by done; by intros ?%negb_false_iff.
Qed.

(** On numeric prices the sort puts a side in its order. *)
Lemma side_sorted isBid (l : list Level) :
  Forall numeric_price l → StronglySorted (before isBid) (js_sort (side_cmp isBid) l).
Proof.
  apply js_sort_sorted; [apply _ | apply side_cmp_pos | apply side_cmp_npos].
Qed.

Lemma strictly_before_ne isBid a b : strictly_before isBid a b → price a ≠ price b.
Proof.
  destruct isBid; cbn; intros Hlt Heq; rewrite Heq, xlt_irrefl in Hlt; done.
Qed.

Lemma before_strictly isBid a b :
  before isBid a b → price a ≠ price b → strictly_before isBid a b.
Proof. destruct isBid; cbn; intros; by apply xle_lt_or_eq. Qed.

(** A side is strictly ordered exactly when it is ordered and no two of
    its levels have the same price. *)
Lemma strictly_sorted_iff isBid (l : list Level) :
  StronglySorted (strictly_before isBid) l ↔
  StronglySorted (before isBid) l ∧ NoDup (price <$> l).
Proof.
  induction l as [|a l IH].
  { split; [split|]; constructor. }
  rewrite !StronglySorted_cons, fmap_cons, NoDup_cons, IH, !Forall_forall.
  split.
  - intros [Hall [Hs Hn]]. repeat split; try done.
    + intros b Hb. destruct isBid; cbn; apply xlt_xle; by apply (Hall b).
    + intros (b & Heq & Hb)%list_elem_of_fmap.
      by apply (strictly_before_ne isBid a b); [apply Hall|].
  - intros [[Hall Hs] [Hni Hn]]. repeat split; try done.
    intros b Hb. apply before_strictly; [by apply Hall|].
    intros Heq. apply Hni. rewrite Heq. by apply list_elem_of_fmap_2.
Qed.

(** ** [updateLevel] *)

Lemma findIndex_Some {A} (p : A → bool) l i :
  findIndex p l = Some i →
  ∃ l1 x l2, l = (l1 ++ x :: l2) ∧ length l1 = i ∧ p x = true
             ∧ Forall (λ y, p y = false) l1.
Proof.
  revert i. induction l as [|y l IH]; intros i; cbn; [done|].
  destruct (p y) eqn:Hy.
  - intros [= <-]. by exists [], y, l.
  - destruct (findIndex p l) as [j|]; [|done]. intros [= <-].
    destruct (IH j eq_refl) as (l1 & x & l2 & -> & <- & Hx & Hl1).
    exists (y :: l1), x, l2. repeat split; try done. by constructor.
Qed.

Lemma findIndex_None {A} (p : A → bool) l :
  findIndex p l = None → Forall (λ y, p y = false) l.
Proof.
  induction l as [|y l IH]; cbn; [done|].
  destruct (p y) eqn:Hy; [done|].
  destruct (findIndex p l); [done|]. intros _. constructor; auto.
Qed.

(** The array of [updateLevel] before it is sorted again. *)
Definition updated (levels : list Level) (p s : xnum) : list Level :=
  match findIndex (λ l, (price l =? p)%js) levels with
  | Some i =>
      if (s =? zero)%js then delete i levels else alter (set_size s) i levels
  | None =>
      if (s =? zero)%js then levels else levels ++ [ {| price := p; size := s |} ]
  end.

Lemma updateLevel_updated levels p s isBid :
  updateLevel levels p s isBid = js_sort (side_cmp isBid) (updated levels p s).
Proof.
  unfold updateLevel, updated, side_cmp.
  destruct isBid, (findIndex _ levels), (s =? zero)%js; done.
Qed.

(** Some level of the array has the price [p]. *)
Definition has_price (p : xnum) (levels : list Level) : Prop :=
  p ∈ (price <$> levels).

Global Instance has_price_dec p levels : Decision (has_price p levels).
Proof. unfold has_price. apply _. Defined.

Section Updated.
Context (levels : list Level) (p s : xnum).
Hypothesis p_number : is_number p.
Hypothesis levels_numeric : Forall numeric_price levels.
Hypothesis levels_nodup : NoDup (price <$> levels).

Lemma updated_found i :
  findIndex (λ l, (price l =? p)%js) levels = Some i →
  ∃ l1 x l2, levels = (l1 ++ x :: l2) ∧ length l1 = i ∧ price x = p
             ∧ ¬ has_price p l1 ∧ ¬ has_price p l2.
Proof using p_number levels_numeric levels_nodup.
  intros (l1 & x & l2 & Heq & Hlen & Hx & _)%findIndex_Some.
  exists l1, x, l2. subst levels.
  apply Forall_app in levels_numeric as [_ [Hnx _]%Forall_cons].
  apply xeq_eq in Hx; [|done].
  rewrite fmap_app, fmap_cons, Hx in levels_nodup.
  apply NoDup_app in levels_nodup as (_ & Hdisj & [Hni _]%NoDup_cons).
  repeat split; try done.
  intros Hin. apply (Hdisj p Hin). left.
Qed.

Lemma updated_missing :
  findIndex (λ l, (price l =? p)%js) levels = None → ¬ has_price p levels.
Proof using p_number levels_numeric.
  intros Hall%findIndex_None (l & -> & Hl)%list_elem_of_fmap.
  rewrite Forall_forall in Hall, levels_numeric.
  specialize (Hall l Hl). cbn in Hall.
  apply xeq_neq in Hall; [done|]. by apply levels_numeric.
Qed.

Lemma updated_numeric : Forall numeric_price (updated levels p s).
Proof using p_number levels_numeric levels_nodup.
  unfold updated.
  destruct (findIndex _ levels) as [i|] eqn:Hi.
  - destruct (updated_found i Hi) as (l1 & x & l2 & Heq & Hlen & Hx & _).
    rewrite Heq in levels_numeric |- *. subst i.
    apply Forall_app in levels_numeric as [H1 [Hnx H2]%Forall_cons].
    destruct (s =? zero)%js.
    + rewrite delete_middle. by apply Forall_app.
    + rewrite <- (Nat.add_0_r (length l1)), alter_app_r. cbn.
      apply Forall_app; split; [done|]. by constructor.
  - destruct (s =? zero)%js; [done|].
    apply Forall_app; split; [done|]. by repeat constructor.
Qed.

Lemma updated_nodup : NoDup (price <$> updated levels p s).
Proof using p_number levels_numeric levels_nodup.
  unfold updated.
  destruct (findIndex _ levels) as [i|] eqn:Hi.
  - destruct (updated_found i Hi) as (l1 & x & l2 & Heq & Hlen & Hx & _).
    rewrite Heq in levels_nodup |- *. subst i.
    destruct (s =? zero)%js.
    + rewrite delete_middle.
      rewrite fmap_app, fmap_cons in levels_nodup. rewrite fmap_app.
      apply NoDup_app in levels_nodup as (? & Hdisj & [_ ?]%NoDup_cons).
      apply NoDup_app; repeat split; try done.
      intros y Hy Hy'. apply (Hdisj y Hy). by right.
    + rewrite <- (Nat.add_0_r (length l1)), alter_app_r. cbn.
      by rewrite fmap_app, fmap_cons in *.
  - destruct (s =? zero)%js; [done|].
    rewrite fmap_app. cbn.
    apply NoDup_app; repeat split; [done| |apply NoDup_singleton].
    intros y Hy ->%list_elem_of_singleton. by apply updated_missing in Hi.
Qed.

(** With size [0], no level is left at the price. *)
Lemma updated_removed :
  (s =? zero)%js = true → ¬ has_price p (updated levels p s).
Proof using p_number levels_numeric levels_nodup.
  intros Hs. unfold updated, has_price. rewrite Hs.
  destruct (findIndex _ levels) as [i|] eqn:Hi.
  - destruct (updated_found i Hi) as (l1 & x & l2 & Heq & Hlen & Hx & ? & ?).
    rewrite Heq. subst i.
    rewrite delete_middle, fmap_app, elem_of_app. by intros [?|?].
  - by apply updated_missing.
Qed.

(** With another size, the level at the price has that size. *)
Lemma updated_present :
  (s =? zero)%js = false →
  {| price := p; size := s |} ∈ updated levels p s.
Proof using p_number levels_numeric levels_nodup.
  intros Hs. unfold updated. rewrite Hs.
  destruct (findIndex _ levels) as [i|] eqn:Hi.
  - destruct (updated_found i Hi) as (l1 & x & l2 & Heq & Hlen & Hx & ? & ?).
    rewrite Heq. subst i.
    rewrite <- (Nat.add_0_r (length l1)), alter_app_r. cbn.
    rewrite elem_of_app, elem_of_cons. right; left.
    unfold set_size. by rewrite Hx.
  - rewrite elem_of_app, list_elem_of_singleton. by right.
Qed.
End Updated.

(** ** Price-change deltas *)

Definition is_bid (sd : Side) : bool :=
  match sd with BUY => true | SELL => false end.

Lemma applyChange_foreign (tokenId : string) (book : OrderBook xnum) change :
  pc_asset_id change ≠ tokenId → applyChange tokenId book change = book.
Proof. intros Hne. unfold applyChange. by rewrite bool_decide_eq_true_2. Qed.

Lemma nodup_fmap_eq {A B} (f : A → B) (l : list A) x y :
  NoDup (f <$> l) → x ∈ l → y ∈ l → f x = f y → x = y.
Proof.
  induction l as [|a l IH]; [by intros _ ?%elem_of_nil|].
  rewrite fmap_cons, NoDup_cons, !elem_of_cons.
  intros [Hni Hnd] [->|Hx] [->|Hy] Hf; auto.
  - destruct Hni. rewrite Hf. by apply list_elem_of_fmap_2.
  - destruct Hni. rewrite <- Hf. by apply list_elem_of_fmap_2.
Qed.

(** A book with two bids and one ask, and three deltas on its bids. *)
Definition level (p : Z) (k : nat) (s : Z) : Level :=
  {| price := decimal p k; size := num_of_Z s |}.

Definition book0 : OrderBook xnum :=
  {| bids := [level 50 2 10; level 40 2 5];
     asks := [level 55 2 8];
     lastUpdate := zero |}.

Definition delta (asset p s : string) (sd : Side) : PriceChange :=
  {| pc_asset_id := asset; pc_price := p; pc_size := s; pc_side := sd;
     pc_hash := ""; pc_best_bid := ""; pc_best_ask := "" |}.

(** ** Book snapshots *)

Definition bidData (m : BookMessage) : list OrderSummary :=
  first_present (bm_bids m) (bm_buys m).
Definition askData (m : BookMessage) : list OrderSummary :=
  first_present (bm_asks m) (bm_sells m).

Section Handlers.
Context {F : Type} `{JSNumber F}.

Lemma handleBookMessage_foreign (c : Client F) m :
  bm_asset_id m ≠ tokenId c → handleBookMessage m c = (c, []).
Proof. intros Hne. unfold handleBookMessage. by rewrite bool_decide_eq_true_2. Qed.

Lemma handleBookMessage_book (c : Client F) m :
  bm_asset_id m = tokenId c →
  orderBook (handleBookMessage m c).1 =
    {| bids := js_sort cmp_desc (parseLevel <$> bidData m);
       asks := js_sort cmp_asc (parseLevel <$> askData m);
       lastUpdate := parseInt (bm_timestamp m) |}.
Proof.
  intros Heq. unfold handleBookMessage.
  rewrite bool_decide_eq_false_2 by (by intros ?).
  unfold orderBook, book_at. cbn. by rewrite lookup_total_insert_eq.
Qed.

Lemma handlePriceChange_book (c : Client F) m :
  let book := foldl (applyChange (tokenId c)) (orderBook c)
                    (pcm_price_changes m) in
  orderBook (handlePriceChange m c).1 =
    {| bids := bids book; asks := asks book;
       lastUpdate := parseInt (pcm_timestamp m) |}.
Proof.
  unfold handlePriceChange. cbv zeta. unfold orderBook at 1, book_at.
  cbn [fst bookObjects orderBook_ref]. by rewrite lookup_total_insert_eq.
Qed.

(** A message of deltas for other instruments changes no level. *)
Lemma handlePriceChange_foreign (c : Client F) m :
  Forall (λ change, pc_asset_id change ≠ tokenId c) (pcm_price_changes m) →
  bids (orderBook (handlePriceChange m c).1) = bids (orderBook c)
  ∧ asks (orderBook (handlePriceChange m c).1) = asks (orderBook c).
Proof.
  intros Hall. rewrite handlePriceChange_book. cbv zeta.
  assert (Hfold : foldl (applyChange (tokenId c)) (orderBook c)
                        (pcm_price_changes m) = orderBook c).
  { induction Hall as [|change l Hne _ IH]; cbn [foldl]; [done|].
    assert (applyChange (tokenId c) (orderBook c) change = orderBook c) as ->
      by (unfold applyChange; by rewrite bool_decide_eq_true_2).
    exact IH. }
  rewrite Hfold. split; reflexivity.
Qed.

(** The [Trade] built from a [last_trade_price] message. *)
Definition trade_of (message : LastTradeMessage) : Trade F :=
  {| tr_timestamp := parseInt (lt_timestamp message);
     tr_side := lt_side message;
     tr_price := parseFloat (lt_price message);
     tr_size := parseFloat (lt_size message);
     tr_notional :=
       (parseFloat (lt_price message) * parseFloat (lt_size message))%js |}.

Lemma handleTradeMessage_trades (c : Client F) message :
  trades (handleTradeMessage message c).1
    = take 100 (trade_of message :: trades c).
Proof.
  unfold handleTradeMessage. fold (trade_of message).
  set (arr := trade_of message :: trades c).
  destruct (100 <? length arr)%nat eqn:Hlen;
    unfold trades at 1, trades_at; cbn [fst tradeArrays trades_ref];
    rewrite lookup_insert_eq; cbn [default]; [done|].
  apply Nat.ltb_ge in Hlen. by rewrite take_ge.
Qed.
End Handlers.

Definition order (p s : string) : OrderSummary :=
  {| os_price := p; os_size := s |}.

Definition bookMessage (asset : string) (bs as_ : list OrderSummary) : BookMessage :=
  {| bm_asset_id := asset; bm_market := ""; bm_timestamp := "1700000000000";
     bm_hash := ""; bm_bids := Some bs; bm_buys := None;
     bm_asks := Some as_; bm_sells := None |}.

(** A snapshot with distinct prices, and one that has the bid price 0.50
    twice. *)
Definition snapshot_message : BookMessage :=
  bookMessage "tok" [order "0.40" "5"; order "0.50" "10"] [order "0.55" "8"].
Definition duplicate_message : BookMessage :=
  bookMessage "tok" [order "0.50" "10"; order "0.50" "4"] [order "0.55" "8"].
Definition duplicate_book : OrderBook xnum :=
  orderBook (handleBookMessage duplicate_message (newClient "tok")).1.

(** C6 as stated fails: the handler keeps both levels of a price that the
    message carries twice. *)
Lemma book_snapshot_keeps_duplicates :
  bids duplicate_book = [level 50 2 10; level 50 2 4]
  ∧ ¬ (StronglySorted (strictly_before true) (bids duplicate_book)
       ∧ StronglySorted (strictly_before false) (asks duplicate_book)
       ∧ NoDup (price <$> bids duplicate_book)
       ∧ NoDup (price <$> asks duplicate_book)).
Proof.
  split; [apply (bool_decide_unpack _); vm_compute; exact I|].
  intros (_ & _ & Hnd & _). revert Hnd.
  apply (bool_decide_unpack _); vm_compute; exact I.
Qed.

(** ** Fields that are not numerals *)

(** A snapshot with a bid whose price is not a numeral and an ask whose
    size is not one. *)
Definition malformed_message : BookMessage :=
  bookMessage "tok" [order "0.50" "10"; order "abc" "4"] [order "0.55" "x"].
Definition malformed_book : OrderBook xnum :=
  orderBook (handleBookMessage malformed_message (newClient "tok")).1.

(** C7 as stated fails: the level with the malformed price is in the book
    after the snapshot, and so is the one with the malformed size; a delta
    with a malformed price is in the book after the price change. *)
Lemma malformed_level_not_discarded :
  {| price := NaN; size := num_of_Z 4 |} ∈ bids malformed_book
  ∧ {| price := decimal 55 2; size := NaN |} ∈ asks malformed_book
  ∧ {| price := NaN; size := num_of_Z 7 |}
      ∈ bids (applyChange "tok" book0 (delta "tok" "abc" "7" BUY)).
Proof.
  repeat split; apply (bool_decide_unpack _); vm_compute; exact I.
Qed.

(** ** Trades of other instruments *)

(** C10.  Whatever the asset id of a last-trade message, its trade is put
    at the head of the trade buffer, which keeps its first 100 entries;
    book snapshots and price-change deltas of another instrument are
    ignored. *)
Theorem trade_message_not_filtered
    (c : Client xnum) (message : LastTradeMessage)
    (bm : BookMessage) (change : PriceChange) :
  trades (handleTradeMessage message c).1
    = take 100 (trade_of message :: trades c)
  ∧ (bm_asset_id bm ≠ tokenId c → handleBookMessage bm c = (c, []))
  ∧ (pc_asset_id change ≠ tokenId c →
       applyChange (tokenId c) (orderBook c) change = orderBook c).
Proof.
  split; [apply handleTradeMessage_trades|].
  split; [apply handleBookMessage_foreign | apply applyChange_foreign].
Qed.

Definition tradeMessage (asset p s : string) (sd : Side) : LastTradeMessage :=
  {| lt_asset_id := asset; lt_market := ""; lt_price := p; lt_side := sd;
     lt_size := s; lt_timestamp := "1700000000000"; lt_fee_rate_bps := "0" |}.

Lemma trade_message_not_filtered_witness :
  trades (handleTradeMessage (tradeMessage "other" "0.97" "25" SELL)
                             (newClient "tok")).1
    = [ trade_of (tradeMessage "other" "0.97" "25" SELL) ]
  ∧ handleBookMessage (bookMessage "other" [order "0.97" "25"] [])
                      (newClient (F:=xnum) "tok")
      = (newClient "tok", []).
Proof.
  destruct (trade_message_not_filtered (newClient "tok")
              (tradeMessage "other" "0.97" "25" SELL)
              (bookMessage "other" [order "0.97" "25"] [])
              (delta "other" "0.97" "25" SELL)) as (Htrades & Hbook & _).
  split; [exact Htrades|]. by apply Hbook.
Defined.

(** ** Maps in insertion order *)

Section MapFacts.
Context {V : Type}.
Implicit Types (m : list (string * V)) (k : string) (v : V).

Lemma Map_get_None k m : Map_get k m = None ↔ k ∉ (fst <$> m).
Proof.
  induction m as [|[k' v'] m IH]; cbn.
  { split; [intros _; apply not_elem_of_nil|done]. }
  rewrite not_elem_of_cons. destruct (decide (k' = k)) as [->|Hne].
  - split; [done|]. by intros [? _].
  - rewrite IH. split; [by split; [intros ->|]|by intros [_ ?]].
Qed.

Lemma Map_get_Some k v m : Map_get k m = Some v → (k, v) ∈ m.
Proof.
  induction m as [|[k' v'] m IH]; cbn; [done|].
  destruct (decide (k' = k)) as [->|].
  - intros [= ->]. apply elem_of_cons. by left.
  - intros ?. apply elem_of_cons. right. auto.
Qed.

Lemma Map_get_elem k v m : NoDup (fst <$> m) → (k, v) ∈ m → Map_get k m = Some v.
Proof.
  induction m as [|[k' v'] m IH]; cbn; [by intros _ ?%elem_of_nil|].
  rewrite NoDup_cons, elem_of_cons. intros [Hni Hnd] [[= -> ->]|Hin].
  - by rewrite decide_True.
  - rewrite decide_False; [auto|]. intros ->. apply Hni.
    by apply (list_elem_of_fmap_2 fst) in Hin.
Qed.

Lemma Map_set_absent k v m : Map_get k m = None → Map_set k v m = m ++ [(k, v)].
Proof.
  induction m as [|[k' v'] m IH]; cbn; [done|].
  destruct (decide (k' = k)); [done|]. intros ?. by rewrite IH.
Qed.

Lemma Map_delete_sublist k m : sublist (Map_delete k m) m.
Proof.
  induction m as [|[k' v'] m IH]; cbn; [done|].
  destruct (decide (k' = k)); [by apply sublist_cons|by apply sublist_skip].
Qed.

Lemma Map_delete_elem k m e : e ∈ Map_delete k m → e ∈ m.
Proof.
  induction m as [|[k' v'] m IH]; cbn; [done|].
  rewrite elem_of_cons. destruct (decide (k' = k)); [auto|].
  rewrite elem_of_cons. intros [?|?]; auto.
Qed.

Lemma Map_get_delete k m : NoDup (fst <$> m) → Map_get k (Map_delete k m) = None.
Proof.
  induction m as [|[k' v'] m IH]; cbn; [done|].
  rewrite NoDup_cons. intros [Hni Hnd].
  destruct (decide (k' = k)) as [->|Hne]; cbn.
  - by apply Map_get_None.
  - rewrite decide_False by done. auto.
Qed.

Lemma Map_get_delete_ne k k' m : k ≠ k' → Map_get k' (Map_delete k m) = Map_get k' m.
Proof.
  intros Hne. induction m as [|[k0 v0] m IH]; cbn; [done|].
  destruct (decide (k0 = k)) as [->|]; cbn.
  - by rewrite decide_False.
  - by rewrite IH.
Qed.
End MapFacts.

(** ** The ledger *)

Section Ledger.
Context {F : Type} `{JSNumber F}.
Local Open Scope js_scope.

(** The calls that change a [PortfolioTracker]. *)
Inductive LedgerOp : Type :=
  | OpAddTrade (tokenId outcome : string) (side : Side) (price size : F)
               (timestamp : Z)
  | OpSetPrice (tokenId : string) (p : F)
  | OpUpdatePrices (tokenId : string) (orderBook : OrderBook F).

Definition apply_op (t : PortfolioTracker F) (op : LedgerOp) : PortfolioTracker F :=
  match op with
  | OpAddTrade tokenId outcome side price size timestamp =>
      addTrade tokenId outcome side price size timestamp t
  | OpSetPrice tokenId p => setPrice tokenId p t
  | OpUpdatePrices tokenId orderBook => updatePrices tokenId orderBook t
  end.

(** The ledger after a sequence of calls on the empty ledger. *)
Definition ledger_after (ops : list LedgerOp) : PortfolioTracker F :=
  foldl apply_op newTracker ops.

(** The value [recalculateValue] computes. *)
Definition value_of (t : PortfolioTracker F) : F :=
  currentValue (recalculateValue t).

(** The references of the map are distinct, one per token, and older
    than the next object. *)
Definition well_formed (t : PortfolioTracker F) : Prop :=
  NoDup (fst <$> positions t)
  ∧ NoDup (snd <$> positions t)
  ∧ Forall (λ e, (e.2 < nextObject t)%nat) (positions t).

Lemma well_formed_recalculate t : well_formed t → well_formed (recalculateValue t).
Proof. done. Qed.

Lemma well_formed_set_currentPrice k p t :
  well_formed t → well_formed (set_currentPrice k p t).
Proof. done. Qed.

Lemma well_formed_ref t k r :
  well_formed t → Map_get k (positions t) = Some r → (r < nextObject t)%nat.
Proof.
  intros (_ & _ & Hlt) Hget%Map_get_Some.
  rewrite Forall_forall in Hlt. by apply (Hlt _ Hget).
Qed.

Lemma well_formed_addTrade tokenId outcome side price size timestamp t :
  well_formed t →
  well_formed (addTrade tokenId outcome side price size timestamp t).
Proof.
  intros Hwf. unfold addTrade, postTrade. apply well_formed_recalculate.
  destruct Hwf as (Hk & Hr & Hlt). destruct side.
  - destruct (Map_get tokenId (positions t)) as [r|] eqn:Hget; [done|].
    unfold well_formed; cbn.
    rewrite (Map_set_absent _ _ _ Hget), !fmap_app. cbn.
    split; [|split].
    + apply NoDup_app. split; [done|]. split; [|apply NoDup_singleton].
      intros k Hin ->%list_elem_of_singleton. by apply Map_get_None in Hget.
    + apply NoDup_app. split; [done|]. split; [|apply NoDup_singleton].
      intros r (e & Hr' & He)%list_elem_of_fmap Hr''%list_elem_of_singleton.
      rewrite Forall_forall in Hlt. specialize (Hlt e He). cbn in Hlt. lia.
    + apply Forall_app. split; [|repeat constructor; cbn; lia].
      eapply Forall_impl; [exact Hlt|]. cbn. intros; lia.
  - destruct (Map_get tokenId (positions t)) as [r|] eqn:Hget; [|done].
    destruct (nle size (shares (position_at t r))); [|done].
    unfold well_formed; cbn.
    destruct (neq _ zero); [|done].
    pose proof (Map_delete_sublist tokenId (positions t)) as Hsub.
    split; [|split].
    + apply (sublist_NoDup _ (fst <$> positions t)); [exact Hk|by apply fmap_sublist].
    + apply (sublist_NoDup _ (snd <$> positions t)); [exact Hr|by apply fmap_sublist].
    + rewrite Forall_forall in Hlt |- *.
      intros e He%Map_delete_elem. by apply Hlt.
Qed.
End Ledger.

Section LedgerReach.
Context {F : Type} `{JSNumber F}.

Lemma ledger_after_snoc (ops : list (LedgerOp (F:=F))) op :
  ledger_after (ops ++ [op]) = apply_op (ledger_after ops) op.
Proof. unfold ledger_after. by rewrite foldl_app. Qed.

Lemma well_formed_apply_op (t : PortfolioTracker F) op :
  well_formed t → well_formed (apply_op t op).
Proof.
  destruct op; cbn; [apply well_formed_addTrade|done|done].
Qed.

Lemma well_formed_ledger_after (ops : list (LedgerOp (F:=F))) :
  well_formed (ledger_after ops).
Proof.
  induction ops as [|op ops IH] using rev_ind.
  - repeat split; cbn; constructor.
  - rewrite ledger_after_snoc. by apply well_formed_apply_op.
Qed.

Lemma Map_get_set_eq {V} k (v : V) m : Map_get k (Map_set k v m) = Some v.
Proof.
  induction m as [|[k' v'] m IH]; cbn; [by rewrite decide_True|].
  destruct (decide (k' = k)) as [->|Hne]; cbn.
  - by rewrite decide_True.
  - by rewrite decide_False.
Qed.

(** The objects and the map after a fill, case by case. *)
Definition bought (existing : Position F) (price size : F) (timestamp : Z)
    : Position F :=
  {| pos_tokenId := pos_tokenId existing;
     pos_outcome := pos_outcome existing;
     pos_side := pos_side existing;
     shares := (shares existing + size)%js;
     averagePrice :=
       ((pos_totalCost existing + price * size) / (shares existing + size))%js;
     pos_totalCost := (pos_totalCost existing + price * size)%js;
     firstPurchaseTime := firstPurchaseTime existing;
     lastPurchaseTime := timestamp |}.

Definition opened (tokenId outcome : string) (price size : F) (timestamp : Z)
    : Position F :=
  {| pos_tokenId := tokenId;
     pos_outcome := outcome;
     pos_side := toUpperCase outcome;
     shares := size;
     averagePrice := price;
     pos_totalCost := (price * size)%js;
     firstPurchaseTime := timestamp;
     lastPurchaseTime := timestamp |}.

Definition sold (existing : Position F) (size : F) : Position F :=
  {| pos_tokenId := pos_tokenId existing;
     pos_outcome := pos_outcome existing;
     pos_side := pos_side existing;
     shares := (shares existing - size)%js;
     averagePrice := averagePrice existing;
     pos_totalCost := (pos_totalCost existing - averagePrice existing * size)%js;
     firstPurchaseTime := firstPurchaseTime existing;
     lastPurchaseTime := lastPurchaseTime existing |}.

Lemma addTrade_buy_held k o p s ts (t : PortfolioTracker F) r :
  Map_get k (positions t) = Some r →
  let t' := addTrade k o BUY p s ts t in
  objects t' = <[ r := bought (position_at t r) p s ts ]> (objects t)
  ∧ positions t' = positions t
  ∧ nextObject t' = nextObject t
  ∧ totalCost t' = (totalCost t + p * s)%js
  ∧ realizedPnL t' = realizedPnL t
  ∧ currentPrices t' = currentPrices t.
Proof. intros Hget. unfold addTrade, postTrade. by rewrite Hget. Qed.

Lemma addTrade_buy_new k o p s ts (t : PortfolioTracker F) :
  Map_get k (positions t) = None →
  let t' := addTrade k o BUY p s ts t in
  objects t' = <[ nextObject t := opened k o p s ts ]> (objects t)
  ∧ positions t' = positions t ++ [(k, nextObject t)]
  ∧ nextObject t' = S (nextObject t)
  ∧ totalCost t' = (totalCost t + p * s)%js
  ∧ realizedPnL t' = realizedPnL t
  ∧ currentPrices t' = currentPrices t.
Proof.
  intros Hget. unfold addTrade, postTrade. rewrite Hget. cbn.
  by rewrite (Map_set_absent _ _ _ Hget).
Qed.

Lemma addTrade_sell_held k o p s ts (t : PortfolioTracker F) r :
  Map_get k (positions t) = Some r →
  nle s (shares (position_at t r)) = true →
  let t' := addTrade k o SELL p s ts t in
  objects t' = <[ r := sold (position_at t r) s ]> (objects t)
  ∧ positions t' =
      (if neq (shares (position_at t r) - s)%js zero
       then Map_delete k (positions t) else positions t)
  ∧ nextObject t' = nextObject t
  ∧ totalCost t' = (totalCost t - averagePrice (position_at t r) * s)%js
  ∧ realizedPnL t' =
      (realizedPnL t + (p * s - averagePrice (position_at t r) * s))%js
  ∧ currentPrices t' = currentPrices t.
Proof. intros Hget Hge. unfold addTrade, postTrade. by rewrite Hget, Hge. Qed.

Lemma addTrade_sell_rejected k o p s ts (t : PortfolioTracker F) :
  match Map_get k (positions t) with
  | Some r => nle s (shares (position_at t r)) = false
  | None => True
  end →
  addTrade k o SELL p s ts t = recalculateValue t.
Proof.
  unfold addTrade, postTrade. destruct (Map_get k (positions t)); [|done].
  by intros ->.
Qed.
End LedgerReach.

(** Every call ends in [recalculateValue]: the value and the unrealized
    profit of a ledger reached by calls are then up to date. *)
Definition up_to_date (t : PortfolioTracker xnum) : Prop :=
  currentValue t = value_of t
  ∧ unrealizedPnL t = (currentValue t - totalCost t)%js.

Lemma up_to_date_recalculate (t : PortfolioTracker xnum) :
  up_to_date (recalculateValue t).
Proof. done. Qed.

Lemma up_to_date_ledger_after (ops : list (LedgerOp (F:=xnum))) :
  up_to_date (ledger_after ops).
Proof.
  induction ops as [|op ops _] using rev_ind.
  - split; [done|]. cbn. f_equal. qc_compute.
  - rewrite ledger_after_snoc. destruct op; apply up_to_date_recalculate.
Qed.

(** ** Fills in exact arithmetic *)

(** The two fills of the specification, then the sale. *)
Definition buy (p : Z) (k : nat) (s : Z) (ts : Z) : LedgerOp (F:=xnum) :=
  OpAddTrade "tok" "Yes" BUY (decimal p k) (num_of_Z s) ts.

(** The worked example of the specification: BUY 2 @ 0.30 and BUY 3 @ 0.40
    give 5 shares at 0.36 costing 1.80; selling 2 @ 0.50 then books 0.28
    and leaves 3 shares costing 1.08. *)
Example weighted_average_example :
  let t := ledger_after [buy 30 2 2 1; buy 40 2 3 2] in
  shares (position_at t 0) = num_of_Z 5
  ∧ averagePrice (position_at t 0) = decimal 36 2
  ∧ pos_totalCost (position_at t 0) = decimal 180 2
  ∧ totalCost t = decimal 180 2.
Proof. repeat split; qc_compute. Qed.

Example sell_example :
  let t := ledger_after [buy 30 2 2 1; buy 40 2 3 2;
                         OpAddTrade "tok" "Yes" SELL (decimal 50 2) (num_of_Z 2) 3] in
  realizedPnL t = decimal 28 2
  ∧ shares (position_at t 0) = num_of_Z 3
  ∧ pos_totalCost (position_at t 0) = decimal 108 2.
Proof. repeat split; qc_compute. Qed.

(** ** The aggregate cost *)

(** [addTrade] keeps [portfolio.totalCost] by adding and taking away the
    cost of each fill; [recalculateValue] does not touch it. *)
Lemma totalCost_recalculate {F} `{JSNumber F} (t : PortfolioTracker F) :
  totalCost (recalculateValue t) = totalCost t.
Proof. done. Qed.

(** Three ordinary fills in binary64: BUY 1 @ 0.45, BUY 2 @ 0.55, SELL 3 @
    0.50. *)
Definition drift_fills : list (LedgerOp (F:=float)) :=
  [ OpAddTrade "tok" "Yes" BUY (decimal 45 2) (num_of_Z 1) 1;
    OpAddTrade "tok" "Yes" BUY (decimal 55 2) (num_of_Z 2) 2;
    OpAddTrade "tok" "Yes" SELL (decimal 50 2) (num_of_Z 3) 3 ].

(** Three fills of size 0 in exact arithmetic. *)
Definition empty_fills : list (LedgerOp (F:=xnum)) :=
  [ OpAddTrade "tok" "Yes" BUY (decimal 5 1) (num_of_Z 0) 1;
    OpAddTrade "tok" "Yes" BUY (decimal 5 1) (num_of_Z 0) 2;
    OpAddTrade "tok" "Yes" SELL (decimal 5 1) (num_of_Z 0) 3 ].

(** C1, on the code.  After the three fills of [drift_fills] no position is
    live, so the sum of the positions' costs is [0], and the aggregate
    [totalCost] is [-2^-52]: the rounding of [averagePrice * 3] is left in
    it.  After the three fills of [empty_fills] no position is live and
    the aggregate is [NaN].  The unrealized profit is in both cases
    [currentValue - totalCost]. *)
Lemma totalCost_not_recomputed :
  (live_positions (ledger_after drift_fills) = []
   ∧ sum_live pos_totalCost (ledger_after drift_fills) = 0%float
   ∧ totalCost (ledger_after drift_fills)
       = (num_of_Z (-1) / num_of_Z (2 ^ 52))%js
   ∧ (totalCost (ledger_after drift_fills)
        =? sum_live pos_totalCost (ledger_after drift_fills))%js = false)
  ∧ (live_positions (ledger_after empty_fills) = []
     ∧ sum_live pos_totalCost (ledger_after empty_fills) = zero
     ∧ totalCost (ledger_after empty_fills) = NaN
     ∧ totalCost (ledger_after empty_fills)
         ≠ sum_live pos_totalCost (ledger_after empty_fills)).
Proof.
  split.
  - repeat split; vm_compute; reflexivity.
  - repeat split; try (vm_compute; reflexivity).
    vm_compute. discriminate.
Qed.

(** The second draft recomputes the aggregate: after any of its calls, on
    any ledger, the aggregate cost is the sum of the costs of the live
    positions, the value is the sum of marked price times shares, and the
    unrealized profit is their difference. *)
Section RevisedLedger.
Context {F : Type} `{JSNumber F}.
Local Open Scope js_scope.

Definition marked_value (t : PortfolioTracker F) : F :=
  foldl (λ acc e,
           acc + or_default (currentPrices t !! e.1) zero
                 * shares (position_at t e.2))
        zero (positions t).

Lemma revised_fold (t : PortfolioTracker F) l cv tc :
  foldl (λ '(cv, tc) e,
           let position := position_at t e.2 in
           let currentPrice := or_default (currentPrices t !! e.1) zero in
           let positionValue := currentPrice * shares position in
           (cv + positionValue, tc + pos_totalCost position))
        (cv, tc) l
  = (foldl (λ acc e,
              acc + or_default (currentPrices t !! e.1) zero
                    * shares (position_at t e.2)) cv l,
     foldl (λ acc p, acc + pos_totalCost p) tc
           ((λ e, position_at t e.2) <$> l)).
Proof.
  revert cv tc. induction l as [|e l IH]; intros cv tc; cbn; [done|].
  by rewrite IH.
Qed.

Lemma revised_recalculate (t : PortfolioTracker F) :
  let t' := Revised.recalculateValue t in
  totalCost t' = sum_live pos_totalCost t'
  ∧ currentValue t' = marked_value t'
  ∧ unrealizedPnL t' = currentValue t' - totalCost t'.
Proof.
  unfold Revised.recalculateValue, sum_live, live_positions, marked_value.
  rewrite revised_fold. done.
Qed.

Theorem revised_totalCost_recomputed (t : PortfolioTracker F)
    (op : LedgerOp (F:=F)) :
  let t' :=
    match op with
    | OpAddTrade tokenId outcome side price size timestamp =>
        Revised.addTrade tokenId outcome side price size timestamp t
    | OpSetPrice tokenId p => Revised.setPrice tokenId p t
    | OpUpdatePrices tokenId orderBook =>
        Revised.updatePrices tokenId orderBook t
    end in
  totalCost t' = sum_live pos_totalCost t'
  ∧ currentValue t' = marked_value t'
  ∧ unrealizedPnL t' = currentValue t' - totalCost t'.
Proof. destruct op; apply revised_recalculate. Qed.
End RevisedLedger.

(** On the fills of [drift_fills] the second draft ends with the aggregate
    [0]. *)
Example revised_no_drift :
  totalCost
    (Revised.addTrade "tok" "Yes" SELL (decimal 50 2) (num_of_Z 3) 3
       (Revised.addTrade "tok" "Yes" BUY (decimal 55 2) (num_of_Z 2) 2
          (Revised.addTrade "tok" "Yes" BUY (decimal 45 2) (num_of_Z 1) 1
             newTracker)))
  = 0%float.
Proof. vm_compute. reflexivity. Qed.

(** ** What a snapshot and the feed callback hand out *)

Section Sharing.
Context {F : Type} `{JSNumber F}.
Local Open Scope js_scope.

(** The positions that the holder of a snapshot reads when the ledger is
    in the state [t]. *)
Definition snapshot_view (t : PortfolioTracker F) (s : PortfolioSnapshot F)
    : list (Position F) :=
  position_at t <$> snap_positions s.

(** The client after a sequence of frames. *)
Definition client_after (tokenId : string) (frames : list Frame) : Client F :=
  foldl (λ c data, (onMessage data c).1) (newClient tokenId) frames.

Definition client_well_formed (c : Client F) : Prop :=
  (trades_ref c < nextRef c)%nat ∧ (orderBook_ref c < nextRef c)%nat.

Lemma client_well_formed_onMessage data (c : Client F) :
  client_well_formed c → client_well_formed (onMessage data c).1.
Proof.
  intros [Ht Hb]. destruct data as [| |[m|m|m|]]; unfold onMessage; try done.
  - unfold handleBookMessage. destruct (bool_decide _); [done|].
    split; cbn; lia.
  - unfold handleTradeMessage. cbv zeta.
    destruct (Nat.ltb _ _); split; cbn; lia.
Qed.

Lemma client_well_formed_after tokenId frames :
  client_well_formed (client_after tokenId frames).
Proof.
  induction frames as [|data frames IH] using rev_ind.
  - split; cbn; lia.
  - unfold client_after. rewrite foldl_app. cbn.
    by apply client_well_formed_onMessage.
Qed.

(** A fill leaves the objects of the other tokens as they are. *)
Lemma addTrade_other_object k r k' o sd p s ts (t : PortfolioTracker F) :
  well_formed t → Map_get k (positions t) = Some r → k' ≠ k →
  position_at (addTrade k' o sd p s ts t) r = position_at t r.
Proof.
  intros Hwf Hget Hne.
  assert (Hfresh : r ≠ nextObject t).
  { pose proof (well_formed_ref t k r Hwf Hget). lia. }
  assert (Hother : ∀ r', Map_get k' (positions t) = Some r' → r ≠ r').
  { intros r' Hget' Heq. subst r'. apply Hne. destruct Hwf as (_ & Hnd & _).
    apply Map_get_Some in Hget, Hget'.
    by pose proof (nodup_fmap_eq snd _ _ _ Hnd Hget' Hget eq_refl) as [= ->]. }
  destruct sd.
  - destruct (Map_get k' (positions t)) as [r'|] eqn:Hget'.
    + destruct (addTrade_buy_held k' o p s ts t r' Hget') as (Hobj & _).
      unfold position_at. rewrite Hobj, lookup_total_insert_ne; [done|].
      intros Heq. by apply (Hother r' eq_refl).
    + destruct (addTrade_buy_new k' o p s ts t Hget') as (Hobj & _).
      unfold position_at. by rewrite Hobj, lookup_total_insert_ne.
  - destruct (Map_get k' (positions t)) as [r'|] eqn:Hget'.
    + destruct (nle s (shares (position_at t r'))) eqn:Hge.
      * destruct (addTrade_sell_held k' o p s ts t r' Hget' Hge) as (Hobj & _).
        unfold position_at. rewrite Hobj, lookup_total_insert_ne; [done|].
        intros Heq. by apply (Hother r' eq_refl).
      * rewrite addTrade_sell_rejected; [done|]. by rewrite Hget'.
    + rewrite addTrade_sell_rejected; [done|]. by rewrite Hget'.
Qed.

(** C9, as amended.  A snapshot lists the position objects of the ledger
    themselves, and the callback is passed the book object of the client
    itself.  For a token [k] held at the object [r] when the snapshot is
    taken:
    - [r] is in the snapshot;
    - price updates and fills of other tokens leave [r] as it is;
    - a later BUY of [k] is read through the snapshot: [r] then holds the
      position with the fill folded in.
    For the book object passed to the callback by a client reached from
    a new one:
    - a later book snapshot installs a new object and leaves that one as
      it is;
    - a later price change updates that very object. *)
Theorem snapshot_shares_objects
    (ops : list (LedgerOp (F:=F))) (now : Z) (k : string) (r : nat)
    (tokenId : string) (frames : list Frame) :
  let t := ledger_after ops in
  let c := client_after tokenId frames in
  let u := notifyUpdate c true in
  getPosition k t = Some r →
  r ∈ snap_positions (getSnapshot now t)
  ∧ (∀ k' p, position_at (setPrice k' p t) r = position_at t r)
  ∧ (∀ k' b, position_at (updatePrices k' b t) r = position_at t r)
  ∧ (∀ k' o sd p s ts, k' ≠ k →
       position_at (addTrade k' o sd p s ts t) r = position_at t r)
  ∧ (∀ o p s ts,
       position_at (addTrade k o BUY p s ts t) r
         = bought (position_at t r) p s ts)
  ∧ (∀ m, book_at (handleBookMessage m c).1 (u_orderBook u)
            = book_at c (u_orderBook u))
  ∧ (∀ m, book_at (handlePriceChange m c).1 (u_orderBook u)
            = orderBook (handlePriceChange m c).1).
Proof.
  intros t c u Hget. unfold getPosition in Hget.
  pose proof (well_formed_ledger_after ops) as Hwf. fold t in Hwf.
  pose proof (client_well_formed_after tokenId frames) as [_ Hb]. fold c in Hb.
  repeat split; try done.
  - unfold getSnapshot. cbn. apply Map_get_Some in Hget.
    by apply (list_elem_of_fmap_2 snd) in Hget.
  - intros. by apply (addTrade_other_object k).
  - intros o p s ts.
    destruct (addTrade_buy_held k o p s ts t r Hget) as (Hobj & _).
    unfold position_at at 1. by rewrite Hobj, lookup_total_insert_eq.
  - intros m. unfold handleBookMessage. destruct (bool_decide _); [done|].
    unfold book_at. cbn. rewrite lookup_total_insert_ne; [done|lia].
Qed.
End Sharing.

(** A ledger holding 2 shares bought at 0.30, its snapshot, and a later
    BUY of 3 @ 0.40; a client after a book snapshot, and a later price
    change. *)
Definition ledger0 : PortfolioTracker xnum := ledger_after [buy 30 2 2 1].
Definition snapshot0 : PortfolioSnapshot xnum := getSnapshot 5 ledger0.
Definition ledger1 : PortfolioTracker xnum :=
  addTrade "tok" "Yes" BUY (decimal 40 2) (num_of_Z 3) 6 ledger0.

Definition client0 : Client xnum := client_after "tok" [FrameJSON (MsgBook snapshot_message)].
Definition update0 : Update := notifyUpdate client0 true.
Definition client1 : Client xnum :=
  (handlePriceChange
     {| pcm_market := ""; pcm_timestamp := "1700000000001";
        pcm_price_changes := [delta "tok" "0.50" "0" BUY] |} client0).1.

Lemma snapshot_shares_objects_witness :
  position_at ledger1 0 = bought (position_at ledger0 0) (decimal 40 2) (num_of_Z 3) 6
  ∧ 0%nat ∈ snap_positions snapshot0.
Proof.
  destruct (snapshot_shares_objects [buy 30 2 2 1] 5 "tok" 0 "tok" [] eq_refl)
    as (Hin & _ & _ & _ & Hbuy & _).
  split; [apply Hbuy|exact Hin].
Defined.

(** C9 as stated fails: the positions read through a snapshot change with
    a later fill (2 shares when it was taken, 5 after), and the book that
    the callback was passed changes with a later price change (the bid at
    0.50 is gone from it). *)
Lemma snapshot_exposes_objects :
  shares <$> snapshot_view ledger0 snapshot0 = [num_of_Z 2]
  ∧ shares <$> snapshot_view ledger1 snapshot0 = [num_of_Z 5]
  ∧ snapshot_view ledger1 snapshot0 ≠ snapshot_view ledger0 snapshot0
  ∧ bids (book_at client0 (u_orderBook update0)) = [level 50 2 10; level 40 2 5]
  ∧ bids (book_at client1 (u_orderBook update0)) = [level 40 2 5]
  ∧ book_at client1 (u_orderBook update0) ≠ book_at client0 (u_orderBook update0).
Proof.
  repeat split; try (apply (bool_decide_unpack _); vm_compute; exact I).
Qed.

(** ** The PollBuy strategy *)

Lemma Qc_of_Z_le (a b : Z) : (Qc_of_Z a ≤ Qc_of_Z b)%Qc ↔ a ≤ b.
Proof. unfold Qcle, Qc_of_Z. cbn [this]. by rewrite <- Zle_Qle. Qed.

Lemma Qc_of_Z_minus (a b : Z) : (Qc_of_Z a - Qc_of_Z b)%Qc = Qc_of_Z (a - b).
Proof.
  apply Qc_is_canon. unfold Qcminus, Qcopp, Qcplus, Q2Qc, Qc_of_Z. cbn [this].
  rewrite !Qred_correct. unfold Z.sub. by rewrite inject_Z_plus, inject_Z_opp.
Qed.

(** The test [now - lastExecutionTime >= 15 * 1000] on integer clocks. *)
Lemma interval_elapsed (now last : Z) :
  (num_of_Z now - num_of_Z last
     >=? or_default (Some (num_of_Z 15)) (num_of_Z 15) * num_of_Z 1000)%js
  = bool_decide (15000 ≤ now - last).
Proof.
  assert (Hms : (or_default (Some (num_of_Z 15)) (num_of_Z 15) * num_of_Z 1000)%js
                = (num_of_Z 15000 : xnum)) by qc_compute.
  rewrite Hms. cbn. rewrite Qc_of_Z_minus.
  apply bool_decide_ext, Qc_of_Z_le.
Qed.

(** C4, as amended.  An enabled PollBuy strategy with [intervalSeconds =
    15] fires, at an evaluation at the time [now], exactly when 15000 ms
    have passed since [lastExecutionTime]; it then returns a BUY intent
    and sets [lastExecutionTime] to [now]; otherwise it returns no action
    and is left as it is.  [lastExecutionTime] is the time of the previous
    fire, and before the first fire the time of [initialize]: the first
    evaluation after [initialize] fires only when 15000 ms have passed
    since [initialize]. *)
Theorem pollbuy_fires_after_interval
    (context : StrategyContext xnum) (s : PollBuyStrategy xnum) (t0 now : Z) :
  let s' := (PollBuy_evaluate context now s).1 in
  let result := (PollBuy_evaluate context now s).2 in
  cfg_enabled (config s) = true →
  intervalSeconds (config s) = Some (num_of_Z 15) →
  (shouldExecute <$> result = Some true ↔ 15000 ≤ now - lastExecutionTime s)
  ∧ (15000 ≤ now - lastExecutionTime s →
       (∃ tr, result = Some {| shouldExecute := true; trade := Some tr |}
              ∧ ti_side tr = BUY ∧ ti_price tr = None)
       ∧ lastExecutionTime s' = now)
  ∧ (now - lastExecutionTime s < 15000 →
       result = Some {| shouldExecute := false; trade := None |} ∧ s' = s)
  ∧ lastExecutionTime (PollBuy_initialize context t0 s) = t0
  ∧ config (PollBuy_initialize context t0 s) = config s.
Proof.
  intros s' result Hen Hint. subst s' result.
  unfold PollBuy_evaluate. rewrite Hen, Hint. cbn [negb].
  rewrite interval_elapsed.
  destruct (decide (15000 ≤ now - lastExecutionTime s)) as [Hle|Hlt].
  - rewrite (bool_decide_eq_true_2 _ Hle). cbn.
    repeat split; try done; try lia. by eexists.
  - rewrite (bool_decide_eq_false_2 _ Hlt). cbn.
    repeat split; try done; try lia.
Qed.

Definition pollBuyConfig : PollBuyStrategyConfig xnum :=
  {| cfg_name := "PollBuy"; cfg_enabled := true;
     intervalSeconds := Some (num_of_Z 15); buySize := Some (num_of_Z 1);
     cfg_targetTokenId := Some "tok"; targetOutcome := Some "Yes" |}.

Definition context0 : StrategyContext xnum :=
  {| ctx_tokenId := "tok"; ctx_marketName := "market"; ctx_outcome := "Yes";
     ctx_currentPrice := decimal 55 2; ctx_bestBid := decimal 50 2;
     ctx_bestAsk := decimal 55 2; ctx_timestamp := 1000000 |}.

(** The strategy as [main] builds it, initialized at the time 1000000. *)
Definition pollBuy0 : PollBuyStrategy xnum :=
  PollBuy_initialize context0 1000000 (newPollBuy pollBuyConfig).

Lemma pollbuy_fires_after_interval_witness :
  shouldExecute <$> (PollBuy_evaluate context0 1015000 pollBuy0).2 = Some true
  ∧ (PollBuy_evaluate context0 1014999 pollBuy0).2
      = Some {| shouldExecute := false; trade := None |}.
Proof.
  destruct (pollbuy_fires_after_interval context0 pollBuy0 0 1015000 eq_refl eq_refl)
    as (Hiff & _).
  destruct (pollbuy_fires_after_interval context0 pollBuy0 0 1014999 eq_refl eq_refl)
    as (_ & _ & Hno & _).
  split; [apply Hiff; cbn; lia | apply Hno; cbn; lia].
Defined.

(** C4 as stated fails: the first evaluation after [initialize], one
    evaluation period (1000 ms) later, produces no action. *)
Lemma pollbuy_first_evaluation_waits :
  (PollBuy_evaluate context0 1001000 pollBuy0).2
    = Some {| shouldExecute := false; trade := None |}.
Proof. apply (bool_decide_unpack _); vm_compute; exact I. Qed.

(** ** Evaluation ticks before the context exists *)

Section Ticks.
Context {F : Type} `{JSNumber F} {S : Type} `{!BaseStrategy F S}.

Lemma evaluateStrategies_no_context (sim : StrategySimulator F S) now :
  currentContext sim = None → evaluateStrategies now sim = sim.
Proof. intros Hctx. unfold evaluateStrategies. by rewrite Hctx. Qed.

(** A book with a side that is empty. *)
Definition one_sided (b : OrderBook F) : Prop := bids b = [] ∨ asks b = [].

(** The books that the callback is passed while [step] handles [ev]. *)
Definition published (app : App F S) (ev : Event) : list (OrderBook F) :=
  let '(c, updates) := client_event ev (wsClient app) in
  (λ u, book_at c (u_orderBook u)) <$> updates.

(** No book published along the events [evs], from [app] on, has both
    of its sides populated. *)
Fixpoint no_full_book (app : App F S) (evs : list Event) : Prop :=
  match evs with
  | [] => True
  | ev :: evs' =>
      Forall one_sided (published app ev) ∧ no_full_book (step app ev) evs'
  end.

(** The simulator before [start]: no context, no timer, its strategies
    as they were added, no trade and no position. *)
Definition not_started (strats : list S) (app : App F S) : Prop :=
  initialContextCreated app = false
  ∧ currentContext (simulator app) = None
  ∧ evaluationInterval (simulator app) = None
  ∧ strategies (simulator app) = strats
  ∧ simulatedTrades (simulator app) = []
  ∧ positions (portfolio (simulator app)) = [].

Lemma feedCallback_one_sided strats u now (app : App F S) :
  one_sided (book_at (wsClient app) (u_orderBook u)) →
  not_started strats app →
  not_started strats (feedCallback u now app)
  ∧ wsClient (feedCallback u now app) = wsClient app.
Proof.
  intros Hside (Hinit & Hctx & Htimer & Hstrats & Htrades & Hpos).
  unfold feedCallback.
  assert (Hcond : ((0 <? length (bids (book_at (wsClient app) (u_orderBook u))))%nat
            && (0 <? length (asks (book_at (wsClient app) (u_orderBook u))))%nat)
           = false).
  { destruct Hside as [-> | ->]; cbn; [done|]. apply andb_false_r. }
  rewrite <- andb_assoc, Hcond, andb_false_r.
  split; [|done]. unfold not_started, updateMarket. cbn.
  by rewrite Hctx.
Qed.

Lemma step_not_started strats ev (app : App F S) :
  Forall one_sided (published app ev) →
  not_started strats app →
  not_started strats (step app ev).
Proof.
  intros Hpub Hns.
  assert (Hframe : ∀ now,
    not_started strats
      (let '(c, updates) := client_event ev (wsClient app) in
       foldl (λ a u, feedCallback u now a)
             {| wsClient := c; simulator := simulator app;
                initialContextCreated := initialContextCreated app;
                app_marketName := app_marketName app;
                app_outcome := app_outcome app |}
             updates)).
  { intros now. unfold published in Hpub.
    destruct (client_event ev (wsClient app)) as [c updates].
    assert (Hns' : not_started strats
              {| wsClient := c; simulator := simulator app;
                 initialContextCreated := initialContextCreated app;
                 app_marketName := app_marketName app;
                 app_outcome := app_outcome app |}) by done.
    set (app1 := Build_App c _ _ _ _) in *.
    assert (Hc : wsClient app1 = c) by done.
    clearbody app1. revert app1 Hns' Hc.
    induction updates as [|u updates IH]; intros app1 Hns' Hc; cbn; [done|].
    apply Forall_cons in Hpub as [Hu Hpub].
    destruct (feedCallback_one_sided strats u now app1) as [Hns'' Hc''];
      [by rewrite Hc|done|].
    apply IH; [done|done|by rewrite Hc'']. }
  destruct ev as [now|data now|now|now]; cbn [step]; try apply Hframe.
  pose proof Hns as (_ & _ & Ht & _). by rewrite Ht.
Qed.

Lemma strategies_addStrategy (strats : list S) (sim : StrategySimulator F S) :
  let sim' := foldl (λ sim s, addStrategy s sim) sim strats in
  strategies sim' = strategies sim ++ strats
  ∧ currentContext sim' = currentContext sim
  ∧ evaluationInterval sim' = evaluationInterval sim
  ∧ simulatedTrades sim' = simulatedTrades sim
  ∧ portfolio sim' = portfolio sim.
Proof.
  revert sim. induction strats as [|s strats IH]; intros sim; cbn.
  { by rewrite app_nil_r. }
  destruct (IH (addStrategy s sim)) as (-> & -> & -> & -> & ->).
  cbn. by rewrite <- app_assoc.
Qed.

Lemma newApp_not_started tokenId marketName outcome (strats : list S) :
  not_started strats (newApp tokenId marketName outcome strats).
Proof.
  unfold not_started, newApp. cbn.
  destruct (strategies_addStrategy strats (newSimulator (Some (num_of_Z 1000))))
    as (-> & -> & -> & -> & ->).
  done.
Qed.

(** C8.  An evaluation tick of a simulator that holds no context
    evaluates no strategy and executes no trade: it leaves the simulator
    as it is.  In the application the context is established by the
    first published book with both sides populated: as long as no such
    book has been published the simulator has no context and no timer,
    its strategies are as they were added, and it holds no trade and no
    position; a tick changes nothing. *)
Theorem tick_skipped_without_context
    (sim : StrategySimulator F S)
    (tokenId marketName outcome : string) (strats : list S)
    (evs : list Event) (now : Z) :
  let app := foldl step (newApp tokenId marketName outcome strats) evs in
  currentContext sim = None →
  no_full_book (newApp tokenId marketName outcome strats) evs →
  evaluateStrategies now sim = sim
  ∧ currentContext (simulator app) = None
  ∧ evaluateStrategies now (simulator app) = simulator app
  ∧ step app (EvTick now) = app
  ∧ strategies (simulator app) = strats
  ∧ simulatedTrades (simulator app) = []
  ∧ positions (portfolio (simulator app)) = [].
Proof.
  intros app Hctx Hquiet.
  split; [by apply evaluateStrategies_no_context|].
  assert (Hns : not_started strats app).
  { subst app. pose proof (newApp_not_started tokenId marketName outcome strats) as H0.
    revert H0 Hquiet. generalize (newApp tokenId marketName outcome strats).
    induction evs as [|ev evs IH]; intros app0 H0 Hq; cbn; [done|].
    destruct Hq as [Hpub Hq]. apply IH; [|done]. by apply step_not_started. }
  destruct Hns as (Hinit & Hc & Ht & Hs & Htr & Hp).
  repeat split; try done.
  - by apply evaluateStrategies_no_context.
  - cbn. by rewrite Ht.
Qed.
End Ticks.

(** Frames that publish one-sided books only, with ticks in between. *)
Definition bids_only_message : BookMessage :=
  bookMessage "tok" [order "0.40" "5"; order "0.50" "10"] [].

Definition quiet_events : list Event :=
  [ EvOpen 500;
    EvFrame (FrameJSON (MsgBook bids_only_message)) 1000;
    EvTick 2000;
    EvFrame (FrameJSON (MsgLastTrade (tradeMessage "tok" "0.50" "1" BUY))) 2500;
    EvTick 3000 ].

Lemma tick_skipped_without_context_witness :
  let app := foldl step (newApp "tok" "market" "Yes" [newPollBuy pollBuyConfig])
                   quiet_events in
  step app (EvTick 4000) = app
  ∧ simulatedTrades (simulator app) = [].
Proof.
  destruct (tick_skipped_without_context
              (newSimulator (S:=PollBuyStrategy xnum) None)
              "tok" "market" "Yes" [newPollBuy pollBuyConfig] quiet_events 4000
              eq_refl)
    as (_ & _ & _ & Htick & _ & Htrades & _).
  - cbn. repeat split; repeat constructor; by left + right.
  - split; [exact Htick|exact Htrades].
Defined.

(** Once a book with both sides has been published, the ticks evaluate:
    the strategy initialized at 5000 fires at the tick of 20000. *)
Example tick_after_context :
  let app := foldl step (newApp "tok" "market" "Yes" [newPollBuy pollBuyConfig])
                   [ EvOpen 4000;
                     EvFrame (FrameJSON (MsgBook snapshot_message)) 5000;
                     EvTick 6000; EvTick 20000 ] in
  length (simulatedTrades (simulator app)) = 1%nat
  ∧ st_price <$> simulatedTrades (simulator app) = [decimal 55 2].
Proof. split; apply (bool_decide_unpack _); vm_compute; exact I. Qed.

(** A sorted array is left as it is. *)
Lemma js_sort_sorted_id {F} `{JSNumber F} {A} (cmp : A → A → F) (R : relation A) l :
  (∀ a b, R a b → nlt zero (cmp a b) = false) →
  StronglySorted R l → js_sort cmp l = l.
Proof.
  intros Hcmp Hs. induction Hs as [|x l Hs IH Hx]; [done|].
  rewrite js_sort_cons, IH. destruct l as [|y l]; [done|].
  apply Forall_cons in Hx as [Hxy _]. cbn [sort_insert].
  by rewrite (Hcmp x y Hxy).
Qed.

(** * Further properties of the code *)

(** ** The feed client over a sequence of frames *)

Section Feed.
Context {F : Type} `{JSNumber F}.

(** The trade a frame carries, if it is a [last_trade_price] message. *)
Definition frame_trade (data : Frame) : option (Trade F) :=
  match data with
  | FrameJSON (MsgLastTrade m) => Some (trade_of m)
  | _ => None
  end.

Lemma trades_handleBookMessage (c : Client F) m :
  trades (handleBookMessage m c).1 = trades c.
Proof. unfold handleBookMessage. by case_bool_decide. Qed.

Lemma trades_handlePriceChange (c : Client F) m :
  trades (handlePriceChange m c).1 = trades c.
Proof. reflexivity. Qed.

Lemma trades_onMessage data (c : Client F) :
  trades (onMessage data c).1 =
    match frame_trade data with
    | Some t => take 100 (t :: trades c)
    | None => trades c
    end.
Proof.
  destruct data as [| |[m|m|m|]]; cbn [onMessage frame_trade fst]; try done.
  - apply trades_handleBookMessage.
  - apply handleTradeMessage_trades.
Qed.

Lemma take_app_take {A} (n : nat) (l1 l2 : list A) :
  take n (l1 ++ take n l2) = take n (l1 ++ l2).
Proof.
  rewrite !take_app, take_take. do 2 f_equal. lia.
Qed.

Lemma trades_foldl_onMessage frames (c : Client F) :
  (length (trades c) ≤ 100)%nat →
  trades (foldl (λ c data, (onMessage data c).1) c frames)
    = take 100 (reverse (omap frame_trade frames) ++ trades c).
Proof.
  revert c. induction frames as [|data frames IH]; intros c Hlen; cbn [foldl].
  - cbn. by rewrite take_ge.
  - rewrite IH, trades_onMessage.
    + change (omap frame_trade (data :: frames))
        with (match frame_trade data with
              | Some t => t :: omap frame_trade frames
              | None => omap frame_trade frames
              end).
      destruct (frame_trade data) as [t|]; [|done].
      rewrite reverse_cons, take_app_take, <- app_assoc. done.
    + rewrite trades_onMessage. destruct (frame_trade data); [|done].
      rewrite length_take. lia.
Qed.

Lemma orderBook_handleTradeMessage (c : Client F) m :
  orderBook (handleTradeMessage m c).1 = orderBook c.
Proof. unfold handleTradeMessage. cbv zeta. by case_match. Qed.

(** X1.  After any sequence of frames the trade buffer of the client
    holds the trades of the [last_trade_price] messages among them, the
    latest first, cut to the 100 latest; the other frames do not touch
    it. *)
Theorem trade_buffer_latest (tokenId : string) (frames : list Frame) :
  trades (client_after tokenId frames)
    = take 100 (reverse (omap frame_trade frames))
  ∧ (length (trades (client_after (F:=F) tokenId frames)) ≤ 100)%nat.
Proof.
  assert (E : trades (client_after tokenId frames)
              = take 100 (reverse (omap frame_trade frames))).
  { unfold client_after. rewrite trades_foldl_onMessage.
    - change (trades (newClient tokenId)) with (@nil (Trade F)).
      by rewrite app_nil_r.
    - change (trades (newClient tokenId)) with (@nil (Trade F)). cbn. lia. }
  split; [exact E|]. rewrite E, length_take. lia.
Qed.
End Feed.

(** *** Sides in strict order *)

(** A side in strict order, all of its prices numbers. *)
Definition side_ordered (isBid : bool) (l : list Level) : Prop :=
  Forall numeric_price l ∧ StronglySorted (strictly_before isBid) l.

Lemma side_ordered_sort isBid (l : list Level) :
  Forall numeric_price l → NoDup (price <$> l) →
  side_ordered isBid (js_sort (side_cmp isBid) l).
Proof.
  intros Hn Hd. split.
  - by rewrite js_sort_perm.
  - apply strictly_sorted_iff. split; [by apply side_sorted|].
    by rewrite js_sort_perm.
Qed.

Lemma updateLevel_ordered isBid (l : list Level) p s :
  is_number p → side_ordered isBid l → side_ordered isBid (updateLevel l p s isBid).
Proof.
  intros Hp [Hn Hs]. apply strictly_sorted_iff in Hs as [_ Hd].
  rewrite updateLevel_updated. apply side_ordered_sort.
  - by apply updated_numeric.
  - by apply updated_nodup.
Qed.

Lemma tokenId_onMessage {F} `{JSNumber F} data (c : Client F) :
  tokenId (onMessage data c).1 = tokenId c.
Proof.
  destruct data as [| |[m|m|m|]]; cbn [onMessage fst]; try done.
  - unfold handleBookMessage. by case_bool_decide.
  - unfold handleTradeMessage. cbv zeta. by case_match.
Qed.

Definition price_change_message (changes : list PriceChange) : PriceChangeMessage :=
  {| pcm_market := ""; pcm_price_changes := changes;
     pcm_timestamp := "1700000000001" |}.

(** A snapshot, deltas on both sides, a trade, a keepalive echo and a
    snapshot of another instrument with a price twice. *)
Definition feed0 : list Frame :=
  [ FrameJSON (MsgBook snapshot_message);
    FrameJSON (MsgPriceChange (price_change_message
      [delta "tok" "0.45" "7" BUY; delta "tok" "0.60" "2" SELL;
       delta "other" "abc" "1" BUY]));
    FrameJSON (MsgLastTrade (tradeMessage "tok" "0.55" "1" BUY));
    FramePong;
    FrameJSON (MsgBook (bookMessage "other" [order "0.5" "1"; order "0.5" "2"] []));
    FrameJSON (MsgPriceChange (price_change_message [delta "tok" "0.40" "0" BUY])) ].

(** *** Deltas compose *)

Lemma side_sorted_id isBid (l : list Level) :
  StronglySorted (strictly_before isBid) l → js_sort (side_cmp isBid) l = l.
Proof.
  intros Hs. apply (js_sort_sorted_id _ (strictly_before isBid)); [|done].
  intros a b Hab. destruct isBid; cbn in *.
  - unfold cmp_desc. destruct (price a) as [pa| | |], (price b) as [pb| | |];
      try done; cbn in *.
    apply bool_decide_eq_false. apply bool_decide_eq_true in Hab.
    intros Hlt. qc_lra.
  - unfold cmp_asc. destruct (price a) as [pa| | |], (price b) as [pb| | |];
      try done; cbn in *.
    apply bool_decide_eq_false. apply bool_decide_eq_true in Hab.
    intros Hlt. qc_lra.
Qed.

Lemma StronglySorted_delete {A} (R : relation A) i (l : list A) :
  StronglySorted R l → StronglySorted R (delete i l).
Proof.
  intros Hs. revert i. induction Hs as [|x l Hs IH Hall]; intros [|i]; cbn.
  - constructor.
  - constructor.
  - done.
  - constructor; [apply IH|by apply Forall_delete].
Qed.

Lemma strictly_sorted_unique isBid (l1 l2 : list Level) :
  StronglySorted (strictly_before isBid) l1 →
  StronglySorted (strictly_before isBid) l2 →
  l1 ≡ₚ l2 → l1 = l2.
Proof.
  apply StronglySorted_unique_strong.
  intros x1 x2 _ _ H12 H21. exfalso.
  assert (Hxx : strictly_before isBid x1 x1) by (by etrans).
  apply strictly_before_ne in Hxx. done.
Qed.

(** The level of a strictly ordered side at a given price is unique. *)
Lemma findIndex_price (l : list Level) (x : Level) :
  Forall numeric_price l → NoDup (price <$> l) → x ∈ l →
  ∃ i, findIndex (λ y, (price y =? price x)%js) l = Some i ∧ l !! i = Some x.
Proof.
  intros Hn Hd Hx.
  destruct (findIndex (λ y, (price y =? price x)%js) l) as [i|] eqn:Hf.
  - exists i. split; [done|].
    apply findIndex_Some in Hf as (l1 & y & l2 & -> & <- & Hy & _).
    rewrite list_lookup_middle by done. f_equal.
    assert (numeric_price y) as Hny.
    { rewrite Forall_forall in Hn. apply Hn, elem_of_app. right. left. }
    apply (xeq_eq _ _ Hny) in Hy.
    apply (nodup_fmap_eq price (l1 ++ y :: l2)); [done| |done|done].
    apply elem_of_app. right. left.
  - apply findIndex_None in Hf. rewrite Forall_forall in Hf, Hn.
    specialize (Hf x Hx). cbn in Hf.
    apply (xeq_neq _ _ (Hn x Hx)) in Hf. done.
Qed.

(** X3.  Applying the same delta twice is the same as applying it once,
    whatever its size field: a delta of a numeric price on a side that is
    in strict order. *)
Theorem delta_idempotent (isBid : bool) (l : list Level) (p s : xnum) :
  is_number p → Forall numeric_price l → NoDup (price <$> l) →
  updateLevel (updateLevel l p s isBid) p s isBid = updateLevel l p s isBid.
Proof.
  intros Hp Hn Hd.
  assert (Hord : side_ordered isBid (updateLevel l p s isBid)).
  { rewrite updateLevel_updated. apply side_ordered_sort;
      [by apply updated_numeric|by apply updated_nodup]. }
  destruct Hord as [Hn' Hs'].
  pose proof Hs' as Hs''. apply strictly_sorted_iff in Hs'' as [_ Hd'].
  set (l' := updateLevel l p s isBid) in *.
  rewrite (updateLevel_updated l').
  assert (Hupd : updated l' p s = l'); [|by rewrite Hupd, side_sorted_id].
  unfold updated.
  destruct ((s =? zero)%js) eqn:Hz.
  - assert (Hnot : ¬ has_price p l').
    { subst l'. rewrite updateLevel_updated. unfold has_price.
      rewrite js_sort_perm. by apply updated_removed. }
    destruct (findIndex _ l') as [i|] eqn:Hf; [|done].
    exfalso. apply findIndex_Some in Hf as (l1 & y & l2 & Hl' & _ & Hy & _).
    assert (numeric_price y) as Hny.
    { rewrite Forall_forall in Hn'. apply Hn'. rewrite Hl'.
      apply elem_of_app. right. left. }
    apply (xeq_eq _ _ Hny) in Hy. apply Hnot. unfold has_price.
    rewrite Hl', fmap_app, fmap_cons, Hy. apply elem_of_app. right. left.
  - assert (Hin : {| price := p; size := s |} ∈ l').
    { subst l'. rewrite updateLevel_updated, js_sort_elem_of.
      by apply updated_present. }
    destruct (findIndex_price l' _ Hn' Hd' Hin) as (i & Hf & Hi).
    cbn [price] in Hf. rewrite Hf.
    apply list_eq. intros j. rewrite list_lookup_alter.
    destruct (decide (j = i)) as [->|Hne].
    + rewrite decide_True by done. rewrite Hi. reflexivity.
    + by rewrite decide_False.
Qed.

Lemma delta_idempotent_witness :
  updateLevel (updateLevel (bids book0) (decimal 45 2) (num_of_Z 7) true)
              (decimal 45 2) (num_of_Z 7) true
    = updateLevel (bids book0) (decimal 45 2) (num_of_Z 7) true.
Proof.
  apply (delta_idempotent true (bids book0) (decimal 45 2) (num_of_Z 7));
    apply (bool_decide_unpack _); vm_compute; exact I.
Defined.

(** X4.  A level inserted at a new price and then removed by a delta of
    size 0 leaves the side as it was: on a side in strict order, for a
    numeric price that the side does not hold and a size field other than
    0. *)
Theorem delta_insert_remove (isBid : bool) (l : list Level) (p s : xnum) :
  is_number p → Forall numeric_price l →
  StronglySorted (strictly_before isBid) l →
  ¬ has_price p l → (s =? zero)%js = false →
  updateLevel (updateLevel l p s isBid) p zero isBid = l.
Proof.
  intros Hp Hn Hs Hnot Hz.
  pose proof Hs as Hs0. apply strictly_sorted_iff in Hs0 as [_ Hd].
  assert (Hord : side_ordered isBid (updateLevel l p s isBid))
    by (by apply updateLevel_ordered).
  destruct Hord as [Hn' Hs'].
  pose proof Hs' as Hs''. apply strictly_sorted_iff in Hs'' as [_ Hd'].
  assert (Hperm : updateLevel l p s isBid ≡ₚ {| price := p; size := s |} :: l).
  { rewrite updateLevel_updated, js_sort_perm. unfold updated.
    destruct (findIndex _ l) as [i|] eqn:Hf.
    - exfalso. apply findIndex_Some in Hf as (l1 & y & l2 & Hl & _ & Hy & _).
      assert (numeric_price y) as Hny.
      { rewrite Forall_forall in Hn. apply Hn. rewrite Hl.
        apply elem_of_app. right. left. }
      apply (xeq_eq _ _ Hny) in Hy. apply Hnot. unfold has_price.
      rewrite Hl, fmap_app, fmap_cons, Hy. apply elem_of_app. right. left.
    - rewrite Hz. by rewrite Permutation_app_comm. }
  set (l' := updateLevel l p s isBid) in *.
  assert (Hin : {| price := p; size := s |} ∈ l') by (rewrite Hperm; left).
  destruct (findIndex_price l' _ Hn' Hd' Hin) as (i & Hf & Hi).
  cbn [price] in Hf.
  rewrite (updateLevel_updated l'). unfold updated. rewrite Hf.
  assert ((zero =? zero)%js = true) as -> by done.
  assert (Hdel : delete i l' ≡ₚ l).
  { apply (inj (cons {| price := p; size := s |})).
    by rewrite <- (delete_Permutation _ _ _ Hi). }
  assert (Hsd : StronglySorted (strictly_before isBid) (delete i l')).
  { by apply StronglySorted_delete. }
  rewrite side_sorted_id by done.
  by apply (strictly_sorted_unique isBid).
Qed.

Lemma delta_insert_remove_witness :
  updateLevel (updateLevel (bids book0) (decimal 45 2) (num_of_Z 7) true)
              (decimal 45 2) zero true
    = bids book0.
Proof.
  apply (delta_insert_remove true (bids book0) (decimal 45 2) (num_of_Z 7));
    apply (bool_decide_unpack _); vm_compute; exact I.
Defined.

(** ** The ledger and its marks *)

Global Instance is_finite_dec x : Decision (is_finite x).
Proof. destruct x; [left; by eexists|right; by intros [? ?]..]. Defined.

(** *** Marks of instruments that are not held, and [clear] *)

Section Marks.
Context {F : Type} `{JSNumber F}.
Local Open Scope js_scope.

Lemma value_of_other_mark k p (t : PortfolioTracker F) :
  Map_get k (positions t) = None →
  value_of (set_currentPrice k p t) = value_of t.
Proof.
  intros Hget. apply Map_get_None in Hget.
  unfold value_of, recalculateValue. cbn [currentValue].
  unfold position_at. cbn [objects positions currentPrices set_currentPrice].
  assert (Hfold : ∀ (m : list (string * nat)) (acc : F), k ∉ fst <$> m →
    foldl (λ acc e, acc + or_default (<[ k := p ]> (currentPrices t) !! e.1) zero
                          * shares (objects t !!! e.2)) acc m
    = foldl (λ acc e, acc + or_default (currentPrices t !! e.1) zero
                            * shares (objects t !!! e.2)) acc m).
  { intros m. induction m as [|[k' r] m IH]; intros acc Hk; [done|].
    cbn [foldl fst snd]. rewrite fmap_cons, not_elem_of_cons in Hk.
    destruct Hk as [Hk Hm]. cbn [fst] in Hk.
    rewrite lookup_insert_ne by done. by apply IH. }
  by apply Hfold.
Qed.

(** X8.  [clear] empties the ledger: the snapshot taken after it has no
    position and zero aggregates.  It does not forget the mark prices: a
    position bought afterwards is valued at once at the mark stored for
    its token before the call. *)
Theorem clear_keeps_marks (t : PortfolioTracker F)
    (k o : string) (p s : F) (ts now : Z) :
  getSnapshot now (clear t)
    = {| snap_positions := []; snap_totalCost := zero;
         snap_currentValue := zero; snap_unrealizedPnL := zero;
         snap_realizedPnL := zero; snap_timestamp := now |}
  ∧ currentPrices (clear t) = currentPrices t
  ∧ getPosition k (clear t) = None
  ∧ currentValue (addTrade k o BUY p s ts (clear t))
      = zero + or_default (currentPrices t !! k) zero * s.
Proof.
  split; [done|]. split; [done|]. split; [done|].
  unfold addTrade, postTrade, recalculateValue, clear, position_at. cbn.
  by rewrite lookup_total_insert_eq.
Qed.
End Marks.

(** X7.  On a ledger reached by calls, a mark price set for a token of
    which no position is held changes nothing in the snapshot: positions,
    cost, value and both profits are as before.  This is what every feed
    update does to the ledger before the first fill. *)
Theorem mark_of_token_not_held (ops : list (LedgerOp (F:=xnum)))
    (k : string) (p : xnum) (book : OrderBook xnum) (now : Z) :
  let t := ledger_after ops in
  getPosition k t = None →
  getSnapshot now (setPrice k p t) = getSnapshot now t
  ∧ getSnapshot now (updatePrices k book t) = getSnapshot now t.
Proof.
  intros t Hget. unfold getPosition in Hget.
  destruct (up_to_date_ledger_after ops) as [Hcv Hun]. fold t in Hcv, Hun.
  assert (Hset : ∀ q, getSnapshot now (recalculateValue (set_currentPrice k q t))
                      = getSnapshot now t).
  { intros q. unfold getSnapshot.
    change (currentValue (recalculateValue (set_currentPrice k q t)))
      with (value_of (set_currentPrice k q t)).
    change (unrealizedPnL (recalculateValue (set_currentPrice k q t)))
      with (value_of (set_currentPrice k q t) - totalCost t)%js.
    rewrite (value_of_other_mark _ _ _ Hget), <- Hcv, <- Hun. done. }
  split; apply Hset.
Qed.

Lemma mark_of_token_not_held_witness :
  getSnapshot 9 (setPrice "other" (decimal 70 2) (ledger_after [buy 30 2 2 1]))
    = getSnapshot 9 (ledger_after [buy 30 2 2 1]).
Proof.
  destruct (mark_of_token_not_held [buy 30 2 2 1] "other" (decimal 70 2)
              {| bids := []; asks := []; lastUpdate := zero |} 9) as [Hset _].
  - vm_compute. reflexivity.
  - exact Hset.
Defined.

(** ** The simulator *)

Section SimulatorFacts.
Context {F : Type} `{JSNumber F} {S : Type} `{!BaseStrategy F S}.

(** What [executeTrade], [evaluate_at] and [evaluateStrategies] leave
    alone: the context, the book, the timer and its period. *)
Definition same_market (sim sim' : StrategySimulator F S) : Prop :=
  currentContext sim' = currentContext sim
  ∧ currentOrderBook sim' = currentOrderBook sim
  ∧ evaluationInterval sim' = evaluationInterval sim
  ∧ evaluationIntervalMs sim' = evaluationIntervalMs sim.

Lemma same_market_refl sim : same_market sim sim.
Proof. done. Qed.

Lemma same_market_trans sim1 sim2 sim3 :
  same_market sim1 sim2 → same_market sim2 sim3 → same_market sim1 sim3.
Proof.
  intros (?&?&?&?) (?&?&?&?). repeat split; by etrans.
Qed.

Lemma same_market_executeTrade name tr now (sim : StrategySimulator F S) :
  same_market sim (executeTrade name tr now sim).
Proof.
  unfold executeTrade, same_market.
  destruct (currentContext sim) eqn:E; cbn; rewrite ?E; done.
Qed.

Lemma same_market_evaluate_at now (sim : StrategySimulator F S) i :
  same_market sim (evaluate_at now sim i).
Proof.
  unfold evaluate_at.
  destruct (currentContext sim) as [ctx|] eqn:Hctx; [|done].
  destruct (strategies sim !! i) as [s|]; [|done].
  destruct (isEnabled s); [|done]. cbn [negb].
  destruct (evaluate ctx now s) as [s' [r|]]; [|done].
  destruct (shouldExecute r), (trade r); try done.
  eapply same_market_trans; [|apply same_market_executeTrade]. done.
Qed.

Lemma same_market_evaluateStrategies now (sim : StrategySimulator F S) :
  same_market sim (evaluateStrategies now sim).
Proof.
  unfold evaluateStrategies. destruct (currentContext sim); [|done].
  generalize (seq 0 (length (strategies sim))). intros l.
  assert (∀ sim0, same_market sim sim0 →
                  same_market sim (foldl (evaluate_at now) sim0 l)) as Hl.
  { induction l as [|i l IH]; intros sim0 H0; [done|]. cbn [foldl].
    apply IH. eapply same_market_trans; [done|apply same_market_evaluate_at]. }
  by apply Hl.
Qed.

Definition bounded (sim : StrategySimulator F S) : Prop :=
  (length (simulatedTrades sim) ≤ 1000)%nat.

Lemma bounded_executeTrade name tr now (sim : StrategySimulator F S) :
  bounded sim → bounded (executeTrade name tr now sim).
Proof.
  unfold bounded, executeTrade. destruct (currentContext sim); [|done].
  intros _. cbn [simulatedTrades]. rewrite length_take. lia.
Qed.

Lemma bounded_evaluate_at now (sim : StrategySimulator F S) i :
  bounded sim → bounded (evaluate_at now sim i).
Proof.
  intros Hb. unfold evaluate_at.
  destruct (currentContext sim) as [ctx|]; [|done].
  destruct (strategies sim !! i) as [s|]; [|done].
  destruct (isEnabled s); [|done]. cbn [negb].
  destruct (evaluate ctx now s) as [s' [r|]]; [|done].
  destruct (shouldExecute r), (trade r); try done.
  by apply bounded_executeTrade.
Qed.

Lemma bounded_evaluateStrategies now (sim : StrategySimulator F S) :
  bounded sim → bounded (evaluateStrategies now sim).
Proof.
  unfold evaluateStrategies. destruct (currentContext sim); [|done].
  generalize (seq 0 (length (strategies sim))). intros l. revert sim.
  induction l as [|i l IH]; intros sim Hb; [done|]. cbn [foldl].
  by apply IH, bounded_evaluate_at.
Qed.

Lemma simulatedTrades_feedCallback u now (app : App F S) :
  simulatedTrades (simulator (feedCallback u now app))
    = simulatedTrades (simulator app).
Proof. unfold feedCallback. by case_match. Qed.

(** An event of the connection: the client handles it, and the feed
    callback runs on each of the updates it publishes. *)
Definition with_client (app : App F S) (c : Client F) : App F S :=
  {| wsClient := c;
     simulator := simulator app;
     initialContextCreated := initialContextCreated app;
     app_marketName := app_marketName app;
     app_outcome := app_outcome app |}.

Definition is_tick (ev : Event) : bool :=
  match ev with EvTick _ => true | _ => false end.

Lemma step_feed (app : App F S) ev :
  is_tick ev = false →
  step app ev =
    foldl (λ a u, feedCallback u (event_time ev) a)
          (with_client app (client_event ev (wsClient app)).1)
          (client_event ev (wsClient app)).2.
Proof.
  destruct ev; try done; intros _; cbn [step];
    by destruct (client_event _ _).
Qed.

Lemma step_tick (app : App F S) now :
  step app (EvTick now) =
    match evaluationInterval (simulator app) with
    | Some _ =>
        {| wsClient := wsClient app;
           simulator := evaluateStrategies now (simulator app);
           initialContextCreated := initialContextCreated app;
           app_marketName := app_marketName app;
           app_outcome := app_outcome app |}
    | None => app
    end.
Proof. reflexivity. Qed.

Lemma foldl_preserves {A B} (P : A → Prop) (f : A → B → A) (l : list B) (a : A) :
  (∀ a b, P a → P (f a b)) → P a → P (foldl f a l).
Proof.
  intros Hf. revert a. induction l as [|b l IH]; intros a Ha; [done|].
  cbn [foldl]. by apply IH, Hf.
Qed.

Lemma bounded_step (app : App F S) ev :
  bounded (simulator app) → bounded (simulator (step app ev)).
Proof.
  intros Hb. destruct (is_tick ev) eqn:Hev.
  - destruct ev; try done. rewrite step_tick.
    destruct (evaluationInterval (simulator app)); [|done].
    by apply bounded_evaluateStrategies.
  - rewrite (step_feed _ _ Hev).
    apply (foldl_preserves (λ a, bounded (simulator a))); [|done].
    intros a u Ha. unfold bounded. by rewrite simulatedTrades_feedCallback.
Qed.

(** X9.  Whatever the feed and the clock do, the simulator keeps at most
    1000 simulated trades: after every sequence of connection events,
    frames and ticks of the application. *)
Theorem simulated_trades_bounded
    (tok marketName outcome : string) (strats : list S) (evs : list Event) :
  (length (simulatedTrades
             (simulator (foldl step (newApp tok marketName outcome strats) evs)))
     ≤ 1000)%nat.
Proof.
  assert (H0 : bounded (simulator (newApp tok marketName outcome strats))).
  { destruct (newApp_not_started tok marketName outcome strats)
      as (_ & _ & _ & _ & Htr & _).
    unfold bounded. rewrite Htr. cbn. lia. }
  revert H0. generalize (newApp tok marketName outcome strats).
  induction evs as [|ev evs IH]; intros app Hb; [done|]. cbn [foldl].
  by apply IH, bounded_step.
Qed.

(** *** The simulator is started once *)











(** *** Strategies that are not enabled *)

Lemma foldl_fixed {A B} (f : A → B → A) (a : A) (l : list B) :
  (∀ b, f a b = a) → foldl f a l = a.
Proof. intros Hf. induction l as [|b l IH]; [done|]. cbn. by rewrite Hf. Qed.

(** X11.  Strategies that are not enabled are never initialized and
    never evaluated: when no strategy of the simulator is enabled,
    [start] leaves the strategies as they are and an evaluation tick
    changes nothing, with or without a context. *)
Theorem disabled_never_run (sim : StrategySimulator F S)
    (context : StrategyContext F) (t0 now : Z) :
  Forall (λ s, isEnabled s = false) (strategies sim) →
  strategies (start context t0 sim) = strategies sim
  ∧ evaluateStrategies now sim = sim
  ∧ evaluateStrategies now (start context t0 sim) = start context t0 sim.
Proof.
  intros Hdis.
  assert (Hstart : strategies (start context t0 sim) = strategies sim).
  { cbn [start strategies]. rewrite <- (list_fmap_id (strategies sim)) at 2.
    apply Forall_fmap_ext_1. eapply Forall_impl; [exact Hdis|].
    by intros s ->. }
  assert (Heval : ∀ sim0 : StrategySimulator F S,
            Forall (λ s, isEnabled s = false) (strategies sim0) →
            evaluateStrategies now sim0 = sim0).
  { intros sim0 H0. unfold evaluateStrategies.
    destruct (currentContext sim0) as [ctx|] eqn:Hctx; [|done].
    apply foldl_fixed. intros i. unfold evaluate_at. rewrite Hctx.
    destruct (strategies sim0 !! i) as [s|] eqn:Hs; [|done].
    rewrite Forall_forall in H0.
    rewrite (H0 s) by (by eapply list_elem_of_lookup_2). done. }
  split; [done|]. split; [by apply Heval|].
  apply Heval. by rewrite Hstart.
Qed.

(** *** Adding and removing strategies *)

(** X12.  [removeStrategy] removes every strategy of the given name and
    keeps the others in their order; removing a strategy just added,
    under a name that no other strategy bears, gives the simulator
    back. *)
Theorem removeStrategy_removes (sim : StrategySimulator F S)
    (strategy : S) (name : string) :
  Forall (λ s, getName s ≠ name) (strategies (removeStrategy name sim))
  ∧ sublist (strategies (removeStrategy name sim)) (strategies sim)
  ∧ (∀ s, getName s ≠ name →
          s ∈ strategies (removeStrategy name sim) ↔ s ∈ strategies sim)
  ∧ (Forall (λ s, getName s ≠ getName strategy) (strategies sim) →
     removeStrategy (getName strategy) (addStrategy strategy sim) = sim).
Proof.
  split; [|split; [|split]].
  - cbn [removeStrategy set_strategies strategies].
    apply Forall_forall. intros s Hs. by apply list_elem_of_filter in Hs as [? _].
  - cbn [removeStrategy set_strategies strategies]. apply sublist_filter.
  - intros s Hs. cbn [removeStrategy set_strategies strategies].
    rewrite list_elem_of_filter. split; [by intros [_ ?]|by intros ?].
  - intros Hfresh. destruct sim as [strats pf tr ei eim cc cb]. cbn in *.
    unfold removeStrategy, addStrategy, set_strategies. cbn. f_equal.
    rewrite filter_app, filter_cons_False, filter_nil, app_nil_r by (by intros ?).
    induction Hfresh as [|s l Hs _ IH]; [done|].
    by rewrite filter_cons_True, IH.
Qed.

(** *** A sale that the ledger refuses *)

(** X21.  [executeTrade] does not look at what the ledger did with the
    fill.  A SELL intent for a token of which the ledger holds no
    position, or fewer shares than the intent sells, is still recorded as
    a simulated trade of that size, while the ledger books nothing: its
    positions, their objects, its cost and its realized profit stay as
    they were. *)
Theorem refused_sale_is_recorded (sim : StrategySimulator F S)
    (context : StrategyContext F) (strategyName : string)
    (intent : TradeIntent F) (now : Z) :
  let tok := default (ctx_tokenId context) (truthy_string (ti_tokenId intent)) in
  let sim' := executeTrade strategyName intent now sim in
  currentContext sim = Some context →
  ti_side intent = SELL →
  match getPosition tok (portfolio sim) with
  | Some r => nle (ti_size intent) (shares (position_at (portfolio sim) r)) = false
  | None => True
  end →
  portfolio sim' = recalculateValue (portfolio sim)
  ∧ positions (portfolio sim') = positions (portfolio sim)
  ∧ objects (portfolio sim') = objects (portfolio sim)
  ∧ totalCost (portfolio sim') = totalCost (portfolio sim)
  ∧ realizedPnL (portfolio sim') = realizedPnL (portfolio sim)
  ∧ ∃ tr, simulatedTrades sim' = take 1000 (tr :: simulatedTrades sim)
          ∧ st_side tr = SELL ∧ st_size tr = ti_size intent
          ∧ st_tokenId tr = tok ∧ st_timestamp tr = now
          ∧ st_strategyName tr = strategyName.
Proof.
  intros tok sim' Hctx Hside Hheld. subst sim'. unfold executeTrade.
  rewrite Hctx. cbn [portfolio simulatedTrades]. fold tok. rewrite Hside.
  rewrite (addTrade_sell_rejected tok _ _ _ _ _ Hheld).
  repeat split; try done. eexists. split; [reflexivity|]. done.
Qed.
End SimulatorFacts.

(** A simulator whose only strategy is switched off. *)
Definition disabledConfig : PollBuyStrategyConfig xnum :=
  {| cfg_name := "PollBuy"; cfg_enabled := false;
     intervalSeconds := Some (num_of_Z 15); buySize := Some (num_of_Z 1);
     cfg_targetTokenId := Some "tok"; targetOutcome := Some "Yes" |}.

Definition idle_simulator : StrategySimulator xnum (PollBuyStrategy xnum) :=
  addStrategy (newPollBuy disabledConfig) (newSimulator None).

Lemma disabled_never_run_witness :
  strategies (start context0 1000000 idle_simulator) = [newPollBuy disabledConfig]
  ∧ evaluateStrategies 2000000 (start context0 1000000 idle_simulator)
      = start context0 1000000 idle_simulator.
Proof.
  destruct (disabled_never_run idle_simulator context0 1000000 2000000)
    as (Hs & _ & He).
  - repeat constructor.
  - split; [exact Hs|exact He].
Defined.

(** A SELL of 3 shares on a ledger that holds none, in the simulator of
    [main] before any fill. *)
Lemma refused_sale_is_recorded_witness :
  let sim := start context0 1000000
               (addStrategy (newPollBuy pollBuyConfig)
                            (newSimulator (F:=xnum) None)) in
  let sim' := executeTrade "PollBuy"
                {| ti_side := SELL; ti_size := num_of_Z 3;
                   ti_price := Some (decimal 50 2); ti_tokenId := None |}
                1002000 sim in
  length (simulatedTrades sim') = 1%nat
  ∧ positions (portfolio sim') = []
  ∧ realizedPnL (portfolio sim') = zero.
Proof.
  intros sim sim'.
  destruct (refused_sale_is_recorded sim context0 "PollBuy"
              {| ti_side := SELL; ti_size := num_of_Z 3;
                 ti_price := Some (decimal 50 2); ti_tokenId := None |}
              1002000 eq_refl eq_refl I)
    as (_ & Hpos & _ & _ & Hre & tr & Htr & _).
  fold sim' in Hpos, Hre, Htr.
  split; [by rewrite Htr|]. split; [exact Hpos|exact Hre].
Defined.

(** ** The PollBuy strategy *)

(** [getExecutionCount()]. *)
Definition getExecutionCount {F} (s : PollBuyStrategy F) : Z := executionCount s.

Lemma Qc_of_Z_mult (a b : Z) : (Qc_of_Z a * Qc_of_Z b)%Qc = Qc_of_Z (a * b).
Proof.
  apply Qc_is_canon. unfold Qc_of_Z, Qcmult, Q2Qc. cbn [this].
  rewrite !Qred_correct. by rewrite inject_Z_mult.
Qed.

Lemma Qc_of_Z_inj (a b : Z) : Qc_of_Z a = Qc_of_Z b → a = b.
Proof.
  intros E. apply Z.le_antisymm; apply Qc_of_Z_le; rewrite E; apply Qcle_refl.
Qed.

(** The elapsed time against a whole number of milliseconds. *)
Lemma elapsed_ms (now last d : Z) :
  (num_of_Z now - num_of_Z last >=? (num_of_Z d : xnum))%js
    = bool_decide (d ≤ now - last).
Proof.
  cbn. rewrite Qc_of_Z_minus. apply bool_decide_ext. apply Qc_of_Z_le.
Qed.

(** [x || d] for the values that JavaScript takes as false. *)
Definition falsy (x : option xnum) : Prop :=
  x = None ∨ x = Some (num_of_Z 0) ∨ x = Some NaN.

Lemma or_default_falsy (x : option xnum) (d : xnum) : falsy x → or_default x d = d.
Proof. by intros [->|[->| ->]]. Qed.

Lemma or_default_whole (n : Z) (d : xnum) :
  n ≠ 0 → or_default (Some (num_of_Z n)) d = num_of_Z n.
Proof.
  intros Hn. cbn. unfold or_else, truthy. cbn.
  rewrite bool_decide_eq_false_2.
  - cbn. destruct (is_nan (Fin (Qc_of_Z n))) eqn:E; [|done].
    by apply is_nan_xnum in E.
  - intros E. by apply Qc_of_Z_inj in E.
Qed.

(** The interval of a configuration is [d] milliseconds: it names a
    whole number of seconds other than 0, or it names 0, [NaN] or
    nothing, which the code takes as 15 seconds. *)
Definition interval_ms (cfg : PollBuyStrategyConfig xnum) (d : Z) : Prop :=
  (falsy (intervalSeconds cfg) ∧ d = 15000)
  ∨ ∃ n, intervalSeconds cfg = Some (num_of_Z n) ∧ n ≠ 0 ∧ d = 1000 * n.

Lemma interval_ms_code cfg d :
  interval_ms cfg d →
  (or_default (intervalSeconds cfg) (num_of_Z 15) * num_of_Z 1000)%js
    = (num_of_Z d : xnum).
Proof.
  intros [[Hf ->]|(n & -> & Hn & ->)].
  - rewrite (or_default_falsy _ _ Hf). cbn. f_equal. apply Qc_of_Z_mult.
  - rewrite (or_default_whole _ _ Hn). cbn. f_equal.
    rewrite Qc_of_Z_mult. f_equal. lia.
Qed.

(** The strategy after a fire at [now]. *)
Definition fired_at (now : Z) (s : PollBuyStrategy xnum) : PollBuyStrategy xnum :=
  {| config := config s;
     lastExecutionTime := now;
     executionCount := executionCount s + 1;
     targetTokenId := targetTokenId s |}.

Definition buy_intent (s : PollBuyStrategy xnum) : TradeIntent xnum :=
  {| ti_side := BUY;
     ti_size := or_default (buySize (config s)) one;
     ti_price := None;
     ti_tokenId := truthy_string (targetTokenId s) |}.

Lemma PollBuy_evaluate_enabled ctx now (s : PollBuyStrategy xnum) d :
  cfg_enabled (config s) = true → interval_ms (config s) d →
  PollBuy_evaluate ctx now s =
    if bool_decide (d ≤ now - lastExecutionTime s)
    then (fired_at now s,
          Some {| shouldExecute := true; trade := Some (buy_intent s) |})
    else (s, Some {| shouldExecute := false; trade := None |}).
Proof.
  intros Hen Hd. unfold PollBuy_evaluate. rewrite Hen. cbn [negb].
  rewrite (interval_ms_code _ _ Hd), elapsed_ms. done.
Qed.

(** X13.  An interval of 0 seconds does not mean a fire at every
    evaluation: an enabled PollBuy strategy whose [intervalSeconds] is
    0, [NaN] or missing fires exactly when 15000 ms have elapsed since
    [lastExecutionTime]; one whose [intervalSeconds] is a whole number
    [n] other than 0 fires exactly when [1000 * n] ms have elapsed (at
    every evaluation whose clock has not gone back by more than that,
    for a negative [n]).  A [buySize] of 0, [NaN] or missing buys 1
    share. *)
Theorem pollbuy_zero_is_default
    (context : StrategyContext xnum) (s : PollBuyStrategy xnum) (now : Z) :
  let result := (PollBuy_evaluate context now s).2 in
  cfg_enabled (config s) = true →
  (falsy (intervalSeconds (config s)) →
     shouldExecute <$> result = Some true ↔ 15000 ≤ now - lastExecutionTime s)
  ∧ (∀ n, intervalSeconds (config s) = Some (num_of_Z n) → n ≠ 0 →
       shouldExecute <$> result = Some true ↔ 1000 * n ≤ now - lastExecutionTime s)
  ∧ (falsy (buySize (config s)) →
     ∀ r tr, result = Some r → trade r = Some tr → ti_size tr = one).
Proof.
  intros result Hen. subst result.
  assert (Hfire : ∀ d, interval_ms (config s) d →
            shouldExecute <$> (PollBuy_evaluate context now s).2 = Some true
            ↔ d ≤ now - lastExecutionTime s).
  { intros d Hd. rewrite (PollBuy_evaluate_enabled _ _ _ d Hen Hd).
    case_bool_decide; cbn; split; try done; intros; lia. }
  split; [|split].
  - intros Hf. apply Hfire. left. done.
  - intros n Hn Hne. apply Hfire. right. by exists n.
  - intros Hf r tr. unfold PollBuy_evaluate. rewrite Hen. cbn [negb].
    case_match; cbn; intros [= <-]; cbn; [|done].
    intros [= <-]. cbn. by apply or_default_falsy.
Qed.

(** A strategy configured with an interval and a size of 0. *)
Definition zeroConfig : PollBuyStrategyConfig xnum :=
  {| cfg_name := "PollBuy"; cfg_enabled := true;
     intervalSeconds := Some (num_of_Z 0); buySize := Some (num_of_Z 0);
     cfg_targetTokenId := Some "tok"; targetOutcome := Some "Yes" |}.

Lemma pollbuy_zero_is_default_witness :
  let s := PollBuy_initialize context0 1000000 (newPollBuy zeroConfig) in
  (shouldExecute <$> (PollBuy_evaluate context0 1001000 s).2 = Some true
     ↔ 15000 ≤ 1001000 - lastExecutionTime s)
  ∧ (PollBuy_evaluate context0 1001000 s).2
      = Some {| shouldExecute := false; trade := None |}.
Proof.
  intros s.
  destruct (pollbuy_zero_is_default context0 s 1001000 eq_refl) as (H0 & _ & _).
  split; [|reflexivity].
  apply H0. right. left. reflexivity.
Defined.

(** *** The fires over a sequence of evaluations *)

(** The evaluation times at which [d] milliseconds have elapsed since
    the previous such time, [prev] at the start. *)
Fixpoint due (d : Z) (prev : Z) (times : list Z) : list Z :=
  match times with
  | [] => []
  | now :: rest =>
      if bool_decide (d ≤ now - prev) then now :: due d now rest
      else due d prev rest
  end.

(** Consecutive times at least [d] apart, the first one from [prev]. *)
Fixpoint spaced (d : Z) (prev : Z) (l : list Z) : Prop :=
  match l with
  | [] => True
  | t :: l' => d ≤ t - prev ∧ spaced d t l'
  end.

Lemma due_spaced d prev times : spaced d prev (due d prev times).
Proof.
  revert prev. induction times as [|now rest IH]; intros prev; cbn; [done|].
  case_bool_decide; [|apply IH]. cbn. split; [done|apply IH].
Qed.

Lemma due_sublist d prev times : sublist (due d prev times) times.
Proof.
  revert prev. induction times as [|now rest IH]; intros prev; cbn; [done|].
  case_bool_decide.
  - by apply sublist_skip.
  - by apply sublist_cons.
Qed.

Lemma last_cons {A} (a x : A) (l : list A) :
  List.last (a :: l) x = List.last l a.
Proof.
  revert a x. induction l as [|b l IH]; intros a x; [done|].
  change (List.last (a :: b :: l) x) with (List.last (b :: l) x).
  by rewrite !IH.
Qed.

(** The evaluations of one strategy at the given times: the times of its
    fires, and the strategy afterwards. *)
Fixpoint PollBuy_run (context : StrategyContext xnum) (times : list Z)
    (s : PollBuyStrategy xnum) : list Z * PollBuyStrategy xnum :=
  match times with
  | [] => ([], s)
  | now :: rest =>
      let '(s', result) := PollBuy_evaluate context now s in
      let '(fires, s'') := PollBuy_run context rest s' in
      (match result with
       | Some r => if shouldExecute r then now :: fires else fires
       | None => fires
       end, s'')
  end.

(** X14.  Over any sequence of evaluations, whatever the clock does, an
    enabled PollBuy strategy fires at exactly the evaluations at which
    its interval has elapsed since its previous fire (since
    [lastExecutionTime] for the first): two consecutive fires are never
    closer than the interval, [getExecutionCount] grows by the number of
    fires, and [lastExecutionTime] is the time of the last fire. *)
Theorem pollbuy_fires_spaced
    (context : StrategyContext xnum) (s : PollBuyStrategy xnum)
    (d : Z) (times : list Z) :
  cfg_enabled (config s) = true → interval_ms (config s) d →
  let fires := (PollBuy_run context times s).1 in
  let s' := (PollBuy_run context times s).2 in
  fires = due d (lastExecutionTime s) times
  ∧ spaced d (lastExecutionTime s) fires
  ∧ sublist fires times
  ∧ getExecutionCount s' = getExecutionCount s + Z.of_nat (length fires)
  ∧ lastExecutionTime s' = List.last fires (lastExecutionTime s)
  ∧ config s' = config s.
Proof.
  intros Hen Hd fires s'.
  assert (Hrun : fires = due d (lastExecutionTime s) times
                 ∧ getExecutionCount s' = getExecutionCount s + Z.of_nat (length fires)
                 ∧ lastExecutionTime s' = List.last fires (lastExecutionTime s)
                 ∧ config s' = config s).
  { subst fires s'. revert s Hen Hd.
    induction times as [|now rest IH]; intros s Hen Hd.
    - cbn. repeat split; lia.
    - cbn [PollBuy_run due]. rewrite (PollBuy_evaluate_enabled _ _ _ d Hen Hd).
      case_bool_decide.
      + specialize (IH (fired_at now s) Hen Hd).
        destruct (PollBuy_run context rest (fired_at now s)) as [fs s''].
        cbn [fst snd shouldExecute] in *.
        destruct IH as (-> & Hc & Hl & Hcfg).
        repeat split; try done.
        * rewrite Hc. unfold getExecutionCount. cbn [fired_at executionCount length].
          lia.
        * rewrite Hl. cbn [fired_at lastExecutionTime]. by rewrite last_cons.
      + specialize (IH s Hen Hd).
        destruct (PollBuy_run context rest s) as [fs s''].
        cbn [fst snd shouldExecute] in *. done. }
  destruct Hrun as (Hf & Hc & Hl & Hcfg).
  repeat split; try done; rewrite Hf.
  - apply due_spaced.
  - apply due_sublist.
Qed.

Lemma pollbuy_fires_spaced_witness :
  (PollBuy_run context0
     [1001000; 1015000; 1016000; 1029999; 1030000; 1020000; 1046000] pollBuy0).1
    = [1015000; 1030000; 1046000]
  ∧ getExecutionCount
      (PollBuy_run context0
         [1001000; 1015000; 1016000; 1029999; 1030000; 1020000; 1046000] pollBuy0).2
    = 3.
Proof.
  destruct (pollbuy_fires_spaced context0 pollBuy0 15000
              [1001000; 1015000; 1016000; 1029999; 1030000; 1020000; 1046000])
    as (Hf & _ & _ & Hc & _).
  - reflexivity.
  - right. exists 15. split; [reflexivity|]. split; lia.
  - split; [exact Hf|exact Hc].
Defined.

(** *** PollBuy in the simulator *)

Section PollBuyTicks.
Local Abbreviation Sim := (StrategySimulator xnum (PollBuyStrategy xnum)).

(** What every trade of the strategy [s] looks like. *)
Definition pollbuy_trade (s : PollBuyStrategy xnum) (tokenId : string)
    (tr : SimulatedTrade xnum) : Prop :=
  st_side tr = BUY
  ∧ st_size tr = or_default (buySize (config s)) one
  ∧ st_strategyName tr = cfg_name (config s)
  ∧ st_tokenId tr = default tokenId (truthy_string (targetTokenId s))
  ∧ st_notional tr = (st_price tr * st_size tr)%js.

Lemma truthy_string_idemp s : truthy_string (truthy_string s) = truthy_string s.
Proof.
  destruct s as [s|]; [|done]. cbn. destruct (decide (s = "")); [done|].
  cbn. by rewrite decide_False.
Qed.

Lemma set_strategies_same (sim : Sim) :
  set_strategies (strategies sim) sim = sim.
Proof. by destruct sim. Qed.

(** One tick of a simulator that runs one PollBuy strategy. *)
Lemma tick_pollbuy (sim : Sim) s ctx d now :
  strategies sim = [s] → currentContext sim = Some ctx →
  cfg_enabled (config s) = true → interval_ms (config s) d →
  let sim' := evaluateStrategies now sim in
  currentContext sim' = Some ctx
  ∧ if bool_decide (d ≤ now - lastExecutionTime s) then
      strategies sim' = [fired_at now s]
      ∧ ∃ tr, simulatedTrades sim' = take 1000 (tr :: simulatedTrades sim)
              ∧ st_timestamp tr = now
              ∧ pollbuy_trade s (ctx_tokenId ctx) tr
    else sim' = sim.
Proof.
  intros Hs Hctx Hen Hd sim'. subst sim'.
  split.
  { destruct (same_market_evaluateStrategies now sim) as [-> _]. done. }
  unfold evaluateStrategies. rewrite Hctx, Hs.
  cbn [length seq foldl]. unfold evaluate_at. rewrite Hctx, Hs.
  cbn [lookup list_lookup isEnabled PollBuy_strategy evaluate].
  rewrite Hen. cbn [negb].
  rewrite (PollBuy_evaluate_enabled _ _ _ d Hen Hd).
  case_bool_decide.
  - cbn [shouldExecute trade insert list_insert].
    unfold executeTrade. cbn [set_strategies currentContext]. rewrite Hctx.
    cbn [strategies simulatedTrades getName PollBuy_strategy fired_at config].
    split.
    + unfold set_strategies. cbn [strategies notify_strategy].
      destruct (decide _); reflexivity.
    + eexists. split; [reflexivity|]. split; [done|].
      unfold pollbuy_trade. cbn. by rewrite truthy_string_idemp.
  - cbn [insert list_insert]. rewrite <- Hs. apply set_strategies_same.
Qed.

(** X15.  A simulator that runs one enabled PollBuy strategy, ticked at
    any times: it executes one trade at each tick at which the interval
    has elapsed since the previous fire, and at no other; the trades
    are kept latest first, 1000 at most; each is a BUY of the configured
    size, under the name of the strategy, on its target token (the
    token of the context when the strategy has none), valued at price
    times size. *)
Theorem pollbuy_trades_when_due (sim : Sim) (s : PollBuyStrategy xnum)
    (ctx : StrategyContext xnum) (d : Z) (times : list Z) :
  strategies sim = [s] → currentContext sim = Some ctx →
  cfg_enabled (config s) = true → interval_ms (config s) d →
  (length (simulatedTrades sim) ≤ 1000)%nat →
  Forall (pollbuy_trade s (ctx_tokenId ctx)) (simulatedTrades sim) →
  let sim' := foldl (λ sim0 now, evaluateStrategies now sim0) sim times in
  let fires := due d (lastExecutionTime s) times in
  st_timestamp <$> simulatedTrades sim'
    = take 1000 (reverse fires ++ (st_timestamp <$> simulatedTrades sim))
  ∧ Forall (pollbuy_trade s (ctx_tokenId ctx)) (simulatedTrades sim')
  ∧ strategies sim'
      = [ {| config := config s;
             lastExecutionTime := List.last fires (lastExecutionTime s);
             executionCount := executionCount s + Z.of_nat (length fires);
             targetTokenId := targetTokenId s |} ].
Proof.
  intros Hs Hctx Hen Hd Hlen Hold. cbv zeta.
  revert sim s Hs Hctx Hen Hd Hlen Hold.
  induction times as [|now rest IH]; intros sim s Hs Hctx Hen Hd Hlen Hold.
  - cbn [foldl due reverse app List.last length].
    split; [|split; [done|]].
    + rewrite reverse_nil, app_nil_l, take_ge; [done|].
      rewrite length_fmap. exact Hlen.
    + rewrite Hs, Z.add_0_r. by destruct s.
  - cbn [foldl due].
    destruct (tick_pollbuy sim s ctx d now Hs Hctx Hen Hd) as [Hctx1 Htick].
    cbv zeta in Hctx1, Htick.
    case_bool_decide as Hdue.
    + destruct Htick as (Hs1 & tr & Htr & Hnow & Hp).
      specialize (IH (evaluateStrategies now sim) (fired_at now s) Hs1 Hctx1 Hen Hd).
      destruct IH as (Hts & Hall & Hstrat).
      { rewrite Htr, length_take. lia. }
      { rewrite Htr. apply Forall_take. by constructor. }
      split; [|split].
      * rewrite Hts, Htr, fmap_take, fmap_cons, Hnow, take_app_take.
        by rewrite reverse_cons, <- app_assoc.
      * exact Hall.
      * rewrite Hstrat. cbn [fired_at config lastExecutionTime executionCount
                               targetTokenId length].
        rewrite last_cons. do 2 f_equal. lia.
    + rewrite Htick. by apply IH.
Qed.
End PollBuyTicks.

(** The strategy of [main] in a simulator started at 1000000 on the book
    of [snapshot_message], ticked every second for 31 seconds. *)
Definition ticking_simulator : StrategySimulator xnum (PollBuyStrategy xnum) :=
  start context0 1000000
    (updateMarket "tok"
       (orderBook (handleBookMessage snapshot_message (newClient "tok")).1)
       1000000
       (addStrategy (newPollBuy pollBuyConfig) (newSimulator None))).

Definition seconds (t0 : Z) (n : nat) : list Z :=
  (λ k, t0 + 1000 * Z.of_nat k) <$> seq 1 n.

Lemma pollbuy_trades_when_due_witness :
  let sim' := foldl (λ sim0 now, evaluateStrategies now sim0)
                    ticking_simulator (seconds 1000000 31) in
  st_timestamp <$> simulatedTrades sim' = [1030000; 1015000]
  ∧ st_price <$> simulatedTrades sim' = [decimal 55 2; decimal 55 2]
  ∧ getExecutionCount <$> strategies sim' = [2].
Proof.
  intros sim'.
  destruct (pollbuy_trades_when_due ticking_simulator pollBuy0 context0 15000
              (seconds 1000000 31)) as (Hts & _ & Hstrat).
  - reflexivity.
  - reflexivity.
  - reflexivity.
  - right. exists 15. split; [reflexivity|]. split; lia.
  - cbn. lia.
  - constructor.
  - fold sim' in Hts, Hstrat. split; [exact Hts|]. split.
    + qc_compute.
    + rewrite Hstrat. reflexivity.
Defined.

(** ** [src/strategy/registry.ts] *)

(** [String.prototype.toLowerCase] on ASCII letters. *)
Definition lower (c : ascii) : ascii :=
  if (65 <=? code c)%Z && (code c <=? 90)%Z
  then ascii_of_nat (nat_of_ascii c + 32) else c.

Fixpoint toLowerCase (s : string) : string :=
  match s with
  | String c s' => String (lower c) (toLowerCase s')
  | EmptyString => EmptyString
  end.

(** A string of ASCII characters only, on which [toLowerCase] and
    [toUpperCase] are the mappings of the letters A to Z: none of its
    bytes belongs to a character beyond ASCII. *)
Fixpoint is_ascii (s : string) : bool :=
  match s with
  | String c s' => (code c <? 128)%Z && is_ascii s'
  | EmptyString => true
  end.

(** The value of a property of a configuration object. *)
Inductive ConfigValue (F : Type) : Type :=
  | CfgString (s : string)
  | CfgBool (b : bool)
  | CfgNumber (x : F).

Arguments CfgString {F} s.
Arguments CfgBool {F} b.
Arguments CfgNumber {F} x.

Module StrategyRegistry.
Section StrategyRegistry.
Context {F : Type} `{JSNumber F} {S : Type}.

(** A [Partial<StrategyConfig>]: the own properties of the object.  A
  property is present with a value of its declared type, or absent. *)
Definition PartialConfig : Type := gmap string (ConfigValue F).

Record StrategyDefinition : Type := {
def_name : string;
def_description : string;
def_constructor : PartialConfig → S;
defaultConfig : PartialConfig
}.

(** The static map [StrategyRegistry.strategies]. *)
Definition Registry : Type := list (string * StrategyDefinition).

Definition register (definition : StrategyDefinition) (strategies : Registry)
  : Registry :=
Map_set (toLowerCase (def_name definition)) definition strategies.

Definition get (name : string) (strategies : Registry)
  : option StrategyDefinition :=
Map_get (toLowerCase name) strategies.

Definition getAll (strategies : Registry) : list StrategyDefinition :=
snd <$> strategies.

(** [config.name || definition.name]. *)
Definition name_or (v : option (ConfigValue F)) (d : string) : string :=
match v with
| Some (CfgString s) => if decide (s = "") then d else s
| _ => d
end.

(** [create(name, config)]: [None] is [null]. *)
Definition create (name : string) (config : PartialConfig)
  (strategies : Registry) : option S :=
match get name strategies with
| None => None
| Some definition =>
    let fullConfig :=
      <[ "name" := CfgString (name_or (config !! "name") (def_name definition)) ]>
        (config ∪ defaultConfig definition) in
    Some (def_constructor definition fullConfig)
end.

(** [exists(name)]. *)
Definition exists_ (name : string) (strategies : Registry) : bool :=
bool_decide (is_Some (Map_get (toLowerCase name) strategies)).
End StrategyRegistry.

Arguments StrategyDefinition F S : clear implicits.
Arguments Registry F S : clear implicits.
Arguments PartialConfig F : clear implicits.

Section Builtin.
Context {F : Type} `{JSNumber F}.

(** [new PollBuyStrategy(config)] on a configuration object: the
  properties the strategy reads, at their declared types. *)
Definition string_at (m : PartialConfig F) (key : string) : option string :=
match m !! key with Some (CfgString s) => Some s | _ => None end.
Definition number_at (m : PartialConfig F) (key : string) : option F :=
match m !! key with Some (CfgNumber x) => Some x | _ => None end.
Definition bool_at (m : PartialConfig F) (key : string) : bool :=
match m !! key with Some (CfgBool b) => b | _ => false end.

Definition PollBuy_of_config (m : PartialConfig F) : PollBuyStrategy F :=
newPollBuy
  {| cfg_name := default "" (string_at m "name");
     cfg_enabled := bool_at m "enabled";
     intervalSeconds := number_at m "intervalSeconds";
     buySize := number_at m "buySize";
     cfg_targetTokenId := string_at m "targetTokenId";
     targetOutcome := string_at m "targetOutcome" |}.

Definition PollBuy_definition : StrategyDefinition F (PollBuyStrategy F) :=
{| def_name := "PollBuy";
   def_description := "Buys a side every N seconds";
   def_constructor := PollBuy_of_config;
   defaultConfig :=
     {[ "name" := CfgString "PollBuy";
        "enabled" := CfgBool true;
        "intervalSeconds" := CfgNumber (num_of_Z 15);
        "buySize" := CfgNumber (num_of_Z 1) ]} |}.

(** The registry once the module is loaded. *)
Definition builtin : Registry F (PollBuyStrategy F) :=
register PollBuy_definition [].
End Builtin.
End StrategyRegistry.

Lemma lower_upper (c : ascii) : lower (upper c) = lower c.
Proof. destruct c as [[] [] [] [] [] [] [] []]; reflexivity. Qed.

Lemma lower_lower (c : ascii) : lower (lower c) = lower c.
Proof. destruct c as [[] [] [] [] [] [] [] []]; reflexivity. Qed.

Lemma toLowerCase_toUpperCase (s : string) :
  toLowerCase (toUpperCase s) = toLowerCase s.
Proof. induction s as [|c s IH]; [done|]. cbn. by rewrite lower_upper, IH. Qed.

Lemma toLowerCase_idemp (s : string) :
  toLowerCase (toLowerCase s) = toLowerCase s.
Proof. induction s as [|c s IH]; [done|]. cbn. by rewrite lower_lower, IH. Qed.

Lemma Map_get_set_ne {V} k k' (v : V) m :
  k ≠ k' → Map_get k' (Map_set k v m) = Map_get k' m.
Proof.
  intros Hne. induction m as [|[k0 v0] m IH]; cbn.
  - by rewrite decide_False.
  - destruct (decide (k0 = k)) as [->|]; cbn.
    + by rewrite !decide_False.
    + destruct (decide (k0 = k')); [done|apply IH].
Qed.

Lemma Map_set_length_present {V} k (v v' : V) m :
  Map_get k m = Some v' → length (Map_set k v m) = length m.
Proof.
  induction m as [|[k0 v0] m IH]; cbn; [done|].
  destruct (decide (k0 = k)); cbn; [done|]. intros Hm. by rewrite IH.
Qed.

Section RegistryFacts.
Context {F : Type} `{JSNumber F} {S : Type}.
Import StrategyRegistry.
Implicit Types (reg : Registry F S) (definition : StrategyDefinition F S).

(** X16.  For names of ASCII characters, the registry is keyed by the
    name without regard to the case of its letters: after [register]
    the definition is found under every spelling of its name, [exists]
    agrees with [get], the names that differ in more than case resolve
    as before, and registering under a name that differs only in case
    replaces the definition in its place instead of adding one. *)
Theorem registry_ignores_case reg definition (name : string) :
  let reg' := register definition reg in
  is_ascii name = true →
  is_ascii (def_name definition) = true →
  get (toUpperCase name) reg = get name reg
  ∧ get (toLowerCase name) reg = get name reg
  ∧ (toLowerCase name = toLowerCase (def_name definition) →
       get name reg' = Some definition ∧ exists_ name reg' = true)
  ∧ (toLowerCase name ≠ toLowerCase (def_name definition) →
       get name reg' = get name reg ∧ exists_ name reg' = exists_ name reg)
  ∧ (∀ other, is_ascii (def_name other) = true →
       toLowerCase (def_name other) = toLowerCase (def_name definition) →
       get name (register other reg') = get name (register other reg)
       ∧ length (getAll (register other reg')) = length (getAll reg'))
  ∧ (exists_ name reg = true ↔ is_Some (get name reg)).
Proof.
  intros reg' _ _. subst reg'. unfold get, exists_, register, getAll.
  rewrite toLowerCase_toUpperCase, toLowerCase_idemp.
  split; [done|]. split; [done|]. split; [|split; [|split]].
  - intros ->. rewrite Map_get_set_eq. split; [done|].
    by apply bool_decide_eq_true.
  - intros Hne. by rewrite Map_get_set_ne.
  - intros other _ ->. split.
    + destruct (decide (toLowerCase (def_name definition) = toLowerCase name))
        as [<-|Hne].
      * by rewrite !Map_get_set_eq.
      * by rewrite !Map_get_set_ne.
    + rewrite !length_fmap.
      apply (Map_set_length_present _ _ definition), Map_get_set_eq.
  - apply bool_decide_eq_true.
Qed.

(** X17.  [create] returns [null] for a name that is not registered;
    for a registered one it calls the constructor of the definition on
    the configuration in which a property given by the caller wins over
    the default of the definition, and whose name is the caller's
    unless that is missing or empty, the definition's otherwise. *)
Theorem create_merges_config reg (name : string) (config : PartialConfig F) :
  (get name reg = None → create name config reg = None)
  ∧ (∀ definition, get name reg = Some definition →
       ∃ fullConfig,
         create name config reg = Some (def_constructor definition fullConfig)
         ∧ fullConfig !! "name"
             = Some (CfgString
                       (match config !! "name" with
                        | Some (CfgString s) =>
                            if decide (s = "") then def_name definition else s
                        | _ => def_name definition
                        end))
         ∧ (∀ key v, key ≠ "name" → config !! key = Some v →
                     fullConfig !! key = Some v)
         ∧ (∀ key, key ≠ "name" → config !! key = None →
                   fullConfig !! key = defaultConfig definition !! key)).
Proof.
  unfold create, PartialConfig in *. split; [by intros ->|].
  intros definition ->. eexists. split; [reflexivity|].
  split; [|split].
  - by rewrite lookup_insert_eq.
  - intros key v Hkey Hv. rewrite lookup_insert_ne by done.
    by apply lookup_union_Some_l.
  - intros key Hkey Hv. rewrite lookup_insert_ne by done.
    by apply lookup_union_r.
Qed.
End RegistryFacts.

(** The registry of the module finds its strategy under every spelling
    of ["PollBuy"] and under no other name. *)
Lemma registry_ignores_case_witness :
  (StrategyRegistry.get "POLLBUY" (StrategyRegistry.builtin (F:=float))
     = Some StrategyRegistry.PollBuy_definition
   ∧ StrategyRegistry.exists_ "POLLBUY" (StrategyRegistry.builtin (F:=float)) = true)
  ∧ StrategyRegistry.get "Poll-Buy" (StrategyRegistry.builtin (F:=float)) = None.
Proof.
  split.
  - destruct (registry_ignores_case (F:=float) [] StrategyRegistry.PollBuy_definition
                "POLLBUY" eq_refl eq_refl) as (_ & _ & Hfound & _).
    by apply Hfound.
  - destruct (registry_ignores_case (F:=float) [] StrategyRegistry.PollBuy_definition
                "Poll-Buy" eq_refl eq_refl) as (_ & _ & _ & Hother & _).
    destruct Hother as [Hget _]; [by vm_compute|].
    etrans; [exact Hget|reflexivity].
Defined.

(** The strategy the registry builds under the name ["POLLBUY"] from an
    empty configuration, and from one that names an interval. *)
Example create_builtin :
  StrategyRegistry.create "POLLBUY" ∅ (StrategyRegistry.builtin (F:=xnum))
    = Some (newPollBuy
              {| cfg_name := "PollBuy"; cfg_enabled := true;
                 intervalSeconds := Some (num_of_Z 15);
                 buySize := Some (num_of_Z 1);
                 cfg_targetTokenId := None; targetOutcome := None |})
  ∧ StrategyRegistry.create "pollBuy"
      {[ "intervalSeconds" := CfgNumber (num_of_Z 5); "name" := CfgString "" ]}
      (StrategyRegistry.builtin (F:=xnum))
    = Some (newPollBuy
              {| cfg_name := "PollBuy"; cfg_enabled := true;
                 intervalSeconds := Some (num_of_Z 5);
                 buySize := Some (num_of_Z 1);
                 cfg_targetTokenId := None; targetOutcome := None |})
  ∧ StrategyRegistry.create "MeanReversion" ∅ (StrategyRegistry.builtin (F:=xnum))
    = None.
Proof. repeat split; vm_compute; reflexivity. Qed.

Lemma Qc_of_Z_0 : Qc_of_Z 0 = 0%Qc.
Proof. by apply Qc_is_canon. Qed.

(** ** [src/strategy/history.ts] *)

(** [Array.prototype.slice(start)] for a whole [start]: from the end when
    [start] is negative. *)
Definition slice_from {A} (start : Z) (l : list A) : list A :=
  let len := Z.of_nat (length l) in
  let k := if start <? 0 then Z.max (len + start) 0 else Z.min start len in
  drop (Z.to_nat k) l.

Module PriceHistory.
Section PriceHistory.
Context {F : Type} `{JSNumber F}.
Local Open Scope js_scope.

Record PricePoint : Type := {
pp_timestamp : F;
pp_price : F;
pp_bestBid : F;
pp_bestAsk : F;
pp_spread : F
}.

Record PriceHistory : Type := {
history : list PricePoint;
maxSize : F
}.

(** [new PriceHistory(maxSize)], [maxSize] defaulting to 1000. *)
Definition new (maxSize : option F) : PriceHistory :=
{| history := []; maxSize := default (num_of_Z 1000) maxSize |}.

(** [add(price, bestBid, bestAsk, timestamp)]; the caller passes the
  clock when the source would take [Date.now()]. *)
Definition add (price bestBid bestAsk timestamp : F) (h : PriceHistory)
  : PriceHistory :=
let spread := bestAsk - bestBid in
let history1 :=
  history h ++ [ {| pp_timestamp := timestamp; pp_price := price;
                    pp_bestBid := bestBid; pp_bestAsk := bestAsk;
                    pp_spread := spread |} ] in
{| history :=
     if num_of_Z (Z.of_nat (length history1)) >? maxSize h
     then tail history1 else history1;
   maxSize := maxSize h |}.

Definition getAll (h : PriceHistory) : list PricePoint := history h.

(** [getLast(n)], [getMovingAverage(period)]: for a whole [n] and a
  whole [period]. *)
Definition getLast (n : Z) (h : PriceHistory) : list PricePoint :=
slice_from (- n)%Z (history h).

Definition getRange (startTime endTime : F) (h : PriceHistory)
  : list PricePoint :=
List.filter (λ p, (pp_timestamp p >=? startTime)
                  && (pp_timestamp p <=? endTime))
            (history h).

Definition getLatest (h : PriceHistory) : option PricePoint :=
last (history h).

Definition getMovingAverage (period : Z) (h : PriceHistory) : option F :=
if (Z.of_nat (length (history h)) <? period)%Z then None
else
  let recent := getLast period h in
  let sum := foldl (λ acc p, acc + pp_price p) zero recent in
  Some (sum / num_of_Z period).

Definition getPriceChange (periodMs : F) (now : Z) (h : PriceHistory)
  : option F :=
let then_ := num_of_Z now - periodMs in
let recent := getRange then_ (num_of_Z now) h in
if (length recent <? 2)%nat then None
else
  match head recent, last recent with
  | Some first, Some last => Some (pp_price last - pp_price first)
  | _, _ => None
  end.

Definition clear (h : PriceHistory) : PriceHistory :=
{| history := []; maxSize := maxSize h |}.

Definition size (h : PriceHistory) : nat := length (history h).
End PriceHistory.

Arguments PricePoint F : clear implicits.
Arguments PriceHistory F : clear implicits.
End PriceHistory.

Lemma Qc_of_Z_lt (a b : Z) : (Qc_of_Z a < Qc_of_Z b)%Qc ↔ a < b.
Proof.
  split.
  - intros Hlt. apply Z.lt_nge. intros Hle.
    apply (proj2 (Qc_of_Z_le b a)) in Hle. by apply Qcle_not_lt in Hle.
  - intros Hlt. apply Qcnot_le_lt. intros Hle.
    apply (proj1 (Qc_of_Z_le b a)) in Hle. lia.
Qed.


Lemma slice_from_zero {A} (l : list A) : slice_from (- 0) l = l.
Proof. unfold slice_from. cbn. by rewrite Z.min_l by lia. Qed.

Lemma tail_drop {A} (l : list A) : tail l = drop 1 l.
Proof. by destruct l. Qed.

Section HistoryFacts.
Import PriceHistory.
Local Open Scope js_scope.

(** A sample: price, best bid, best ask, time. *)
Definition Sample : Type := xnum * xnum * xnum * xnum.

Definition point_of (s : Sample) : PricePoint xnum :=
  let '(price, bestBid, bestAsk, timestamp) := s in
  {| pp_timestamp := timestamp; pp_price := price;
     pp_bestBid := bestBid; pp_bestAsk := bestAsk;
     pp_spread := bestAsk - bestBid |}.

Definition add_sample (h : PriceHistory xnum) (s : Sample) : PriceHistory xnum :=
  let '(price, bestBid, bestAsk, timestamp) := s in
  add price bestBid bestAsk timestamp h.

Lemma add_sample_history (h : PriceHistory xnum) (s : Sample) (m : Z) :
  maxSize h = num_of_Z m →
  history (add_sample h s) =
    (if bool_decide (m < Z.of_nat (Datatypes.S (length (history h))))%Z
     then tail (history h ++ [point_of s]) else history h ++ [point_of s])
  ∧ maxSize (add_sample h s) = num_of_Z m.
Proof.
  intros Hm. destruct s as [[[p b] a] t]. unfold add_sample, add.
  cbn [history maxSize point_of]. rewrite Hm. split; [|done].
  rewrite length_app, Nat.add_1_r.
  change (num_of_Z (Z.of_nat (Datatypes.S (length (history h)))) >? num_of_Z m)
    with (bool_decide (Qc_of_Z m < Qc_of_Z (Z.of_nat (Datatypes.S (length (history h)))))%Qc).
  erewrite bool_decide_ext; [done|]. apply Qc_of_Z_lt.
Qed.

(** X18.  A history built with a whole bound [m] >= 0 holds the latest
    [m] of the points added to it, oldest first: it never grows beyond
    the bound, and [getLatest] is the point added last (when [m] is
    not 0). *)
Theorem history_keeps_latest (m : Z) (samples : list Sample) :
  0 ≤ m →
  let h := foldl add_sample (new (Some (num_of_Z m))) samples in
  getAll h = drop (length samples - Z.to_nat m) (point_of <$> samples)
  ∧ size h = Nat.min (length samples) (Z.to_nat m)
  ∧ (0 < m → getLatest h = last (point_of <$> samples)).
Proof.
  intros Hm h.
  assert (Hh : history h = drop (length samples - Z.to_nat m) (point_of <$> samples)
               ∧ maxSize h = num_of_Z m).
  { subst h. induction samples as [|s samples IH] using rev_ind; [done|].
    rewrite foldl_app. cbn [foldl].
    destruct IH as [IHh IHm].
    destruct (add_sample_history _ s m IHm) as [-> ->]. split; [|done].
    rewrite IHh, length_drop, length_fmap, fmap_app, length_app.
    cbn [length fmap list_fmap].
    case_bool_decide as Hfull.
    - assert (Z.to_nat m ≤ length samples)%nat as Hle by lia.
      rewrite <- drop_app_le by (rewrite length_fmap; lia).
      rewrite tail_drop, drop_drop. f_equal. lia.
    - assert (length samples < Z.to_nat m)%nat as Hlt by lia.
      replace (length samples - Z.to_nat m)%nat with 0%nat by lia.
      replace (length samples + 1 - Z.to_nat m)%nat with 0%nat by lia.
      done. }
  destruct Hh as [Hh _]. unfold getAll, size, getLatest. rewrite Hh.
  split; [done|]. split.
  - rewrite length_drop, length_fmap. lia.
  - intros Hpos. destruct samples as [|s samples _] using rev_ind; [done|].
    rewrite fmap_app, length_app. cbn [fmap list_fmap length].
    rewrite last_snoc.
    rewrite drop_app_le by (rewrite length_fmap; lia).
    by rewrite last_snoc.
Qed.





(** X20.  A period of 0 is not refused: [getLast(0)] is the whole
    history, since [slice(-0)] starts at the first element, and
    [getMovingAverage(0)] is never [null] and never a finite number: it
    is the sum of all prices divided by 0.  No period below 1 gives
    [null]. *)
Theorem moving_average_period_zero (h : PriceHistory xnum) :
  getLast 0 h = getAll h
  ∧ (∃ v, getMovingAverage 0 h = Some v ∧ ¬ is_finite v)
  ∧ (∀ period, period ≤ 0 → getMovingAverage period h ≠ None).
Proof.
  split; [apply slice_from_zero|]. split.
  - unfold getMovingAverage.
    destruct (Z.ltb_spec (Z.of_nat (length (history h))) 0); [lia|].
    eexists. split; [reflexivity|]. cbv zeta.
    generalize (foldl (λ acc p, acc + pp_price p) zero (getLast 0 h)).
    intros [tot| | |]; cbn; intros [v Hv]; try done.
    rewrite decide_True in Hv by (by rewrite Qc_of_Z_0).
    by destruct (tot ?= 0)%Qc.
  - intros period Hp. unfold getMovingAverage.
    by destruct (Z.ltb_spec (Z.of_nat (length (history h))) period); [lia|].
Qed.
End HistoryFacts.

(** Three samples in a history bounded at 2. *)
Definition sample (p ts : Z) : Sample :=
  (decimal p 2, decimal (p - 1) 2, decimal (p + 1) 2, num_of_Z ts).

Definition history0 : PriceHistory.PriceHistory xnum :=
  foldl add_sample (PriceHistory.new (Some (num_of_Z 2)))
        [sample 50 1; sample 52 2; sample 56 3].

Lemma history_keeps_latest_witness :
  PriceHistory.getAll history0 = [point_of (sample 52 2); point_of (sample 56 3)]
  ∧ PriceHistory.size history0 = 2%nat.
Proof.
  destruct (history_keeps_latest 2 [sample 50 1; sample 52 2; sample 56 3])
    as (Hall & Hsize & _); [lia|].
  split; [exact Hall|exact Hsize].
Defined.


(** ** The command line of [src/index.ts] *)

(** [String.prototype.includes]. *)
Fixpoint includes (sub s : string) : bool :=
  String.prefix sub s ||
  match s with
  | String _ s' => includes sub s'
  | EmptyString => false
  end.

(** The longest prefix of [s] whose characters satisfy [p], and the
    rest. *)
Fixpoint span (p : ascii → bool) (s : string) : string * string :=
  match s with
  | String c s' =>
      if p c then let '(a, b) := span p s' in (String c a, b)
      else (EmptyString, s)
  | EmptyString => (EmptyString, EmptyString)
  end.

Fixpoint drop_chars (n : nat) (s : string) : string :=
  match n, s with
  | Datatypes.S n', String _ s' => drop_chars n' s'
  | _, _ => s
  end.

Definition is_digit (c : ascii) : bool :=
  (48 <=? code c)%Z && (code c <=? 57)%Z.

Definition is_slash (c : ascii) : bool := (code c =? 47)%Z.

(** A character other than [?] and [#]. *)
Definition slug_char (c : ascii) : bool :=
  negb ((code c =? 63)%Z || (code c =? 35)%Z).

(** [input.match(/event\/([^?#]+)/)]: the group of the leftmost match. *)
Fixpoint match_event (s : string) : option string :=
  match s with
  | String _ s' =>
      let group := (span slug_char (drop_chars 6 s)).1 in
      if String.prefix "event/" s && negb (String.eqb group "")
      then Some group
      else match_event s'
  | EmptyString => None
  end.

(** [/^\d+$/.test(input)]. *)
Fixpoint all_of (p : ascii → bool) (s : string) : bool :=
  match s with
  | String c s' => p c && all_of p s'
  | EmptyString => true
  end.

Definition all_digits (s : string) : bool :=
  negb (String.eqb s "") && all_of is_digit s.

(** [input.replace(/^\/+|\/+$/g, "")]: the slashes at both ends go. *)
Fixpoint strip_leading (s : string) : string :=
  match s with
  | String c s' => if is_slash c then strip_leading s' else s
  | EmptyString => s
  end.

Fixpoint strip_trailing (s : string) : string :=
  match s with
  | String c s' =>
      match strip_trailing s' with
      | EmptyString => if is_slash c then EmptyString else String c EmptyString
      | t => String c t
      end
  | EmptyString => EmptyString
  end.

Definition extractSlug (input : string) : option string :=
  match (if includes "polymarket.com" input then match_event input else None) with
  | Some slug => Some slug
  | None =>
      if includes "-" input && negb (all_digits input)
      then Some (strip_trailing (strip_leading input))
      else None
  end.

(** The digits [parseInt] reads after the sign: hexadecimal after [0x],
    decimal otherwise. *)
Definition int_digits (s1 : string) : Z * nat * string :=
  match s1 with
  | String "0" (String c s') =>
      if (code c =? 120)%Z || (code c =? 88)%Z
      then read_digits hex_digit_of 16 s' 0 0%nat
      else read_digits digit_of 10 s1 0 0%nat
  | _ => read_digits digit_of 10 s1 0 0%nat
  end.

(** [parseInt(s)] when it is a number: the whole number it reads, [None]
    for [NaN]. *)
Definition parseInt_whole (s : string) : option Z :=
  let '(neg, s1) := read_sign (trimStart s) in
  let '(v, n, _) := int_digits s1 in
  if (n =? 0)%nat then None else Some (if neg then (- v)%Z else v).

Lemma read_digits_nonneg (dig : ascii → option Z) (radix : Z) :
  (∀ c d, dig c = Some d → (0 ≤ d)%Z) → (0 ≤ radix)%Z →
  ∀ s acc n, (0 ≤ acc)%Z → (0 ≤ (read_digits dig radix s acc n).1.1)%Z.
Proof.
  intros Hdig Hr. induction s as [|c s IH]; intros acc n Hacc; [done|].
  cbn [read_digits]. destruct (dig c) as [d|] eqn:Hd; [|done].
  apply IH. specialize (Hdig c d Hd). nia.
Qed.

Lemma digit_of_nonneg (c : ascii) (d : Z) : digit_of c = Some d → (0 ≤ d)%Z.
Proof.
  unfold digit_of. destruct (_ && _) eqn:E; [|done]. intros [= <-].
  apply andb_true_iff in E as [?%Z.leb_le _]. lia.
Qed.

Lemma hex_digit_of_nonneg (c : ascii) (d : Z) : hex_digit_of c = Some d → (0 ≤ d)%Z.
Proof.
  unfold hex_digit_of.
  destruct ((48 <=? code c)%Z && _) eqn:E1.
  { intros [= <-]. apply andb_true_iff in E1 as [?%Z.leb_le _]. lia. }
  destruct ((65 <=? code c)%Z && _) eqn:E2.
  { intros [= <-]. apply andb_true_iff in E2 as [?%Z.leb_le _]. lia. }
  destruct ((97 <=? code c)%Z && _) eqn:E3; [|done].
  intros [= <-]. apply andb_true_iff in E3 as [?%Z.leb_le _]. lia.
Qed.

Lemma int_digits_nonneg (s : string) : (0 ≤ (int_digits s).1.1)%Z.
Proof.
  unfold int_digits.
  repeat case_match;
    (apply read_digits_nonneg;
     [apply hex_digit_of_nonneg || apply digit_of_nonneg|done|done]).
Qed.

(** In binary64 [parseInt] gives the double nearest to the whole number
    read, [-0] for a zero after a minus sign. *)
Lemma parseInt_whole_spec (s : string) :
  parseInt (F:=float) s =
    match parseInt_whole s with
    | None => NaN
    | Some 0%Z =>
        if (read_sign (trimStart s)).1 then PrimFloat.neg_zero else PrimFloat.zero
    | Some index => float_of_Z index
    end.
Proof.
  unfold parseInt, parseInt_whole.
  destruct (read_sign (trimStart s)) as [neg s1]. cbn [fst].
  pose proof (int_digits_nonneg s1) as Hv. unfold int_digits in *.
  destruct (match s1 with
            | String "0" (String c s') =>
                if (code c =? 120)%Z || (code c =? 88)%Z
                then read_digits hex_digit_of 16 s' 0 0%nat
                else read_digits digit_of 10 s1 0 0%nat
            | _ => read_digits digit_of 10 s1 0 0%nat
            end) as [[v n] rest].
  cbn [fst] in Hv. destruct (n =? 0)%nat; [done|].
  destruct v as [|p|p]; [by destruct neg| |lia].
  cbn [num_of_decimal float_number float_of_decimal Z.leb Z.compare].
  change (10 ^ 0)%Z with 1%Z. rewrite Z.mul_1_r. by destruct neg.
Qed.

Section Outcomes.
Context {F : Type}.

(** A token of a market, as [parseTokenData] gives it. *)
Record Token : Type := {
  token_id : string;
  outcome : string;
  tk_price : F
}.

(** The test of [findIndex] in [resolveTokenId]: one of the two names
    in lower case holds the other. *)
Definition outcome_matches (lowerSelector : string) (t : Token) : bool :=
  includes lowerSelector (toLowerCase (outcome t))
  || includes (toLowerCase (outcome t)) lowerSelector.

(** The choice of the outcome in [resolveTokenId]: the index of the
    selected token in [tokens], which is not empty there.
    [outcomeSelector] is the argument of [--outcome], [None] when the
    flag is not given.  The comparison of [index] with the length is
    written on whole numbers: a number too large to be exact as a double
    is also too large for the length. *)
Definition selectOutcome (tokens : list Token)
    (outcomeSelector : option string) : nat :=
  match truthy_string outcomeSelector with
  | None => 0%nat
  | Some selector =>
      let by_index :=
        match parseInt_whole selector with
        | Some index =>
            if (1 <=? index) && (index <=? Z.of_nat (length tokens))
            then Some (Z.to_nat (index - 1)) else None
        | None => None
        end in
      match by_index with
      | Some i => i
      | None =>
          let lowerSelector := toLowerCase selector in
          let matchIndex := findIndex (outcome_matches lowerSelector) tokens in
          default 0%nat matchIndex
      end
  end.
End Outcomes.

Arguments Token F : clear implicits.

(** *** Slugs *)

Lemma includes_all_of (p : ascii → bool) (c : ascii) (sub s : string) :
  p c = false → all_of p s = true → includes (String c sub) s = false.
Proof.
  intros Hc. induction s as [|c' s IH]; [done|].
  cbn [all_of includes]. intros [Hc' Hs]%andb_true_iff.
  rewrite (IH Hs), orb_false_r. cbn.
  destruct (Ascii.ascii_dec c c') as [->|]; [congruence|done].
Qed.

Lemma append_nil_l (s : string) : "" +:+ s = s.
Proof. reflexivity. Qed.

Lemma append_cons (c : ascii) (a b : string) :
  String c a +:+ b = String c (a +:+ b).
Proof. reflexivity. Qed.

Lemma span_all (p : ascii → bool) (a b : string) :
  all_of p a = true →
  match b with String c _ => p c = false | EmptyString => True end →
  span p (a +:+ b) = (a, b).
Proof.
  intros Ha Hb. induction a as [|c a IH].
  - rewrite append_nil_l. destruct b as [|c b]; [done|]. cbn in *. by rewrite Hb.
  - rewrite append_cons. cbn in Ha. apply andb_true_iff in Ha as [Hc Ha].
    cbn [span]. by rewrite Hc, (IH Ha).
Qed.

Lemma match_event_skip (c : ascii) (s : string) :
  String.prefix "event/" (String c s) = false →
  match_event (String c s) = match_event s.
Proof. intros Hp. cbn [match_event]. by rewrite Hp. Qed.

Lemma match_event_hit (slug rest : string) :
  slug ≠ "" → all_of slug_char slug = true →
  match rest with String c _ => slug_char c = false | EmptyString => True end →
  match_event ("event/" +:+ slug +:+ rest) = Some slug.
Proof.
  intros Hne Hslug Hrest. rewrite !append_cons, append_nil_l.
  cbn [match_event drop_chars].
  rewrite (span_all slug_char slug rest Hslug Hrest). cbn [fst].
  assert (Hp : String.prefix "event/"
                 (String "e" (String "v" (String "e" (String "n" (String "t"
                    (String "/" (slug +:+ rest))))))) = true).
  { cbn. by destruct (slug +:+ rest). }
  rewrite Hp. apply String.eqb_neq in Hne. by rewrite Hne.
Qed.

Lemma match_event_nonempty (s group : string) :
  match_event s = Some group → group ≠ "".
Proof.
  induction s as [|c s IH]; [done|]. cbn [match_event].
  destruct (String.prefix "event/" (String c s) && _) eqn:E; [|done].
  apply andb_true_iff in E as [_ E]. apply negb_true_iff, String.eqb_neq in E.
  by intros [= <-].
Qed.

Lemma strip_leading_some (s : string) :
  all_of is_slash s = false → all_of is_slash (strip_leading s) = false.
Proof.
  induction s as [|c s IH]; [done|]. cbn [all_of strip_leading].
  destruct (is_slash c) eqn:Hc; [done|]. cbn [all_of]. by rewrite Hc.
Qed.

Lemma strip_trailing_some (s : string) :
  all_of is_slash s = false → strip_trailing s ≠ "".
Proof.
  induction s as [|c s IH]; [done|]. cbn [all_of strip_trailing].
  destruct (strip_trailing s) eqn:E; [|done].
  destruct (is_slash c); [|done]. cbn. intros Hs. by destruct (IH Hs).
Qed.

Lemma includes_dash_some (s : string) :
  includes "-" s = true → all_of is_slash s = false.
Proof.
  intros Hd. destruct (all_of is_slash s) eqn:E; [|done].
  by rewrite (includes_all_of is_slash "-" _ s eq_refl E) in Hd.
Qed.

(** X23.  [extractSlug] tells token ids from slugs and links.  An input of
    decimal digits only, as a token id is, gives [null].  A link to the
    site that holds [event/] gives what follows it up to the first [?] or
    [#].  An input that holds a dash and is neither gives the input
    less the slashes at its two ends.  The slug is never the empty
    string, so that the test of the caller for no slug is the test for
    [null]. *)
Theorem extractSlug_cases (input slug rest : string) :
  (all_digits input = true → extractSlug input = None)
  ∧ (slug ≠ "" → all_of slug_char slug = true →
     match rest with String c _ => slug_char c = false | EmptyString => True end →
     extractSlug ("https://polymarket.com/event/" +:+ slug +:+ rest) = Some slug)
  ∧ (includes "polymarket.com" input = false →
     includes "-" input = true → all_digits input = false →
     extractSlug input = Some (strip_trailing (strip_leading input)))
  ∧ (includes "-" input = false → includes "polymarket.com" input = false →
     extractSlug input = None)
  ∧ extractSlug input ≠ Some "".
Proof.
  split; [|split; [|split; [|split]]].
  - unfold extractSlug, all_digits. intros [_ Hd]%andb_true_iff.
    rewrite (includes_all_of is_digit "p" _ input eq_refl Hd).
    rewrite (includes_all_of is_digit "-" _ input eq_refl Hd). done.
  - intros Hne Hslug Hrest. unfold extractSlug.
    assert (Hinc : includes "polymarket.com"
                     ("https://polymarket.com/event/" +:+ slug +:+ rest) = true)
      by reflexivity.
    rewrite Hinc.
    assert (Hm : match_event ("https://polymarket.com/event/" +:+ slug +:+ rest)
                 = Some slug); [|by rewrite Hm].
    rewrite <- (match_event_hit slug rest Hne Hslug Hrest).
    rewrite !append_cons, !append_nil_l.
    by rewrite !match_event_skip by reflexivity.
  - intros Hp Hd Ha. unfold extractSlug. by rewrite Hp, Hd, Ha.
  - intros Hd Hp. unfold extractSlug. by rewrite Hp, Hd.
  - unfold extractSlug.
    destruct (if includes "polymarket.com" input then match_event input else None)
      as [group|] eqn:E.
    + destruct (includes "polymarket.com" input); [|done].
      intros [= ->]. by apply match_event_nonempty in E.
    + destruct (includes "-" input) eqn:Hd; [|done].
      destruct (negb (all_digits input)); [|done]. cbn [andb]. intros [= Hs].
      by destruct (strip_trailing_some _
                     (strip_leading_some _ (includes_dash_some _ Hd))).
Qed.

Example extractSlug_inputs :
  extractSlug "https://polymarket.com/event/fed-decision-in-october?tid=1"
    = Some "fed-decision-in-october"
  ∧ extractSlug "/fed-decision-in-october/" = Some "fed-decision-in-october"
  ∧ extractSlug "7132104567016529051" = None
  ∧ extractSlug "polymarket.com/event/?x" = None
  ∧ extractSlug "-1" = Some "-1".
Proof. repeat split; vm_compute; reflexivity. Qed.

(** *** The choice of the outcome *)

Lemma parseInt_whole_empty : parseInt_whole "" = None.
Proof. reflexivity. Qed.

Lemma upper_space (c : ascii) : is_space (upper c) = is_space c.
Proof. destruct c as [[] [] [] [] [] [] [] []]; reflexivity. Qed.

Lemma upper_digit (c : ascii) : digit_of (upper c) = digit_of c.
Proof. destruct c as [[] [] [] [] [] [] [] []]; reflexivity. Qed.

Lemma upper_hex_digit (c : ascii) : hex_digit_of (upper c) = hex_digit_of c.
Proof. destruct c as [[] [] [] [] [] [] [] []]; reflexivity. Qed.

Lemma upper_x (c : ascii) :
  (code (upper c) =? 120)%Z || (code (upper c) =? 88)%Z
  = (code c =? 120)%Z || (code c =? 88)%Z.
Proof. destruct c as [[] [] [] [] [] [] [] []]; reflexivity. Qed.

(** [upper] moves the ASCII letters only: the bytes of the characters
    beyond ASCII stay. *)
Lemma upper_cases (c : ascii) :
  upper c = c ∨ ((code c < 123)%Z ∧ (code (upper c) < 123)%Z).
Proof.
  destruct c as [[] [] [] [] [] [] [] []];
    first [by left | by right].
Qed.

Lemma upper_eqb (c : ascii) (k : Z) :
  (123 ≤ k)%Z → (code (upper c) =? k)%Z = (code c =? k)%Z.
Proof.
  intros Hk. destruct (upper_cases c) as [->|[? ?]]; [done|].
  rewrite !(proj2 (Z.eqb_neq _ _)); [done|lia..].
Qed.

Lemma upper_leb_l (c : ascii) (k : Z) :
  (123 ≤ k)%Z → (k <=? code (upper c))%Z = (k <=? code c)%Z.
Proof.
  intros Hk. destruct (upper_cases c) as [->|[? ?]]; [done|].
  rewrite !(proj2 (Z.leb_gt _ _)); [done|lia..].
Qed.

Lemma upper_leb_r (c : ascii) (k : Z) :
  (122 ≤ k)%Z → (code (upper c) <=? k)%Z = (code c <=? k)%Z.
Proof.
  intros Hk. destruct (upper_cases c) as [->|[? ?]]; [done|].
  rewrite !(proj2 (Z.leb_le _ _)); [done|lia..].
Qed.

Lemma upper_space2 (c c1 : ascii) : is_space2 (upper c) (upper c1) = is_space2 c c1.
Proof. unfold is_space2. by rewrite !upper_eqb by lia. Qed.

Lemma upper_space3 (c c1 c2 : ascii) :
  is_space3 (upper c) (upper c1) (upper c2) = is_space3 c c1 c2.
Proof.
  unfold is_space3.
  by rewrite !upper_eqb, !upper_leb_l, !upper_leb_r by lia.
Qed.

Lemma trimStart_eq (s : string) :
  trimStart s =
    match s with
    | String c s1 =>
        if is_space c then trimStart s1
        else
          match s1 with
          | String c1 s2 =>
              if is_space2 c c1 then trimStart s2
              else
                match s2 with
                | String c2 s3 => if is_space3 c c1 c2 then trimStart s3 else s
                | EmptyString => s
                end
          | EmptyString => s
          end
    | EmptyString => s
    end.
Proof. by destruct s. Qed.

Lemma trimStart_upper (s : string) :
  trimStart (toUpperCase s) = toUpperCase (trimStart s).
Proof.
  remember (String.length s) as n eqn:Hn. revert s Hn.
  induction n as [n IH] using lt_wf_ind. intros s ->.
  assert (Hrec : ∀ s', (String.length s' < String.length s)%nat →
                       trimStart (toUpperCase s') = toUpperCase (trimStart s'))
    by (intros s' Hlt; exact (IH _ Hlt s' eq_refl)).
  clear IH.
  rewrite (trimStart_eq s), (trimStart_eq (toUpperCase s)).
  destruct s as [|c [|c1 [|c2 s3]]]; cbn [toUpperCase].
  - done.
  - rewrite upper_space. by destruct (is_space c).
  - rewrite upper_space, upper_space2. destruct (is_space c).
    { exact (Hrec (String c1 EmptyString) ltac:(cbn; lia)). }
    by destruct (is_space2 c c1).
  - rewrite upper_space, upper_space2, upper_space3. destruct (is_space c).
    { exact (Hrec (String c1 (String c2 s3)) ltac:(cbn; lia)). }
    destruct (is_space2 c c1).
    { exact (Hrec (String c2 s3) ltac:(cbn; lia)). }
    destruct (is_space3 c c1 c2); [|done].
    exact (Hrec s3 ltac:(cbn; lia)).
Qed.

Lemma read_sign_upper (s : string) :
  read_sign (toUpperCase s)
  = ((read_sign s).1, toUpperCase (read_sign s).2).
Proof.
  destruct s as [|c s]; [done|].
  destruct c as [[] [] [] [] [] [] [] []]; reflexivity.
Qed.

Lemma read_digits_upper (dig : ascii → option Z) (radix : Z) :
  (∀ c, dig (upper c) = dig c) →
  ∀ s acc n,
    (read_digits dig radix (toUpperCase s) acc n).1
    = (read_digits dig radix s acc n).1.
Proof.
  intros Hdig. induction s as [|c s IH]; intros acc n; [done|].
  cbn [toUpperCase read_digits]. rewrite Hdig. destruct (dig c); [apply IH|done].
Qed.

Lemma int_digits_other (c : ascii) (s : string) :
  c ≠ "0"%char → int_digits (String c s) = read_digits digit_of 10 (String c s) 0 0%nat.
Proof.
  intros Hc. destruct c as [[] [] [] [] [] [] [] []]; try reflexivity.
  by destruct Hc.
Qed.

Lemma upper_not_zero (c : ascii) : c ≠ "0"%char → upper c ≠ "0"%char.
Proof.
  intros Hc. destruct c as [[] [] [] [] [] [] [] []]; try discriminate.
  by destruct Hc.
Qed.

Lemma int_digits_upper (s : string) :
  (int_digits (toUpperCase s)).1 = (int_digits s).1.
Proof.
  destruct s as [|c0 s]; [done|].
  destruct (Ascii.ascii_dec c0 "0") as [->|Hne].
  - destruct s as [|c s]; [done|].
    change (toUpperCase (String "0" (String c s)))
      with (String "0" (String (upper c) (toUpperCase s))).
    cbn [int_digits]. rewrite upper_x.
    destruct ((code c =? 120)%Z || (code c =? 88)%Z).
    + apply read_digits_upper, upper_hex_digit.
    + apply (read_digits_upper digit_of 10 upper_digit (String "0" (String c s))).
  - cbn [toUpperCase].
    rewrite !int_digits_other by (done || by apply upper_not_zero).
    apply (read_digits_upper digit_of 10 upper_digit (String c0 s)).
Qed.

Lemma parseInt_whole_upper (s : string) :
  parseInt_whole (toUpperCase s) = parseInt_whole s.
Proof.
  unfold parseInt_whole. rewrite trimStart_upper, read_sign_upper.
  destruct (read_sign (trimStart s)) as [neg s1]. cbn [fst snd].
  pose proof (int_digits_upper s1) as Hd.
  destruct (int_digits (toUpperCase s1)) as [[v n] r].
  destruct (int_digits s1) as [[v' n'] r']. cbn in Hd. by injection Hd as -> ->.
Qed.

Lemma toUpperCase_empty (s : string) : toUpperCase s = "" ↔ s = "".
Proof. by destruct s. Qed.

Section OutcomeFacts.
Context {F : Type}.
Implicit Types (tokens : list (Token F)) (selector : string).

(** X24.  A selector that reads as a number between 1 and the number of
    outcomes selects by position, whatever the names are: the digits at
    its head decide, also when the selector as a whole is the name of
    another outcome. *)
Theorem outcome_number_wins tokens selector (index : Z) :
  parseInt_whole selector = Some index →
  (1 ≤ index ≤ Z.of_nat (length tokens))%Z →
  selectOutcome tokens (Some selector) = Z.to_nat (index - 1).
Proof.
  intros Hp [Hlo Hhi]. unfold selectOutcome, truthy_string.
  destruct (decide (selector = "")) as [->|_]; [by rewrite parseInt_whole_empty in Hp|].
  rewrite Hp.
  by rewrite (proj2 (Z.leb_le _ _) Hlo), (proj2 (Z.leb_le _ _) Hhi).
Qed.

(** X25.  The selected index always names a token of a market that has
    one: with no selector or an empty one it is the first token, and so
    it is for a selector that is no position of the list and that matches
    no name, the names being compared here in ASCII. *)
Theorem outcome_index_valid tokens (outcomeSelector : option string) :
  tokens ≠ [] →
  is_Some (tokens !! selectOutcome tokens outcomeSelector)
  ∧ (truthy_string outcomeSelector = None →
     selectOutcome tokens outcomeSelector = 0%nat)
  ∧ (∀ selector, outcomeSelector = Some selector →
       is_ascii selector = true →
       Forall (λ t, is_ascii (outcome t) = true) tokens →
       match parseInt_whole selector with
       | Some index => ¬ (1 ≤ index ≤ Z.of_nat (length tokens))%Z
       | None => True
       end →
       Forall (λ t, outcome_matches (toLowerCase selector) t = false) tokens →
       selectOutcome tokens outcomeSelector = 0%nat).
Proof.
  intros Hne.
  assert (H0 : is_Some (tokens !! 0%nat)) by (destruct tokens; [done|by eexists]).
  split; [|split].
  - unfold selectOutcome.
    destruct (truthy_string outcomeSelector) as [selector|]; [|done].
    assert (Hname : is_Some (tokens !! default 0%nat
              (findIndex (outcome_matches (toLowerCase selector)) tokens))).
    { destruct (findIndex _ tokens) as [i|] eqn:Hf; [|done]. cbn.
      apply findIndex_Some in Hf as (l1 & x & l2 & -> & <- & _).
      exists x. by apply list_lookup_middle. }
    destruct (parseInt_whole selector) as [index|]; [|done].
    destruct ((1 <=? index)%Z && (index <=? Z.of_nat (length tokens))%Z) eqn:E;
      [|done].
    apply andb_true_iff in E as [Hlo%Z.leb_le Hhi%Z.leb_le].
    apply lookup_lt_is_Some. lia.
  - unfold selectOutcome. by intros ->.
  - intros selector -> _ _ Hp Hall. unfold selectOutcome.
    destruct (truthy_string (Some selector)) as [sel'|] eqn:Ht; [|done].
    assert (sel' = selector) as ->.
    { unfold truthy_string in Ht. by destruct (decide (selector = "")); simplify_eq. }
    assert (Hf : findIndex (outcome_matches (toLowerCase selector)) tokens = None).
    { clear -Hall. induction Hall as [|t l Ht Hl IH]; [done|].
      cbn [findIndex]. by rewrite Ht, IH. }
    rewrite Hf.
    destruct (parseInt_whole selector) as [index|]; [|done].
    destruct ((1 <=? index)%Z && (index <=? Z.of_nat (length tokens))%Z) eqn:E;
      [|done].
    apply andb_true_iff in E as [Hlo%Z.leb_le Hhi%Z.leb_le]. by destruct Hp.
Qed.

(** X26.  The choice does not depend on the case of the ASCII letters of
    the selector. *)
Theorem outcome_ignores_case tokens selector :
  selectOutcome tokens (Some (toUpperCase selector))
  = selectOutcome tokens (Some selector).
Proof.
  unfold selectOutcome, truthy_string.
  destruct (decide (selector = "")) as [->|Hne]; [done|].
  rewrite decide_False by (by rewrite toUpperCase_empty).
  by rewrite parseInt_whole_upper, toLowerCase_toUpperCase.
Qed.
End OutcomeFacts.

Definition cuts : list (Token xnum) :=
  [ {| token_id := "101"; outcome := "0 cuts"; tk_price := num_of_Z 0 |};
    {| token_id := "102"; outcome := "1 cut"; tk_price := num_of_Z 0 |};
    {| token_id := "103"; outcome := "2 cuts"; tk_price := num_of_Z 0 |} ].

Lemma outcome_number_wins_witness :
  selectOutcome cuts (Some "2 cuts") = 1%nat
  ∧ outcome <$> cuts !! 1%nat = Some "1 cut".
Proof.
  split; [|reflexivity].
  apply (outcome_number_wins cuts "2 cuts" 2).
  - vm_compute. reflexivity.
  - vm_compute. split; discriminate.
Defined.

(** The selector [2] after a no-break space, U+00A0. *)
Definition nbsp_2 : string :=
  String (ascii_of_nat 194) (String (ascii_of_nat 160) "2").

Lemma outcome_index_valid_witness :
  selectOutcome cuts (Some "three") = 0%nat
  ∧ is_Some (cuts !! selectOutcome cuts (Some nbsp_2))
  ∧ selectOutcome cuts (Some nbsp_2) = 1%nat.
Proof.
  split; [|split].
  - destruct (outcome_index_valid cuts (Some "three")) as (_ & _ & Hnone).
    + discriminate.
    + apply (Hnone "three").
      * reflexivity.
      * reflexivity.
      * apply (bool_decide_unpack _). vm_compute. exact I.
      * vm_compute. exact I.
      * apply (bool_decide_unpack _). vm_compute. exact I.
  - destruct (outcome_index_valid cuts (Some nbsp_2)) as (Hvalid & _).
    + discriminate.
    + exact Hvalid.
  - vm_compute. reflexivity.
Defined.

(** * The properties in binary64

    The theorems of this part are stated for every model of the numbers
    that satisfies the laws of [JSNumberLaws], and so for binary64, in
    which the program computes.  Their hypotheses speak of the values the
    code itself computes (the number [parseFloat] returns, the result of a
    comparison), never of the exact value of a numeral. *)

(** ** Consequences of the laws *)

(** A number: a value other than [NaN]. *)
Definition numeric {F} `{JSNumber F} (x : F) : Prop := is_nan x = false.

Global Instance numeric_dec {F} `{JSNumber F} (x : F) : Decision (numeric x).
Proof. unfold numeric. apply _. Defined.

Section NumberLaws.
Context {F : Type} `{JSNumberLaws F}.
Local Set Default Proof Using "All".
Local Open Scope js_scope.
Implicit Types a b c x : F.

Lemma is_nan_compare x : is_nan x = true ↔ ncompare x x = None.
Proof.
  unfold is_nan. rewrite neq_compare.
  pose proof (ncompare_refl x) as Hr.
  destruct (ncompare x x) as [[]|]; cbn; split; try done;
    intros; by specialize (Hr ltac:(done)).
Qed.

Lemma numeric_compare x : numeric x ↔ ncompare x x = Some Eq.
Proof.
  unfold numeric. rewrite <- not_true_iff_false, is_nan_compare.
  split; [apply ncompare_refl|by intros ->].
Qed.

Lemma numeric_ordered x : numeric x ↔ ncompare x x ≠ None.
Proof. unfold numeric. by rewrite <- not_true_iff_false, is_nan_compare. Qed.

Lemma compare_numeric a b o :
  ncompare a b = Some o → numeric a ∧ numeric b.
Proof.
  intros Hab. rewrite !numeric_ordered.
  split; intros Hn; assert (ncompare a b = None) by (apply ncompare_None; auto);
    congruence.
Qed.

Lemma numeric_compare_Some a b :
  numeric a → numeric b → ∃ o, ncompare a b = Some o.
Proof.
  rewrite !numeric_ordered. intros Ha Hb.
  destruct (ncompare a b) as [o|] eqn:E; [by exists o|].
  apply ncompare_None in E as [?|?]; done.
Qed.

Lemma neq_true a b : (a =? b) = true ↔ ncompare a b = Some Eq.
Proof. rewrite neq_compare. by destruct (ncompare a b) as [[]|]. Qed.

Lemma nlt_true a b : (a <? b) = true ↔ ncompare a b = Some Lt.
Proof. rewrite nlt_compare. by destruct (ncompare a b) as [[]|]. Qed.

Lemma ngt_true a b : (a >? b) = true ↔ ncompare a b = Some Gt.
Proof.
  rewrite nlt_true, (ncompare_opp a b).
  destruct (ncompare a b) as [[]|]; cbn; split; congruence.
Qed.

Lemma nle_true a b :
  (a <=? b) = true ↔ ncompare a b = Some Lt ∨ ncompare a b = Some Eq.
Proof.
  rewrite nle_compare.
  destruct (ncompare a b) as [[]|]; split; (done || auto || intros [|]; done).
Qed.

Lemma neq_numeric a b : (a =? b) = true → numeric a ∧ numeric b.
Proof. rewrite neq_true. apply compare_numeric. Qed.

Lemma nlt_numeric a b : (a <? b) = true → numeric a ∧ numeric b.
Proof. rewrite nlt_true. apply compare_numeric. Qed.


Lemma neq_sym a b : (a =? b) = (b =? a).
Proof.
  rewrite !neq_compare, (ncompare_opp a b).
  by destruct (ncompare a b) as [[]|].
Qed.

Lemma neq_trans a b c : (a =? b) = true → (b =? c) = true → (a =? c) = true.
Proof. rewrite !neq_true. apply ncompare_trans. Qed.

(** Equal numbers compare alike with every other value. *)
Lemma neq_compare_l a b c : (a =? b) = true → ncompare a c = ncompare b c.
Proof. rewrite neq_true. apply ncompare_Eq_l. Qed.

Lemma neq_compare_r a b c : (a =? b) = true → ncompare c a = ncompare c b.
Proof.
  intros Hab. rewrite (ncompare_opp a c), (ncompare_opp b c).
  by rewrite (neq_compare_l a b c).
Qed.

Lemma neq_neq_l a b c : (a =? b) = true → (a =? c) = (b =? c).
Proof. intros Hab. by rewrite !neq_compare, (neq_compare_l a b c). Qed.

Lemma neq_neq_r a b c : (a =? b) = true → (c =? a) = (c =? b).
Proof. intros Hab. by rewrite !neq_compare, (neq_compare_r a b c). Qed.

Lemma neq_nlt_l a b c : (a =? b) = true → (a <? c) = (b <? c).
Proof. intros Hab. by rewrite !nlt_compare, (neq_compare_l a b c). Qed.

Lemma neq_nlt_r a b c : (a =? b) = true → (c <? a) = (c <? b).
Proof. intros Hab. by rewrite !nlt_compare, (neq_compare_r a b c). Qed.

Lemma nlt_irrefl x : (x <? x) = false.
Proof.
  rewrite nlt_compare. pose proof (ncompare_refl x) as Hr.
  destruct (ncompare x x) as [[]|]; try done. by specialize (Hr ltac:(done)).
Qed.

Lemma nlt_trans a b c : (a <? b) = true → (b <? c) = true → (a <? c) = true.
Proof. rewrite !nlt_true. apply ncompare_trans. Qed.


Lemma nlt_neq a b : (a <? b) = true → (a =? b) = false.
Proof. rewrite nlt_true. intros Hab. by rewrite neq_compare, Hab. Qed.

Lemma nlt_nle a b : (a <? b) = true → (a <=? b) = true.
Proof. rewrite nlt_true, nle_true. auto. Qed.

Lemma nle_lt_or_eq a b : (a <=? b) = (a <? b) || (a =? b).
Proof.
  rewrite nle_compare, nlt_compare, neq_compare.
  by destruct (ncompare a b) as [[]|].
Qed.

(** On numbers the order is total. *)
Lemma nle_total a b : numeric a → numeric b → (b <? a) = negb (a <=? b).
Proof.
  intros Ha Hb. destruct (numeric_compare_Some a b Ha Hb) as [o Ho].
  rewrite nlt_compare, nle_compare, (ncompare_opp a b), Ho. by destruct o.
Qed.


Lemma nle_trans a b c : (a <=? b) = true → (b <=? c) = true → (a <=? c) = true.
Proof.
  rewrite !nle_true. intros [Hab|Hab] [Hbc|Hbc].
  - left. by apply (ncompare_trans a b c).
  - left. rewrite <- (neq_compare_r b c a); [done|by apply neq_true].
  - left. by rewrite (ncompare_Eq_l a b c Hab).
  - right. by apply (ncompare_trans a b c).
Qed.

Lemma nle_neq_nlt a b : (a <=? b) = true → (a =? b) = false → (a <? b) = true.
Proof. rewrite nle_lt_or_eq. intros H1 H2. by rewrite H2, orb_false_r in H1. Qed.

(** The sign test of the comparators: on numbers, [a - b > 0] is
    [b < a]. *)
Lemma nsub_pos a b : numeric a → numeric b → (a - b >? zero) = (b <? a).
Proof. rewrite !numeric_ordered. apply nsub_sign. Qed.

Lemma is_nan_NaN : is_nan (NaN : F) = true.
Proof. apply is_nan_compare, NaN_unordered. Qed.

Lemma numeric_zero : numeric (zero : F).
Proof. apply numeric_compare, zero_ordered. Qed.

(** [NaN] is equal to nothing and below nothing. *)
Lemma neq_nan_l a b : is_nan a = true → (a =? b) = false.
Proof.
  intros Ha. destruct (a =? b) eqn:E; [|done].
  apply neq_numeric in E as [E _]. unfold numeric in E. congruence.
Qed.

Lemma neq_nan_r a b : is_nan b = true → (a =? b) = false.
Proof. intros Hb. rewrite neq_sym. by apply neq_nan_l. Qed.

Lemma nlt_nan_l a b : is_nan a = true → (a <? b) = false.
Proof.
  intros Ha. destruct (a <? b) eqn:E; [|done].
  apply nlt_numeric in E as [E _]. unfold numeric in E. congruence.
Qed.

Lemma nlt_nan_r a b : is_nan b = true → (a <? b) = false.
Proof.
  intros Hb. destruct (a <? b) eqn:E; [|done].
  apply nlt_numeric in E as [_ E]. unfold numeric in E. congruence.
Qed.
End NumberLaws.

(** ** The order and the subtraction of binary64

    The comparisons and the subtraction of the kernel's floats are
    specified by [SFcompare] and [SFsub] on [spec_float].  This section
    derives from that specification the facts about binary64 that the
    properties of the order book rest on: the comparison is a total order
    on the numbers, and the sign of [a - b] is the comparison of [a] with
    [b] (no difference of two distinct numbers rounds to zero). *)

Module Binary64.

(** The place of a number in the order: sign class, then exponent, then
  mantissa, the last two negated for the negative numbers. *)
Definition key (x : spec_float) : option (Z * Z * Z) :=
match x with
| S754_nan => None
| S754_zero _ => Some (0, 0, 0)
| S754_infinity false => Some (2, 0, 0)
| S754_infinity true => Some (-2, 0, 0)
| S754_finite false m e => Some (1, e, Zpos m)
| S754_finite true m e => Some (-1, - e, Zneg m)
end.

Definition lexcmp (a b : Z * Z * Z) : comparison :=
match a.1.1 ?= b.1.1 with
| Eq => match a.1.2 ?= b.1.2 with
        | Eq => a.2 ?= b.2
        | c => c
        end
| c => c
end.

Definition keycmp (a b : option (Z * Z * Z)) : option comparison :=
match a, b with
| Some a, Some b => Some (lexcmp a b)
| _, _ => None
end.

Lemma SFcompare_key (x y : spec_float) :
SFcompare x y = keycmp (key x) (key y).
Proof.
destruct x as [sx|sx| |sx mx ex], y as [sy|sy| |sy my ey];
  try destruct sx; try destruct sy; try reflexivity.
cbn. unfold lexcmp; cbn [fst snd].
rewrite Z.compare_opp, (Z.compare_antisym ex ey).
destruct (ex ?= ey); cbn; reflexivity.
Qed.

Lemma lexcmp_Lt a b :
lexcmp a b = Lt ↔
a.1.1 < b.1.1 ∨ (a.1.1 = b.1.1 ∧ (a.1.2 < b.1.2 ∨ (a.1.2 = b.1.2 ∧ a.2 < b.2))).
Proof.
unfold lexcmp.
destruct (Z.compare_spec a.1.1 b.1.1), (Z.compare_spec a.1.2 b.1.2),
  (Z.compare_spec a.2 b.2); split; intros; try done; lia.
Qed.

Lemma lexcmp_Gt a b :
lexcmp a b = Gt ↔
b.1.1 < a.1.1 ∨ (a.1.1 = b.1.1 ∧ (b.1.2 < a.1.2 ∨ (a.1.2 = b.1.2 ∧ b.2 < a.2))).
Proof.
unfold lexcmp.
destruct (Z.compare_spec a.1.1 b.1.1), (Z.compare_spec a.1.2 b.1.2),
  (Z.compare_spec a.2 b.2); split; intros; try done; lia.
Qed.

Lemma lexcmp_Eq a b : lexcmp a b = Eq ↔ a = b.
Proof.
destruct a as [[a1 a2] a3], b as [[b1 b2] b3]. unfold lexcmp; cbn [fst snd].
destruct (Z.compare_spec a1 b1), (Z.compare_spec a2 b2),
  (Z.compare_spec a3 b3); split; intros; simplify_eq; try done; lia.
Qed.

Lemma lexcmp_opp a b : lexcmp b a = CompOpp (lexcmp a b).
Proof.
unfold lexcmp.
rewrite (Z.compare_antisym a.1.1), (Z.compare_antisym a.1.2), (Z.compare_antisym a.2).
by destruct (a.1.1 ?= b.1.1), (a.1.2 ?= b.1.2), (a.2 ?= b.2).
Qed.

Lemma lexcmp_trans a b c o : lexcmp a b = o → lexcmp b c = o → lexcmp a c = o.
Proof.
destruct o.
- rewrite !lexcmp_Eq. congruence.
- rewrite !lexcmp_Lt. lia.
- rewrite !lexcmp_Gt. lia.
Qed.

(** *** Digits *)

Lemma digits2_pos_bounds (m : positive) :
2 ^ (Zpos (digits2_pos m) - 1) ≤ Zpos m < 2 ^ Zpos (digits2_pos m).
Proof.
induction m as [m IH|m IH|]; cbn [digits2_pos]; [| |by compute].
- rewrite Pos2Z.inj_succ.
  replace (Z.succ (Zpos (digits2_pos m)) - 1) with (Z.succ (Zpos (digits2_pos m) - 1)) by lia.
  rewrite !Z.pow_succ_r by lia. lia.
- rewrite Pos2Z.inj_succ.
  replace (Z.succ (Zpos (digits2_pos m)) - 1) with (Z.succ (Zpos (digits2_pos m) - 1)) by lia.
  rewrite !Z.pow_succ_r by lia. lia.
Qed.

(** *** Shifts *)

Lemma shr_1_m (mrs : shr_record) :
0 ≤ shr_m mrs → shr_m (shr_1 mrs) = shr_m mrs / 2.
Proof.
destruct mrs as [m r s]. cbn [shr_m]. intros Hm.
destruct m as [|[p|p|]|p]; cbn [shr_1 shr_m]; try done.
- apply Z.div_unique with 1; lia.
- apply Z.div_unique with 0; lia.
Qed.

Lemma iter_shr_1_m (p : positive) (mrs : shr_record) :
0 ≤ shr_m mrs → shr_m (SpecFloat.iter_pos shr_1 p mrs) = shr_m mrs / 2 ^ Zpos p.
Proof.
revert mrs. induction p as [p IH|p IH|]; intros mrs Hm; cbn [SpecFloat.iter_pos].
- assert (Hp : 0 < 2 ^ Zpos p) by (by apply Z.pow_pos_nonneg).
  assert (H1 : 0 ≤ shr_m (shr_1 mrs)).
  { rewrite shr_1_m by done. by apply Z.div_pos. }
  assert (H2 : 0 ≤ shr_m (SpecFloat.iter_pos shr_1 p (shr_1 mrs))).
  { rewrite IH by done. by apply Z.div_pos. }
  rewrite IH, IH, shr_1_m by done.
  rewrite !Z.div_div by lia.
  f_equal. replace (Zpos p~1) with (1 + Zpos p + Zpos p) by lia.
  rewrite !Z.pow_add_r by lia. change (2 ^ 1) with 2. lia.
- assert (Hp : 0 < 2 ^ Zpos p) by (by apply Z.pow_pos_nonneg).
  assert (H2 : 0 ≤ shr_m (SpecFloat.iter_pos shr_1 p mrs)).
  { rewrite IH by done. by apply Z.div_pos. }
  rewrite IH, IH by done.
  rewrite !Z.div_div by lia.
  f_equal. replace (Zpos p~0) with (Zpos p + Zpos p) by lia.
  by rewrite Z.pow_add_r by lia.
- by rewrite shr_1_m.
Qed.

Lemma shr_record_of_loc_m m l : shr_m (shr_record_of_loc m l) = m.
Proof. by destruct l as [|[]]. Qed.

Abbreviation emin := (SpecFloat.emin prec emax).
Abbreviation fexp := (SpecFloat.fexp prec emax).

(** A positive mantissa at an exponent that is not below the least one is
  not shifted out. *)
Lemma shr_fexp_pos (m e : Z) (l : location) :
0 < m → emin ≤ e →
0 < shr_m (shr_fexp prec emax m e l).1 ∧ emin ≤ (shr_fexp prec emax m e l).2.
Proof.
intros Hm He. unfold shr_fexp, shr.
destruct m as [|m|m]; try done. cbn [Zdigits2].
pose proof (digits2_pos_bounds m) as [Hlo Hhi].
set (d := Zpos (digits2_pos m)) in *.
destruct (fexp (d + e) - e) as [|p|p] eqn:Hn; cbn [fst snd];
  rewrite ?shr_record_of_loc_m; try done.
assert (Hd : Zpos p = d - prec).
{ unfold SpecFloat.fexp in Hn. lia. }
split.
- rewrite iter_shr_1_m by (by rewrite shr_record_of_loc_m).
  rewrite shr_record_of_loc_m, Hd.
  apply Z.lt_le_trans with (2 ^ (prec - 1)); [done|].
  apply Z.div_le_lower_bound; [apply Z.pow_pos_nonneg; lia|].
  assert (0 ≤ prec - 1) by done.
  rewrite <- Z.pow_add_r by lia.
  by replace (d - prec + (prec - 1)) with (d - 1) by lia.
- unfold SpecFloat.fexp in *. lia.
Qed.

Lemma round_nearest_even_le m l : m ≤ round_nearest_even m l.
Proof. destruct l as [|[]]; cbn; try lia. destruct (Z.even m); lia. Qed.

(** A mantissa that is not 0 is never rounded to zero. *)
Lemma binary_round_aux_sign (s : bool) (m e : Z) (l : location) :
0 < m → emin ≤ e →
(∃ m' e', binary_round_aux prec emax s m e l = S754_finite s m' e')
∨ binary_round_aux prec emax s m e l = S754_infinity s.
Proof.
intros Hm He. unfold binary_round_aux.
destruct (shr_fexp_pos m e l Hm He) as [Hm1 He1].
destruct (shr_fexp prec emax m e l) as [mrs1 e1]. cbn [fst snd] in *.
pose proof (round_nearest_even_le (shr_m mrs1) (loc_of_shr_record mrs1)) as Hr.
destruct (shr_fexp_pos (round_nearest_even (shr_m mrs1) (loc_of_shr_record mrs1))
            e1 loc_Exact) as [Hm2 He2]; [lia|done|].
destruct (shr_fexp prec emax _ e1 loc_Exact) as [mrs2 e2]. cbn [fst snd] in *.
destruct (shr_m mrs2) as [|m2|m2]; try done.
destruct (e2 <=? emax - prec); [left; by eexists _, _|by right].
Qed.

Lemma binary_round_sign (s : bool) (m : positive) (e : Z) :
emin ≤ e →
(∃ m' e', binary_round prec emax s m e = S754_finite s m' e')
∨ binary_round prec emax s m e = S754_infinity s.
Proof.
intros He. unfold binary_round, shl_align.
destruct (fexp (Zpos (digits2_pos m) + e) - e) eqn:Hn;
  apply binary_round_aux_sign; try done.
unfold SpecFloat.fexp in *. lia.
Qed.

(** *** Canonical mantissas *)

Lemma canonical_bounds (m : positive) (e : Z) :
canonical_mantissa prec emax m e = true →
emin ≤ e ∧ Zpos m < 2 ^ prec ∧ (emin < e → 2 ^ (prec - 1) ≤ Zpos m).
Proof.
unfold canonical_mantissa. intros Hc%Z.eqb_eq.
pose proof (digits2_pos_bounds m) as [Hlo Hhi].
set (d := Zpos (digits2_pos m)) in *.
unfold SpecFloat.fexp in Hc.
split; [lia|]. split.
- apply Z.lt_le_trans with (2 ^ d); [done|].
  apply Z.pow_le_mono_r; lia.
- intros He. by replace (prec - 1) with (d - 1) by lia.
Qed.

Lemma shl_align_m (m : positive) (e e' : Z) :
e' ≤ e → Zpos (shl_align m e e').1 = Zpos m * 2 ^ (e - e').
Proof.
intros He. unfold shl_align.
destruct (e' - e) as [|p|p] eqn:Hn; cbn [fst]; try lia.
- replace (e - e') with 0 by lia. lia.
- replace (e - e') with (Zpos p) by lia.
  rewrite Pos.iter_swap_gen with (f := Zpos) (h := Z.mul 2) by done.
  clear. induction p as [|p IH] using Pos.peano_ind.
  + cbn. lia.
  + rewrite Pos.iter_succ, IH, Pos2Z.inj_succ, Z.pow_succ_r by lia. lia.
Qed.

(** The aligned mantissas of two numbers of the same sign compare as the
  numbers do in the order of exponent and mantissa. *)
Lemma aligned_compare (mx my : positive) (ex ey : Z) :
canonical_mantissa prec emax mx ex = true →
canonical_mantissa prec emax my ey = true →
(Zpos (shl_align mx ex (Z.min ex ey)).1 ?= Zpos (shl_align my ey (Z.min ex ey)).1)
= lexcmp (1, ex, Zpos mx) (1, ey, Zpos my).
Proof.
intros (Hex & Hmx & Hnx)%canonical_bounds (Hey & Hmy & Hny)%canonical_bounds.
rewrite !shl_align_m by lia.
unfold lexcmp; cbn [fst snd]. rewrite Z.compare_refl.
destruct (Z.compare_spec ex ey) as [->|Hlt|Hlt].
- by rewrite Z.min_id, Z.sub_diag, !Z.mul_1_r.
- rewrite Z.min_l, Z.sub_diag, Z.mul_1_r by lia.
  apply Z.compare_lt_iff.
  assert (2 ^ 1 ≤ 2 ^ (ey - ex)) by (apply Z.pow_le_mono_r; lia).
  assert (2 ^ (prec - 1) ≤ Zpos my) by (apply Hny; lia).
  change (2 ^ prec) with (2 ^ (prec - 1) * 2 ^ 1) in Hmx. nia.
- rewrite Z.min_r, Z.sub_diag, Z.mul_1_r by lia.
  apply Z.compare_gt_iff.
  assert (2 ^ 1 ≤ 2 ^ (ex - ey)) by (apply Z.pow_le_mono_r; lia).
  assert (2 ^ (prec - 1) ≤ Zpos mx) by (apply Hnx; lia).
  change (2 ^ prec) with (2 ^ (prec - 1) * 2 ^ 1) in Hmy. nia.
Qed.

(** *** The laws in binary64 *)

(** The sign of a difference is the comparison of its terms. *)
Lemma SFsub_compare (x y : spec_float) :
valid_binary x = true → valid_binary y = true →
key x ≠ None → key y ≠ None →
SFltb (S754_zero false) (SFsub prec emax x y) = SFltb y x.
Proof.
intros Hx Hy Hkx Hky. unfold SFltb at 2. rewrite (SFcompare_key y x).
destruct x as [sx|sx| |sx mx ex], y as [sy|sy| |sy my ey]; try done;
  try (by destruct sx, sy); try (by destruct sx); try (by destruct sy).
cbn [valid_binary] in Hx, Hy. unfold bounded in Hx, Hy.
apply andb_true_iff in Hx as [Hx _]. apply andb_true_iff in Hy as [Hy _].
pose proof (aligned_compare mx my ex ey Hx Hy) as Hal.
pose proof (canonical_bounds mx ex Hx) as (Hex & _).
pose proof (canonical_bounds my ey Hy) as (Hey & _).
cbn [SFsub key keycmp].
set (X := Zpos (shl_align mx ex (Z.min ex ey)).1) in *.
set (Y := Zpos (shl_align my ey (Z.min ex ey)).1) in *.
assert (HX : 0 < X) by done. assert (HY : 0 < Y) by done.
assert (Hround : ∀ D : Z,
  SFltb (S754_zero false) (binary_normalize prec emax D (Z.min ex ey) false)
  = bool_decide (0 < D)).
{ intros [|D|D]; cbn [binary_normalize]; [done| |].
  - destruct (binary_round_sign false D (Z.min ex ey)) as [(m' & e' & ->)| ->];
      [lia|done|done].
  - destruct (binary_round_sign true D (Z.min ex ey)) as [(m' & e' & ->)| ->];
      [lia|done|done]. }
rewrite Hround. clear Hround.
assert (Hlex : lexcmp (1, ey, Zpos my) (1, ex, Zpos mx) = CompOpp (X ?= Y)).
{ by rewrite Hal, <- lexcmp_opp. }
destruct sx, sy; cbn [cond_Zopp keycmp].
- (* both negative *)
  assert (lexcmp (-1, - ey, Zneg my) (-1, - ex, Zneg mx) = (X ?= Y)) as ->.
  { rewrite Hal. unfold lexcmp; cbn [fst snd].
    rewrite !Z.compare_refl, Z.compare_opp.
    destruct (ex ?= ey); try done.
    cbn. by rewrite <- Pos.compare_antisym. }
  destruct (Z.compare_spec X Y); [by rewrite bool_decide_eq_false_2 by lia
    | by rewrite bool_decide_eq_true_2 by lia
    | by rewrite bool_decide_eq_false_2 by lia].
- by rewrite bool_decide_eq_false_2 by lia.
- by rewrite bool_decide_eq_true_2 by lia.
- rewrite Hlex.
  destruct (Z.compare_spec X Y); cbn [CompOpp];
    [by rewrite bool_decide_eq_false_2 by lia
    | by rewrite bool_decide_eq_false_2 by lia
    | by rewrite bool_decide_eq_true_2 by lia].
Qed.

End Binary64.

Lemma Prim2SF_zero : Prim2SF 0%float = S754_zero false.
Proof. reflexivity. Qed.

(** The comparison of binary64. *)
Definition float_compare (a b : float) : option comparison :=
  SFcompare (Prim2SF a) (Prim2SF b).

Lemma float_compare_key (a b : float) :
  float_compare a b
  = Binary64.keycmp (Binary64.key (Prim2SF a)) (Binary64.key (Prim2SF b)).
Proof. apply Binary64.SFcompare_key. Qed.

Lemma float_compare_None (a b : float) :
  float_compare a b = None ↔ float_compare a a = None ∨ float_compare b b = None.
Proof.
  rewrite !float_compare_key.
  destruct (Binary64.key (Prim2SF a)), (Binary64.key (Prim2SF b)); cbn;
    split; (done || auto || intros [|]; done).
Qed.

Lemma float_compare_refl (a : float) :
  float_compare a a ≠ None → float_compare a a = Some Eq.
Proof.
  rewrite float_compare_key.
  destruct (Binary64.key (Prim2SF a)) as [k|]; cbn; [|done].
  intros _. f_equal. by apply Binary64.lexcmp_Eq.
Qed.

Lemma float_compare_opp (a b : float) :
  float_compare b a = CompOpp <$> float_compare a b.
Proof.
  rewrite !float_compare_key.
  destruct (Binary64.key (Prim2SF a)), (Binary64.key (Prim2SF b)); cbn; try done.
  by rewrite Binary64.lexcmp_opp.
Qed.

Lemma float_compare_trans (a b c : float) (o : comparison) :
  float_compare a b = Some o → float_compare b c = Some o →
  float_compare a c = Some o.
Proof.
  rewrite !float_compare_key.
  destruct (Binary64.key (Prim2SF a)), (Binary64.key (Prim2SF b)) as [kb|],
    (Binary64.key (Prim2SF c)); cbn; try done.
  intros [= H1] [= H2]. f_equal. by apply (Binary64.lexcmp_trans _ kb).
Qed.

Lemma float_compare_Eq_l (a b c : float) :
  float_compare a b = Some Eq → float_compare a c = float_compare b c.
Proof.
  rewrite !float_compare_key.
  destruct (Binary64.key (Prim2SF a)), (Binary64.key (Prim2SF b)); cbn; try done.
  by intros [= ->%Binary64.lexcmp_Eq].
Qed.

Lemma float_sub_sign (a b : float) :
  float_compare a a ≠ None → float_compare b b ≠ None →
  PrimFloat.ltb (float_of_Z 0) (PrimFloat.sub a b) = PrimFloat.ltb b a.
Proof.
  intros Ha Hb. change (float_of_Z 0) with 0%float.
  rewrite !FloatAxioms.ltb_spec, FloatAxioms.sub_spec, Prim2SF_zero.
  rewrite float_compare_key in Ha, Hb.
  apply Binary64.SFsub_compare; try apply Prim2SF_valid.
  - by destruct (Binary64.key (Prim2SF a)).
  - by destruct (Binary64.key (Prim2SF b)).
Qed.

Global Instance float_laws : JSNumberLaws float := {|
  ncompare := float_compare;
  nlt_compare := FloatAxioms.ltb_spec;
  nle_compare := FloatAxioms.leb_spec;
  neq_compare := FloatAxioms.eqb_spec;
  ncompare_None := float_compare_None;
  ncompare_refl := float_compare_refl;
  ncompare_opp := float_compare_opp;
  ncompare_trans := float_compare_trans;
  ncompare_Eq_l := float_compare_Eq_l;
  nsub_sign := float_sub_sign;
  NaN_unordered := eq_refl;
  zero_ordered := eq_refl;
  nsub_zero := eq_refl
|}.

(** *** The laws in exact arithmetic *)

Definition xcompare (a b : xnum) : option comparison :=
  match a, b with
  | Fin p, Fin q => Some (p ?= q)%Qc
  | XNaN, _ | _, XNaN => None
  | PInf, PInf | NInf, NInf => Some Eq
  | NInf, _ | _, PInf => Some Lt
  | _, NInf | PInf, _ => Some Gt
  end.

Lemma Qccompare_Lt (p q : Qc) : (p ?= q)%Qc = Lt ↔ (p < q)%Qc.
Proof. symmetry. apply Qclt_alt. Qed.

Lemma Qccompare_Gt (p q : Qc) : (p ?= q)%Qc = Gt ↔ (q < p)%Qc.
Proof. symmetry. apply Qcgt_alt. Qed.

Lemma Qccompare_Eq (p q : Qc) : (p ?= q)%Qc = Eq ↔ p = q.
Proof. symmetry. apply Qceq_alt. Qed.

Lemma Qccompare_opp (p q : Qc) : (q ?= p)%Qc = CompOpp (p ?= q)%Qc.
Proof.
  destruct (p ?= q)%Qc eqn:E; cbn.
  - apply Qccompare_Eq. by apply Qccompare_Eq in E.
  - apply Qccompare_Gt. by apply Qccompare_Lt in E.
  - apply Qccompare_Lt. by apply Qccompare_Gt in E.
Qed.

Lemma xnlt_compare (a b : xnum) :
  xlt a b = match xcompare a b with Some Lt => true | _ => false end.
Proof.
  destruct a as [p| | |], b as [q| | |]; try done. cbn.
  destruct (p ?= q)%Qc eqn:E.
  - apply bool_decide_eq_false_2. apply Qccompare_Eq in E as ->.
    intros Hlt. by apply Qclt_not_eq in Hlt.
  - apply bool_decide_eq_true_2. by apply Qccompare_Lt.
  - apply bool_decide_eq_false_2. apply Qccompare_Gt in E.
    by apply Qcle_not_lt, Qclt_le_weak.
Qed.

Lemma xnle_compare (a b : xnum) :
  xle a b = match xcompare a b with Some (Lt | Eq) => true | _ => false end.
Proof.
  destruct a as [p| | |], b as [q| | |]; try done. cbn.
  destruct (p ?= q)%Qc eqn:E.
  - apply bool_decide_eq_true_2. apply Qccompare_Eq in E as ->. apply Qcle_refl.
  - apply bool_decide_eq_true_2. by apply Qclt_le_weak, Qccompare_Lt.
  - apply bool_decide_eq_false_2. apply Qccompare_Gt in E. by apply Qclt_not_le.
Qed.

Lemma xneq_compare (a b : xnum) :
  xeq a b = match xcompare a b with Some Eq => true | _ => false end.
Proof.
  destruct a as [p| | |], b as [q| | |]; try done. cbn.
  destruct (p ?= q)%Qc eqn:E.
  - apply bool_decide_eq_true_2. by apply Qccompare_Eq.
  - apply bool_decide_eq_false_2. intros Hpq.
    apply (proj2 (Qccompare_Eq p q)) in Hpq. congruence.
  - apply bool_decide_eq_false_2. intros Hpq.
    apply (proj2 (Qccompare_Eq p q)) in Hpq. congruence.
Qed.

Lemma xcompare_None (a b : xnum) :
  xcompare a b = None ↔ xcompare a a = None ∨ xcompare b b = None.
Proof.
  destruct a, b; cbn; split; (done || auto || intros [|]; done).
Qed.

Lemma xcompare_refl (a : xnum) : xcompare a a ≠ None → xcompare a a = Some Eq.
Proof. destruct a; cbn; try done. intros _. f_equal. by apply Qccompare_Eq. Qed.

Lemma xcompare_opp (a b : xnum) : xcompare b a = CompOpp <$> xcompare a b.
Proof.
  destruct a as [p| | |], b as [q| | |]; try done.
  change (Some (q ?= p)%Qc = Some (CompOpp (p ?= q)%Qc)).
  by rewrite Qccompare_opp.
Qed.

Lemma xcompare_trans (a b c : xnum) (o : comparison) :
  xcompare a b = Some o → xcompare b c = Some o → xcompare a c = Some o.
Proof.
  destruct a as [p| | |], b as [q| | |], c as [r| | |]; cbn; try done;
    try (by intros [= <-] [= ?]).
  intros [= H1] [= H2]. f_equal. destruct o.
  - apply Qccompare_Eq in H1, H2. apply Qccompare_Eq. congruence.
  - apply Qccompare_Lt in H1, H2. apply Qccompare_Lt. by apply Qclt_trans with q.
  - apply Qccompare_Gt in H1, H2. apply Qccompare_Gt. by apply Qclt_trans with q.
Qed.

Lemma xcompare_Eq_l (a b c : xnum) :
  xcompare a b = Some Eq → xcompare a c = xcompare b c.
Proof.
  destruct a as [p| | |], b as [q| | |]; cbn; try done.
  by intros [= ->%Qccompare_Eq].
Qed.

Lemma xsub_sign (a b : xnum) :
  xcompare a a ≠ None → xcompare b b ≠ None →
  xlt (Fin (Qc_of_Z 0)) (xsub a b) = xlt b a.
Proof.
  intros Ha Hb. destruct a as [p| | |], b as [q| | |]; cbn; try done.
  apply bool_decide_ext. unfold Qcminus, Qclt, Qcplus, Qcopp, Q2Qc, Qc_of_Z.
  cbn [this]. rewrite !Qred_correct. unfold inject_Z. split; intros; lra.
Qed.

Lemma xsub_zero : nsub (num_of_Z 0 : xnum) (num_of_Z 0) = num_of_Z 0.
Proof. cbn. f_equal. by apply Qc_is_canon. Qed.

Global Instance xnum_laws : JSNumberLaws xnum := {|
  ncompare := xcompare;
  nlt_compare := xnlt_compare;
  nle_compare := xnle_compare;
  neq_compare := xneq_compare;
  ncompare_None := xcompare_None;
  ncompare_refl := xcompare_refl;
  ncompare_opp := xcompare_opp;
  ncompare_trans := xcompare_trans;
  ncompare_Eq_l := xcompare_Eq_l;
  nsub_sign := xsub_sign;
  NaN_unordered := eq_refl;
  zero_ordered := eq_refl;
  nsub_zero := xsub_zero
|}.

(** ** The sides of the order book, in every model of the numbers *)

Section BookOrder.
Context {F : Type} `{JSNumber F}.
Local Open Scope js_scope.

(** The order of a side: bids by descending price, asks by ascending. *)
Definition precedes (isBid : bool) (a b : OrderBookLevel F) : Prop :=
  if isBid then (price b <=? price a) = true
  else (price a <=? price b) = true.

Definition strictly_precedes (isBid : bool) (a b : OrderBookLevel F) : Prop :=
  if isBid then (price b <? price a) = true
  else (price a <? price b) = true.

Definition level_cmp (isBid : bool)
    : OrderBookLevel F → OrderBookLevel F → F :=
  if isBid then cmp_desc else cmp_asc.

Definition number_price (l : OrderBookLevel F) : Prop := numeric (price l).

(** No two of the numbers are equal for [===]. *)
Definition distinct (ps : list F) : Prop :=
  StronglySorted (λ p q, (p =? q) = false) ps.

(** The array of [updateLevel] before it is sorted again. *)
Definition update_array (levels : list (OrderBookLevel F)) (p s : F)
    : list (OrderBookLevel F) :=
  match findIndex (λ l, price l =? p) levels with
  | Some i =>
      if s =? zero then delete i levels else alter (set_size s) i levels
  | None =>
      if s =? zero then levels else levels ++ [ {| price := p; size := s |} ]
  end.

(** The side of the book that a delta of side [sd] addresses, and the
    other one. *)
Definition delta_side (sd : Side) (book : OrderBook F)
    : list (OrderBookLevel F) :=
  match sd with BUY => bids book | SELL => asks book end.
Definition opposite_side (sd : Side) (book : OrderBook F)
    : list (OrderBookLevel F) :=
  match sd with BUY => asks book | SELL => bids book end.

Global Instance precedes_dec isBid a b : Decision (precedes isBid a b).
Proof. unfold precedes. destruct isBid; apply _. Defined.
Global Instance strictly_precedes_dec isBid a b :
  Decision (strictly_precedes isBid a b).
Proof. unfold strictly_precedes. destruct isBid; apply _. Defined.
Global Instance number_price_dec l : Decision (number_price l).
Proof. unfold number_price. apply _. Defined.
Global Instance distinct_dec ps : Decision (distinct ps).
Proof. unfold distinct. apply _. Defined.

Lemma updateLevel_update_array levels p s isBid :
  updateLevel levels p s isBid
  = js_sort (level_cmp isBid) (update_array levels p s).
Proof.
  unfold updateLevel, update_array, level_cmp.
  destruct isBid, (findIndex _ levels), (s =? zero); done.
Qed.

Lemma applyChange_skip (tokenId : string) (book : OrderBook F) change :
  pc_asset_id change ≠ tokenId → applyChange tokenId book change = book.
Proof. intros Hne. unfold applyChange. by rewrite bool_decide_eq_true_2. Qed.

Lemma applyChange_sides (tokenId : string) (book : OrderBook F) change :
  pc_asset_id change = tokenId →
  let sd := pc_side change in
  let book' := applyChange tokenId book change in
  delta_side sd book' =
    updateLevel (delta_side sd book) (parseFloat (pc_price change))
                (parseFloat (pc_size change)) (is_bid sd)
  ∧ opposite_side sd book' = opposite_side sd book
  ∧ lastUpdate book' = lastUpdate book.
Proof.
  intros Heq. unfold applyChange.
  rewrite bool_decide_eq_false_2 by (by intros ?).
  by destruct (pc_side change).
Qed.

(** The deltas of other instruments fold to nothing. *)
Lemma foldl_applyChange_skip (tokenId : string) (book : OrderBook F) changes :
  Forall (λ change, pc_asset_id change ≠ tokenId) changes →
  foldl (applyChange tokenId) book changes = book.
Proof.
  induction 1 as [|change l Hne _ IH]; cbn [foldl]; [done|].
  by rewrite applyChange_skip.
Qed.

(** A delta leaves alone the levels whose price is not its own. *)
Lemma update_array_keeps levels p s l :
  l ∈ levels → (price l =? p) = false → l ∈ update_array levels p s.
Proof.
  intros Hl Hne. unfold update_array.
  destruct (findIndex _ levels) as [i|] eqn:Hi.
  - apply findIndex_Some in Hi as (l1 & x & l2 & -> & <- & Hx & _).
    assert (l ≠ x) by (intros ->; cbv beta in Hx; by rewrite Hne in Hx).
    apply elem_of_app in Hl as [Hl|[->|Hl]%elem_of_cons]; [|done|].
    + destruct (s =? zero).
      * rewrite delete_middle, elem_of_app. auto.
      * rewrite <- (Nat.add_0_r (length l1)), alter_app_r, elem_of_app. auto.
    + destruct (s =? zero).
      * rewrite delete_middle, elem_of_app. auto.
      * rewrite <- (Nat.add_0_r (length l1)), alter_app_r, elem_of_app.
        right. cbn [alter list_alter]. apply elem_of_cons. by right.
  - destruct (s =? zero); [done|]. rewrite elem_of_app. auto.
Qed.

Lemma price_alter_set_size s i (levels : list (OrderBookLevel F)) :
  price <$> alter (set_size s) i levels = price <$> levels.
Proof.
  rewrite (list_fmap_alter price (set_size s) id) by (by apply Forall_true).
  revert i. induction (price <$> levels) as [|x l IH]; intros [|i]; cbn; try done.
  f_equal. apply IH.
Qed.
End BookOrder.

(** A relation that is symmetric holds of all pairs of an array whatever
    the order of the array. *)
Lemma StronglySorted_symmetric_perm {A} (R : relation A) (l1 l2 : list A) :
  Symmetric R → l1 ≡ₚ l2 → StronglySorted R l1 → StronglySorted R l2.
Proof.
  intros Hsym. induction 1 as [|x l1 l2 Hp IH|x y l|l1 l2 l3 _ IH1 _ IH2].
  - done.
  - rewrite !StronglySorted_cons. intros [Hx ?]. split; [|auto].
    by rewrite <- Hp.
  - rewrite !StronglySorted_cons, !Forall_cons.
    intros [[Hyx Hy] [Hx ?]]. repeat split; auto.
  - auto.
Qed.

Section BookOrderLaws.
Context {F : Type} `{JSNumberLaws F}.
Local Set Default Proof Using "All".
Local Open Scope js_scope.
Implicit Types (a b x : OrderBookLevel F) (l : list (OrderBookLevel F)).

Global Instance precedes_trans isBid : Transitive (precedes (F:=F) isBid).
Proof. intros a b c. destruct isBid; cbn; eauto using nle_trans. Qed.

Global Instance strictly_precedes_trans isBid :
  Transitive (strictly_precedes (F:=F) isBid).
Proof. intros a b c. destruct isBid; cbn; eauto using nlt_trans. Qed.

Global Instance distinct_symmetric :
  Symmetric (λ p q : F, (p =? q) = false).
Proof. intros p q. by rewrite neq_sym. Qed.

Lemma distinct_perm (ps qs : list F) : ps ≡ₚ qs → distinct ps → distinct qs.
Proof. apply StronglySorted_symmetric_perm, _. Qed.

Lemma level_cmp_pos isBid a b :
  number_price a → number_price b →
  (level_cmp isBid a b >? zero) = true → precedes isBid b a.
Proof.
  intros Ha Hb. destruct isBid; unfold level_cmp, precedes, cmp_desc, cmp_asc;
    rewrite nsub_pos by done; apply nlt_nle.
Qed.

Lemma level_cmp_npos isBid a b :
  number_price a → number_price b →
  (level_cmp isBid a b >? zero) = false → precedes isBid a b.
Proof.
  intros Ha Hb. destruct isBid; unfold level_cmp, precedes, cmp_desc, cmp_asc;
    rewrite nsub_pos by done; rewrite nle_total by done;
    by intros ?%negb_false_iff.
Qed.

(** On numeric prices the sort puts a side in its order. *)
Lemma sort_in_order isBid l :
  Forall number_price l →
  StronglySorted (precedes isBid) (js_sort (level_cmp isBid) l).
Proof.
  apply js_sort_sorted; [apply _ | apply level_cmp_pos | apply level_cmp_npos].
Qed.



Lemma strictly_precedes_precedes isBid a b :
  strictly_precedes isBid a b → precedes isBid a b.
Proof. destruct isBid; cbn; apply nlt_nle. Qed.

Lemma strictly_precedes_distinct isBid a b :
  strictly_precedes isBid a b → (price a =? price b) = false.
Proof.
  destruct isBid; cbn; intros Hlt.
  - rewrite neq_sym. by apply nlt_neq.
  - by apply nlt_neq.
Qed.

Lemma precedes_strictly isBid a b :
  precedes isBid a b → (price a =? price b) = false →
  strictly_precedes isBid a b.
Proof.
  destruct isBid; cbn; intros Hle Hne; apply nle_neq_nlt; try done.
  by rewrite neq_sym.
Qed.

(** A side is strictly ordered exactly when it is ordered and no two of
    its levels have the same price. *)
Lemma strictly_ordered_iff isBid l :
  StronglySorted (strictly_precedes isBid) l ↔
  StronglySorted (precedes isBid) l ∧ distinct (price <$> l).
Proof.
  unfold distinct. induction l as [|a l IH].
  { split; [split|]; constructor. }
  rewrite fmap_cons, !StronglySorted_cons, IH, Forall_fmap, !Forall_forall.
  split.
  - intros [Hall [Hs Hn]]. repeat split; try done.
    + intros b Hb. by apply strictly_precedes_precedes, Hall.
    + intros b Hb. cbn. by apply (strictly_precedes_distinct isBid), Hall.
  - intros [[Hall Hs] [Hni Hn]]. repeat split; try done.
    intros b Hb. apply precedes_strictly; [by apply Hall|by apply Hni].
Qed.

Lemma sort_strictly_ordered isBid l :
  Forall number_price l → distinct (price <$> l) →
  StronglySorted (strictly_precedes isBid) (js_sort (level_cmp isBid) l).
Proof.
  intros Hn Hd. apply strictly_ordered_iff. split; [by apply sort_in_order|].
  apply (distinct_perm (price <$> l)); [|done].
  by rewrite js_sort_perm.
Qed.

(** *** The array of [updateLevel] *)

Lemma update_array_number l p s :
  numeric p → Forall number_price l → Forall number_price (update_array l p s).
Proof.
  intros Hp Hl. unfold update_array.
  destruct (findIndex _ l) as [i|] eqn:Hi.
  - destruct (s =? zero); [by apply Forall_delete|].
    apply Forall_alter; [done|]. intros x _ Hx. exact Hx.
  - destruct (s =? zero); [done|].
    apply Forall_app; split; [done|]. by repeat constructor.
Qed.

Lemma update_array_distinct l p s :
  distinct (price <$> l) → distinct (price <$> update_array l p s).
Proof.
  intros Hd. unfold update_array.
  destruct (findIndex _ l) as [i|] eqn:Hi.
  - destruct (s =? zero).
    + rewrite list_fmap_delete. by apply StronglySorted_delete.
    + by rewrite price_alter_set_size.
  - destruct (s =? zero); [done|].
    rewrite fmap_app. apply StronglySorted_app_2; [|done|repeat constructor].
    intros q1 q2 (x & -> & Hx)%list_elem_of_fmap ->%list_elem_of_singleton.
    apply findIndex_None in Hi. rewrite Forall_forall in Hi. by apply Hi.
Qed.

(** The order of a side is kept by a delta whose price is a number. *)
Lemma updateLevel_strictly_ordered isBid l p s :
  numeric p → Forall number_price l →
  StronglySorted (strictly_precedes isBid) l →
  Forall number_price (updateLevel l p s isBid)
  ∧ StronglySorted (strictly_precedes isBid) (updateLevel l p s isBid).
Proof.
  intros Hp Hn [_ Hd]%strictly_ordered_iff.
  rewrite updateLevel_update_array. split.
  - rewrite js_sort_perm. by apply update_array_number.
  - apply sort_strictly_ordered;
      [by apply update_array_number|by apply update_array_distinct].
Qed.

(** [NaN] is the price of no level. *)
Lemma findIndex_NaN l p :
  is_nan p = true → findIndex (λ x, price x =? p) l = None.
Proof.
  intros Hp. induction l as [|x l IH]; cbn [findIndex]; [done|].
  by rewrite neq_nan_r, IH.
Qed.
End BookOrderLaws.

(** ** Book snapshots and price changes *)

Section FeedBook.
Context {F : Type} `{JSNumberLaws F}.
Local Set Default Proof Using "All".
Local Open Scope js_scope.

(** C6, as amended.  A book snapshot for the subscribed instrument whose
    prices all parse to numbers: each side of the resulting book holds
    exactly the levels of the message, bids in descending and asks in
    ascending order of price; the order is strict, with no price twice
    on a side, exactly when no two levels of that side of the message
    have prices that parse to the same number. *)
Theorem book_snapshot_sorted (c : Client F) (message : BookMessage) :
  let book := orderBook (handleBookMessage message c).1 in
  bm_asset_id message = tokenId c →
  Forall number_price (parseLevel (F:=F) <$> bidData message) →
  Forall number_price (parseLevel (F:=F) <$> askData message) →
  bids book ≡ₚ parseLevel <$> bidData message
  ∧ asks book ≡ₚ parseLevel <$> askData message
  ∧ StronglySorted (precedes true) (bids book)
  ∧ StronglySorted (precedes false) (asks book)
  ∧ (StronglySorted (strictly_precedes true) (bids book)
       ↔ distinct (price <$> (parseLevel (F:=F) <$> bidData message)))
  ∧ (StronglySorted (strictly_precedes false) (asks book)
       ↔ distinct (price <$> (parseLevel (F:=F) <$> askData message))).
Proof.
  intros book Hown Hbids Hasks. subst book.
  rewrite (handleBookMessage_book c message Hown). cbn [bids asks].
  pose proof (sort_in_order true _ Hbids) as Hsb.
  pose proof (sort_in_order false _ Hasks) as Hsa.
  cbn [level_cmp] in Hsb, Hsa.
  split; [apply js_sort_perm|]. split; [apply js_sort_perm|].
  split; [done|]. split; [done|]. split.
  - rewrite (strictly_ordered_iff true). split.
    + intros [_ Hd]. eapply distinct_perm; [|exact Hd]. by rewrite js_sort_perm.
    + intros Hd. split; [done|].
      eapply distinct_perm; [|exact Hd]. by rewrite js_sort_perm.
  - rewrite (strictly_ordered_iff false). split.
    + intros [_ Hd]. eapply distinct_perm; [|exact Hd]. by rewrite js_sort_perm.
    + intros Hd. split; [done|].
      eapply distinct_perm; [|exact Hd]. by rewrite js_sort_perm.
Qed.

(** C7, as amended.  A level whose price or size is not a numeral does
    not abort the update, and it is not discarded either:
    - a book snapshot stores every level of the message, with [NaN] for
      what [parseFloat] could not read;
    - a delta whose price parses to [NaN] and whose size does not parse
      to [0] is added to its side as a new level, next to all the levels
      the side had;
    - a delta whose size parses to [NaN] leaves on its side a level of
      that size, at the price of the delta;
    - a delta never touches the levels whose price is not equal to its
      own. *)
Theorem malformed_level_is_kept
    (c : Client F) (message : BookMessage)
    (book : OrderBook F) (change : PriceChange) :
  let snapshot := orderBook (handleBookMessage message c).1 in
  let p : F := parseFloat (pc_price change) in
  let s : F := parseFloat (pc_size change) in
  let sd := pc_side change in
  let book' := applyChange (tokenId c) book change in
  bm_asset_id message = tokenId c →
  pc_asset_id change = tokenId c →
  bids snapshot ≡ₚ parseLevel <$> bidData message
  ∧ asks snapshot ≡ₚ parseLevel <$> askData message
  ∧ (is_nan p = true → (s =? zero) = false →
       delta_side sd book'
         ≡ₚ delta_side sd book ++ [ {| price := p; size := s |} ])
  ∧ (is_nan s = true →
       ∃ l, l ∈ delta_side sd book' ∧ size l = s
            ∧ (price l = p ∨ (price l =? p) = true))
  ∧ (∀ l, l ∈ delta_side sd book → (price l =? p) = false →
          l ∈ delta_side sd book')
  ∧ opposite_side sd book' = opposite_side sd book.
Proof.
  intros snapshot p s sd book' Hbook Hown. subst snapshot.
  rewrite (handleBookMessage_book c message Hbook). cbn [bids asks].
  destruct (applyChange_sides (tokenId c) book change Hown) as (Hside & Hother & _).
  fold sd book' p s in Hside, Hother.
  rewrite Hside, updateLevel_update_array.
  split; [apply js_sort_perm|]. split; [apply js_sort_perm|].
  split; [|split; [|split; [|done]]].
  - intros Hp Hs. rewrite js_sort_perm. unfold update_array.
    by rewrite findIndex_NaN, Hs.
  - intros Hs. unfold update_array. rewrite (neq_nan_l s zero Hs).
    destruct (findIndex _ (delta_side sd book)) as [i|] eqn:Hi.
    + apply findIndex_Some in Hi as (l1 & x & l2 & Hl & <- & Hx & _).
      exists (set_size s x). split; [|split; [done|by right]].
      rewrite js_sort_elem_of, Hl.
      rewrite <- (Nat.add_0_r (length l1)), alter_app_r, elem_of_app.
      right. cbn [alter list_alter]. apply elem_of_cons. by left.
    + exists {| price := p; size := s |}. split; [|split; [done|by left]].
      rewrite js_sort_elem_of, elem_of_app, list_elem_of_singleton. by right.
  - intros l Hl Hne. rewrite js_sort_elem_of. by apply update_array_keeps.
Qed.





(** A message that carries deltas of other instruments only changes no
    level, stamps the book and calls the handler. *)
Lemma price_change_of_others (c : Client F) (m : PriceChangeMessage) :
  Forall (λ d, pc_asset_id d ≠ tokenId c) (pcm_price_changes m) →
  orderBook (handlePriceChange m c).1
    = {| bids := bids (orderBook c); asks := asks (orderBook c);
         lastUpdate := parseInt (pcm_timestamp m) |}
  ∧ length (handlePriceChange m c).2 = 1%nat.
Proof.
  intros Hall. split; [|done].
  rewrite handlePriceChange_book. cbv zeta.
  by rewrite (foldl_applyChange_skip _ _ _ Hall).
Qed.

(** *** The order of the book is an invariant of the feed *)

(** The levels of a side of a message: prices that parse to numbers, no
    two of them to the same one. *)
Definition sound_levels (os : list OrderSummary) : Prop :=
  Forall number_price (parseLevel (F:=F) <$> os)
  ∧ distinct (price <$> (parseLevel (F:=F) <$> os)).

(** What is asked of the frames for the subscribed instrument: snapshots
    whose prices parse to numbers, no two of a side to the same one, and
    deltas whose prices parse to numbers.  Nothing is asked of sizes, nor
    of the frames of other instruments. *)
Definition sound_frame (tokenId : string) (data : Frame) : Prop :=
  match data with
  | FrameJSON (MsgBook m) =>
      bm_asset_id m = tokenId → sound_levels (bidData m) ∧ sound_levels (askData m)
  | FrameJSON (MsgPriceChange m) =>
      Forall (λ change, pc_asset_id change = tokenId →
                        numeric (parseFloat (F:=F) (pc_price change)))
             (pcm_price_changes m)
  | _ => True
  end.

(** A side in strict order, all of its prices numbers. *)
Definition ordered_side (isBid : bool) (l : list (OrderBookLevel F)) : Prop :=
  Forall number_price l ∧ StronglySorted (strictly_precedes isBid) l.

Definition ordered_book (b : OrderBook F) : Prop :=
  ordered_side true (bids b) ∧ ordered_side false (asks b).

Lemma applyChange_ordered_book tokenId (book : OrderBook F) change :
  (pc_asset_id change = tokenId → numeric (parseFloat (F:=F) (pc_price change))) →
  ordered_book book → ordered_book (applyChange tokenId book change).
Proof.
  intros Hp [[Hbn Hbs] [Han Has]]. unfold applyChange.
  case_bool_decide as Hid; [done|].
  assert (pc_asset_id change = tokenId) as Hown
    by (by destruct (decide (pc_asset_id change = tokenId))).
  specialize (Hp Hown).
  destruct (pc_side change); split; cbn [bids asks]; try done;
    by apply updateLevel_strictly_ordered.
Qed.

Lemma onMessage_ordered_book data (c : Client F) :
  sound_frame (tokenId c) data →
  ordered_book (orderBook c) → ordered_book (orderBook (onMessage data c).1).
Proof.
  intros Hsound Hord.
  destruct data as [| |[m|m|m|]]; cbn [onMessage fst]; try done.
  - destruct (decide (bm_asset_id m = tokenId c)) as [Hid|Hid].
    + rewrite (handleBookMessage_book _ _ Hid).
      destruct (Hsound Hid) as [[Hbn Hbd] [Han Had]].
      split; cbn [bids asks]; (split; [by rewrite js_sort_perm|]).
      * by apply (sort_strictly_ordered true).
      * by apply (sort_strictly_ordered false).
    + by rewrite (handleBookMessage_foreign _ _ Hid).
  - by rewrite orderBook_handleTradeMessage.
  - rewrite handlePriceChange_book. cbv zeta.
    cbn in Hsound.
    assert (Hfold : ordered_book
              (foldl (applyChange (tokenId c)) (orderBook c) (pcm_price_changes m))).
    { revert Hord. generalize (orderBook c).
      induction Hsound as [|change l Hc _ IH]; intros b Hb; cbn [foldl]; [done|].
      apply IH. by apply applyChange_ordered_book. }
    exact Hfold.
Qed.

(** X2.  Both sides of the book are in strict order of price (bids
    descending, asks ascending, no price twice, every price a number)
    after every sequence of frames whose snapshots and deltas for the
    subscribed instrument carry prices that parse to numbers and whose
    snapshots carry no two prices of a side that parse to the same
    number. *)
Theorem book_stays_sorted (tok : string) (frames : list Frame) :
  Forall (sound_frame tok) frames →
  let book := orderBook (client_after (F:=F) tok frames) in
  StronglySorted (strictly_precedes true) (bids book)
  ∧ StronglySorted (strictly_precedes false) (asks book)
  ∧ Forall number_price (bids book)
  ∧ Forall number_price (asks book).
Proof.
  intros Hsound book.
  assert (Hinv : ordered_book book ∧ tokenId (client_after (F:=F) tok frames) = tok).
  { subst book. unfold client_after.
    assert (H0' : ordered_book (orderBook (newClient (F:=F) tok))
                 ∧ tokenId (newClient (F:=F) tok) = tok).
    { split; [|done]. split; split; constructor. }
    revert H0'. generalize (newClient (F:=F) tok).
    induction Hsound as [|data l Hd _ IH]; intros c [Hord Hid]; cbn [foldl]; [done|].
    apply IH. split.
    - apply onMessage_ordered_book; [by rewrite Hid|done].
    - by rewrite tokenId_onMessage. }
  destruct Hinv as [[[Hbn Hbs] [Han Has]] _]. done.
Qed.
End FeedBook.

Global Instance sound_levels_dec {F} `{JSNumberLaws F} os :
  Decision (sound_levels (F:=F) os).
Proof. unfold sound_levels. apply _. Defined.

Global Instance sound_frame_dec {F} `{JSNumberLaws F} tok data :
  Decision (sound_frame (F:=F) tok data).
Proof. destruct data as [| |[m|m|m|]]; cbn; apply _. Defined.

(** *** The feed in binary64 *)

(** [parseFloat] in binary64: the double nearest to the numeral, whatever
    the number of its digits; [0] and [Infinity] beyond the range; [NaN]
    for what is no numeral; white space first, U+00A0 included. *)
Example parseFloat_binary64 :
  parseFloat "0.1" = 0x1.999999999999ap-4%float
  ∧ parseFloat "0.10000000000000001" = 0x1.999999999999ap-4%float
  ∧ parseFloat "0.1000000000000000194" = 0x1.999999999999bp-4%float
  ∧ parseFloat "9007199254740993" = 0x1p+53%float
  ∧ parseFloat "1e23" = 0x1.52d02c7e14af6p+76%float
  ∧ parseFloat "4.9e-324" = 0x0.0000000000001p-1022%float
  ∧ parseFloat "1e-400" = 0%float
  ∧ parseFloat "1e309" = infinity
  ∧ parseFloat "-0" = (-0)%float
  ∧ parseFloat "0.50x" = 0.5%float
  ∧ PrimFloat.is_nan (parseFloat "abc") = true
  ∧ parseFloat (String (ascii_of_nat 194) (String (ascii_of_nat 160) "7")) = 7%float.
Proof. repeat split; vm_compute; reflexivity. Qed.

(** Hypotheses on concrete inputs are decided by running the code. *)
Ltac by_running := apply (bool_decide_unpack _); vm_compute; exact I.

(** A level of binary64, by the numerals of its price and size. *)
Definition level_of (p s : string) : OrderBookLevel float :=
  parseLevel (order p s).

(** The client after the snapshot [snapshot_message]: bids 0.50 x 10 and
    0.40 x 5, ask 0.55 x 8. *)
Definition client64 : Client float :=
  client_after "tok" [FrameJSON (MsgBook snapshot_message)].

(** A snapshot whose two bid prices are different numerals of one
    double. *)
Definition same_double_message : BookMessage :=
  bookMessage "tok" [order "0.1" "5"; order "0.10000000000000001" "7"] [].

Lemma book_snapshot_sorted_witness :
  StronglySorted (strictly_precedes true)
    (bids (orderBook (handleBookMessage snapshot_message (newClient (F:=float) "tok")).1))
  ∧ ¬ StronglySorted (strictly_precedes true)
        (bids (orderBook (handleBookMessage same_double_message
                            (newClient (F:=float) "tok")).1)).
Proof.
  split.
  - destruct (book_snapshot_sorted (newClient (F:=float) "tok") snapshot_message)
      as (_ & _ & _ & _ & Hstrict & _).
    + reflexivity.
    + by_running.
    + by_running.
    + apply Hstrict. by_running.
  - destruct (book_snapshot_sorted (newClient (F:=float) "tok") same_double_message)
      as (_ & _ & _ & _ & Hstrict & _).
    + reflexivity.
    + by_running.
    + by_running.
    + intros Hs. apply Hstrict in Hs. revert Hs. by_running.
Defined.

(** A snapshot with a bid whose price is not a numeral and an ask whose
    size is not one; a delta whose price is not a numeral, and one whose
    size is a numeral of [0] in binary64. *)
Lemma malformed_level_is_kept_witness :
  bids (orderBook (handleBookMessage malformed_message (newClient (F:=float) "tok")).1)
    ≡ₚ [level_of "0.50" "10"; level_of "abc" "4"]
  ∧ bids (applyChange "tok" (orderBook client64) (delta "tok" "abc" "7" BUY))
      ≡ₚ bids (orderBook client64) ++ [level_of "abc" "7"]
  ∧ level_of "0.50" "10"
      ∈ bids (applyChange "tok" (orderBook client64) (delta "tok" "abc" "1e-400" BUY)).
Proof.
  destruct (malformed_level_is_kept (newClient (F:=float) "tok") malformed_message
              (orderBook client64) (delta "tok" "abc" "7" BUY) eq_refl eq_refl)
    as (Hbids & _ & Hnew & _ & _ & _).
  destruct (malformed_level_is_kept (newClient (F:=float) "tok") malformed_message
              (orderBook client64) (delta "tok" "abc" "1e-400" BUY) eq_refl eq_refl)
    as (_ & _ & _ & _ & Hkeep & _).
  split; [exact Hbids|]. split.
  - apply Hnew; reflexivity.
  - apply Hkeep; [|reflexivity].
    apply list_elem_of_lookup. exists 0%nat. vm_compute. reflexivity.
Defined.






(** A snapshot, deltas on both sides, a trade, a keepalive echo and a
    snapshot of another instrument with a price twice: [feed0]. *)
Lemma book_stays_sorted_witness :
  StronglySorted (strictly_precedes true)
    (bids (orderBook (client_after (F:=float) "tok" feed0)))
  ∧ bids (orderBook (client_after (F:=float) "tok" feed0))
      = [level_of "0.50" "10"; level_of "0.45" "7"]
  ∧ asks (orderBook (client_after (F:=float) "tok" feed0))
      = [level_of "0.55" "8"; level_of "0.60" "2"].
Proof.
  split; [|split; vm_compute; reflexivity].
  destruct (book_stays_sorted (F:=float) "tok" feed0) as (Hs & _); [by_running|].
  exact Hs.
Defined.

(** ** Fills *)

Section Fills.
Context {F : Type} `{JSNumberLaws F}.
Local Set Default Proof Using "All".
Local Open Scope js_scope.

(** Every call ends in [recalculateValue], which reads nothing that it
    writes: on a ledger reached by calls it changes nothing. *)
Lemma recalculateValue_ledger_after (ops : list (LedgerOp (F:=F))) :
  recalculateValue (ledger_after ops) = ledger_after ops.
Proof.
  induction ops as [|op ops _] using rev_ind.
  - unfold ledger_after, recalculateValue, newTracker. cbn. unfold zero.
    by rewrite nsub_zero.
  - rewrite ledger_after_snoc. by destruct op.
Qed.

(** C3, as amended.  A fill posted to a ledger reached from the empty
    one.
    - BUY on a held position folds in at weighted-average cost; a BUY of
      a token not held creates its position, at the price of the fill.
    - SELL executes only when the held shares are at least the size; it
      books [price * size - averagePrice * size], takes [size] from the
      shares and [averagePrice * size] from the cost of the position and
      of the ledger, and deletes the position when the shares are then
      exactly [0].  Otherwise the ledger is left as it is. *)
Theorem fill_posted (ops : list (LedgerOp (F:=F)))
    (tokenId outcome : string) (side : Side) (price size : F) (timestamp : Z) :
  let t := ledger_after ops in
  let t' := addTrade tokenId outcome side price size timestamp t in
  match side, getPosition tokenId t with
  | BUY, Some r =>
      let existing := position_at t r in
      let held := position_at t' r in
      getPosition tokenId t' = Some r
      ∧ pos_totalCost held = pos_totalCost existing + price * size
      ∧ shares held = shares existing + size
      ∧ averagePrice held =
          (pos_totalCost existing + price * size) / (shares existing + size)
      ∧ realizedPnL t' = realizedPnL t
  | BUY, None =>
      ∃ r, getPosition tokenId t' = Some r
           ∧ positions t' = positions t ++ [(tokenId, r)]
           ∧ averagePrice (position_at t' r) = price
           ∧ pos_totalCost (position_at t' r) = price * size
           ∧ shares (position_at t' r) = size
           ∧ realizedPnL t' = realizedPnL t
  | SELL, Some r =>
      let existing := position_at t r in
      let held := position_at t' r in
      if shares existing >=? size then
        realizedPnL t' =
          realizedPnL t + (price * size - averagePrice existing * size)
        ∧ totalCost t' = totalCost t - averagePrice existing * size
        ∧ shares held = shares existing - size
        ∧ pos_totalCost held =
            pos_totalCost existing - averagePrice existing * size
        ∧ averagePrice held = averagePrice existing
        ∧ getPosition tokenId t' =
            (if shares existing - size =? zero then None else Some r)
      else t' = t
  | SELL, None => t' = t
  end.
Proof.
  intros t t'.
  pose proof (well_formed_ledger_after ops) as Hwf. fold t in Hwf.
  unfold getPosition.
  destruct side, (Map_get tokenId (positions t)) as [r|] eqn:Hget.
  - destruct (addTrade_buy_held tokenId outcome price size timestamp t r Hget)
      as (Hobj & Hpos & _ & _ & Hreal & _). fold t' in Hobj, Hpos, Hreal.
    cbv zeta. unfold position_at. rewrite Hobj, Hpos, lookup_total_insert_eq.
    done.
  - destruct (addTrade_buy_new tokenId outcome price size timestamp t Hget)
      as (Hobj & Hpos & _ & _ & Hreal & _). fold t' in Hobj, Hpos, Hreal.
    exists (nextObject t). unfold position_at.
    rewrite Hobj, Hpos, lookup_total_insert_eq. repeat split; try done.
    apply Map_get_elem.
    + rewrite <- Hpos. apply well_formed_addTrade, Hwf.
    + rewrite elem_of_app, list_elem_of_singleton. by right.
  - destruct (shares (position_at t r) >=? size) eqn:Hge.
    2:{ subst t'. rewrite addTrade_sell_rejected by by rewrite Hget.
        apply recalculateValue_ledger_after. }
    destruct (addTrade_sell_held tokenId outcome price size timestamp t r Hget Hge)
      as (Hobj & Hpos & _ & Hcost & Hreal & _).
    fold t' in Hobj, Hpos, Hcost, Hreal.
    cbv zeta. unfold position_at in *.
    rewrite Hobj, Hpos, Hreal, Hcost, lookup_total_insert_eq.
    repeat split; try done.
    destruct (neq _ _); [|done]. apply Map_get_delete. apply Hwf.
  - subst t'. rewrite addTrade_sell_rejected by by rewrite Hget.
    apply recalculateValue_ledger_after.
Qed.
End Fills.

(** *** Fills in binary64 *)

Definition fill64 (side : Side) (p : Z) (k : nat) (s : Z) (ts : Z)
    : LedgerOp (F:=float) :=
  OpAddTrade "tok" "Yes" side (decimal p k) (num_of_Z s) ts.

(** The worked example of the specification as the program runs it:
    BUY 2 @ 0.30 and BUY 3 @ 0.40 give 5 shares; selling 2 @ 0.50 leaves 3
    shares, and the position goes with the sale of those. *)
Example fills_binary64 :
  let t := ledger_after [fill64 BUY 30 2 2 1; fill64 BUY 40 2 3 2] in
  let t' := ledger_after [fill64 BUY 30 2 2 1; fill64 BUY 40 2 3 2;
                          fill64 SELL 50 2 2 3] in
  let t'' := ledger_after [fill64 BUY 30 2 2 1; fill64 BUY 40 2 3 2;
                           fill64 SELL 50 2 2 3; fill64 SELL 50 2 3 4] in
  shares (position_at t 0) = num_of_Z 5
  ∧ shares (position_at t' 0) = num_of_Z 3
  ∧ getPosition "tok" t' = Some 0%nat
  ∧ getPosition "tok" t'' = None
  ∧ addTrade "tok" "Yes" SELL (decimal 50 2) (num_of_Z 4) 4 t' = t'.
Proof. repeat split; vm_compute; reflexivity. Qed.

(** Shares of 0.7 and 0.1 bought are 0.7999999999999999 shares held: the
    sale of 0.8 is refused. *)
Example sale_refused_binary64 :
  let t := ledger_after (F:=float)
             [OpAddTrade "tok" "Yes" BUY (decimal 50 2) (decimal 7 1) 1;
              OpAddTrade "tok" "Yes" BUY (decimal 50 2) (decimal 1 1) 2] in
  (shares (position_at t 0) >=? decimal 8 1)%js = false
  ∧ addTrade "tok" "Yes" SELL (decimal 50 2) (decimal 8 1) 3 t = t.
Proof. split; vm_compute; reflexivity. Qed.

(** The ledger after BUY 3 @ 0.70, and after the sale of 3 @ 0.50 on it. *)
Definition bought64 : PortfolioTracker float :=
  ledger_after [fill64 BUY 70 2 3 1].

Definition sold64 : PortfolioTracker float :=
  addTrade "tok" "Yes" SELL (decimal 50 2) (num_of_Z 3) 2 bought64.

(** C3 as stated fails on the realized profit.  After BUY 3 @ 0.70, the
    sale of 3 @ 0.50 books [0.5 * 3 - 0.7 * 3], which is
    -0.5999999999999996 in binary64, where [(0.5 - 0.7) * 3] is
    -0.5999999999999999. *)
Lemma realized_pnl_not_distributed :
  (shares (position_at bought64 0) >=? num_of_Z 3)%js = true
  ∧ averagePrice (position_at bought64 0) = decimal 70 2
  ∧ realizedPnL sold64
      = (realizedPnL bought64
         + (decimal 50 2 * num_of_Z 3 - decimal 70 2 * num_of_Z 3))%js
  ∧ (realizedPnL sold64
       =? realizedPnL bought64 + (decimal 50 2 - decimal 70 2) * num_of_Z 3)%js
      = false.
Proof. repeat split; vm_compute; reflexivity. Qed.

(** The sale of 3 @ 0.50 after BUY 3 @ 0.70 in binary64: it books
    [0.5 * 3 - 0.7 * 3] and closes the position. *)
Lemma fill_posted_witness :
  realizedPnL sold64
    = (realizedPnL bought64
       + (decimal 50 2 * num_of_Z 3
          - averagePrice (position_at bought64 0) * num_of_Z 3))%js
  ∧ shares (position_at sold64 0) = zero
  ∧ getPosition "tok" sold64 = None.
Proof.
  pose proof (fill_posted (F:=float) [fill64 BUY 70 2 3 1] "tok" "Yes" SELL
                (decimal 50 2) (num_of_Z 3) 2) as Hfill.
  destruct Hfill as (Hreal & _ & Hshares & _ & _ & Hgone).
  split; [exact Hreal|]. split; [|exact Hgone].
  etrans; [exact Hshares|]. vm_compute. reflexivity.
Defined.

(** ** The execution price *)

Section ExecutionPrice.
Context {F : Type} `{JSNumberLaws F} {S : Type} `{!BaseStrategy F S}.
Local Set Default Proof Using "All".
Local Open Scope js_scope.












End ExecutionPrice.

(** *** The execution price in binary64 *)






